(** * Nether portal solver: link predicate, cost, neighbour generation,
      two-stage annealer and problem parser.

    Shallow embedding of [js/utils.js], [js/parser.js] and [js/solver.js].

    Conventions of the embedding.
    - A JS number that holds a block coordinate is an integer ([Z]); a JS
      number that may be fractional (probe points, entity width, weights,
      costs, temperatures, random draws) is an exact rational ([Q]).
      Rounding of IEEE doubles is not modelled.
    - A JS object used as a dictionary is an association list in key
      insertion order, which is the order [for ... in] and [Object.keys]
      visit it (names that read as array indices, which JS visits first,
      are not considered).
    - Reading a dictionary sees its own keys only: the members every JS
      object inherits from [Object.prototype] are not modelled, and a
      statement that depends on a name being absent says so for names other
      than these ([inheritedNames]).
    - Reading a property of [undefined] throws a [TypeError]; such a throw is
      the result [None].
    - Assigning under the key [__proto__], which sets the prototype of a JS
      object instead of storing a key, is not modelled.
    - The boxes of a problem given to the solver have integer corners; the
      parser keeps what [Number] reads, which may be fractional, and such
      problems are outside the statements about the solver.
    - The iteration counts of the two stages floor the exact product, not
      its double.
    - A text is a sequence of one-byte characters, read as ASCII.
    - [Math.random] is a tape of draws read through a cursor; the tape and
      [Math.exp] are the two fields of the runtime the solver is run in.
    - The callbacks ([statusCallback], [progressCallback]) and the yields to
      the browser only observe the run and are left out. *)

From Stdlib Require Import ZArith QArith Qround Qminmax List String Ascii Bool Lia Lqa.
From Stdlib Require Import DecimalString.
Import ListNotations.
Open Scope Z_scope.

(* ------------------------------------------------------------------ *)
(** ** js/utils.js *)

Inductive Dimension := O_DIM | N_DIM.
Inductive Facing := FaceX | FaceZ.

Definition Dimension_eqb (a b : Dimension) : bool :=
  match a, b with
  | O_DIM, O_DIM | N_DIM, N_DIM => true
  | _, _ => false
  end.

Record Vec3 {A : Type} := vec3 { vx : A; vy : A; vz : A }.
Arguments Vec3 A : clear implicits.
Arguments vec3 {A} _ _ _.

Definition O_SCALE : Q := 1 # 8.
Definition N_SCALE : Q := 8 # 1.
Definition O_SEARCH_RADIUS : Z := 128.
Definition N_SEARCH_RADIUS : Z := 16.
Definition ENTITY_DECIMAL_OFFSET : Vec3 Q := vec3 (1 # 2) 0%Q (1 # 2).

(** A block position read as a point with rational coordinates. *)
Definition toPoint (v : Vec3 Z) : Vec3 Q :=
  vec3 (inject_Z (vx v)) (inject_Z (vy v)) (inject_Z (vz v)).

Definition addVec3 (v1 v2 : Vec3 Q) : Vec3 Q :=
  vec3 (vx v1 + vx v2)%Q (vy v1 + vy v2)%Q (vz v1 + vz v2)%Q.

(** [addVec3] on two block positions. *)
Definition addVec3Z (v1 v2 : Vec3 Z) : Vec3 Z :=
  vec3 (vx v1 + vx v2) (vy v1 + vy v2) (vz v1 + vz v2).

Definition floorVec3 (v : Vec3 Q) : Vec3 Z :=
  vec3 (Qfloor (vx v)) (Qfloor (vy v)) (Qfloor (vz v)).

Definition scaleVec3XZ (v : Vec3 Q) (scale : Q) : Vec3 Q :=
  vec3 (vx v * scale)%Q (vy v) (vz v * scale)%Q.

Definition distSq (p1 p2 : Vec3 Z) : Z :=
  let dx := vx p1 - vx p2 in
  let dy := vy p1 - vy p2 in
  let dz := vz p1 - vz p2 in
  dx * dx + dy * dy + dz * dz.

(** [distSq] on points with rational coordinates (optimization goals). *)
Definition distSqQ (p1 p2 : Vec3 Q) : Q :=
  let dx := (vx p1 - vx p2)%Q in
  let dy := (vy p1 - vy p2)%Q in
  let dz := (vz p1 - vz p2)%Q in
  (dx * dx + dy * dy + dz * dz)%Q.

Definition getCoordScale (destinationDimension : Dimension) : Q :=
  if Dimension_eqb destinationDimension N_DIM then O_SCALE else N_SCALE.

Definition getSearchRadius (dimension : Dimension) : Z :=
  if Dimension_eqb dimension N_DIM then N_SEARCH_RADIUS else O_SEARCH_RADIUS.

Definition convertToOverworld (pos : Vec3 Q) (sourceDimension : Dimension) : Vec3 Q :=
  if Dimension_eqb sourceDimension O_DIM then pos
  else scaleVec3XZ pos N_SCALE.

Definition getEntityTestPositions (portalPosInt : Vec3 Z) (facing : Facing)
    (entityWidth : Q) : list (Vec3 Q) :=
  let center := addVec3 (toPoint portalPosInt) ENTITY_DECIMAL_OFFSET in
  let halfWidth := (entityWidth / 2)%Q in
  match facing with
  | FaceX =>
      [ center;
        vec3 (vx center) (vy center) (vz center + halfWidth)%Q;
        vec3 (vx center) (vy center) (vz center - halfWidth)%Q ]
  | FaceZ =>
      [ center;
        vec3 (vx center + halfWidth)%Q (vy center) (vz center);
        vec3 (vx center - halfWidth)%Q (vy center) (vz center) ]
  end.

(** [Math.floor(Math.random() * (max - min + 1)) + min], for the draw [r]. *)
Definition randomIntOf (r : Q) (min max : Z) : Z :=
  Qfloor (r * inject_Z (max - min + 1)) + min.

(* ------------------------------------------------------------------ *)
(** ** The problem and the state *)

Record Box := mkBox { bmin : Vec3 Z; bmax : Vec3 Z }.

Record Portal := mkPortal {
  name : string;
  dim : Dimension;
  face : Facing;
  inclusive : list Box;
  exclusive : list Box
}.

Record Link := mkLink { source : string; dest : string }.

(** An entry of [optimizationPairs]: [type] is ['portal'] or ['position']. *)
Inductive OptPair :=
| PairPortal (p1 p2 : string) (weight : Q)
| PairPosition (p1 : string) (p2 : Vec3 Q) (weight : Q).

Record Problem := mkProblem {
  entitySize : Q;
  portals : list (string * Portal);
  desiredLinks : list Link;
  optimizationPairs : list OptPair
}.

Definition State := list (string * Vec3 Z).

(** [obj[key]]: [None] is [undefined]. *)
Fixpoint lookup {V : Type} (key : string) (obj : list (string * V)) : option V :=
  match obj with
  | [] => None
  | (k, v) :: rest => if String.eqb k key then Some v else lookup key rest
  end.

(** [obj[key] = v] for a key the object may already have: the value is
    replaced in place, a fresh key goes last. *)
Fixpoint assign {V : Type} (key : string) (v : V) (obj : list (string * V))
    : list (string * V) :=
  match obj with
  | [] => [(key, v)]
  | (k, w) :: rest =>
      if String.eqb k key then (k, v) :: rest else (k, w) :: assign key v rest
  end.

Definition keys {V : Type} (obj : list (string * V)) : list string := map fst obj.

(* ------------------------------------------------------------------ *)
(** ** js/solver.js: constraint checking *)

Definition inBox (pos : Vec3 Z) (b : Box) : bool :=
  (vx (bmin b) <=? vx pos) && (vx pos <=? vx (bmax b)) &&
  (vy (bmin b) <=? vy pos) && (vy pos <=? vy (bmax b)) &&
  (vz (bmin b) <=? vz pos) && (vz pos <=? vz (bmax b)).

Definition satisfiesPositionConstraints (portal : Portal) (pos : Vec3 Z) : bool :=
  if existsb (inBox pos) (inclusive portal)
  then negb (existsb (inBox pos) (exclusive portal))
  else false.

(** The floored, rescaled probe point (lines "Scale position" and "Floor"). *)
Definition targetBlock (coordScale : Q) (entityPos : Vec3 Q) : Vec3 Z :=
  floorVec3 (scaleVec3XZ entityPos coordScale).

(** The loop that fills [potentialTargets]. *)
Fixpoint potentialTargets (p : Problem) (destDim : Dimension) (searchRadius : Z)
    (Bd : Vec3 Z) (currentState : State) : option (list (string * Vec3 Z)) :=
  match currentState with
  | [] => Some []
  | (nm, C) :: rest =>
      match lookup nm (portals p) with
      | None => None
      | Some potentialPortal =>
          match potentialTargets p destDim searchRadius Bd rest with
          | None => None
          | Some more =>
              if negb (Dimension_eqb (dim potentialPortal) destDim) then Some more
              else if (Z.abs (vx C - vx Bd) <=? searchRadius)
                      && (Z.abs (vz C - vz Bd) <=? searchRadius)
                   then Some ((nm, C) :: more)
                   else Some more
          end
      end
  end.

(** The three variables of the closest-portal loop; [None] in the two
    numeric ones is [Infinity], in the name it is [null]. *)
Record Closest := mkClosest {
  closestPortalName : option string;
  minDistanceSq : option Z;
  minY : option Z
}.

Definition ltInf (a : Z) (b : option Z) : bool :=
  match b with None => true | Some b' => a <? b' end.

Definition eqInf (a : Z) (b : option Z) : bool :=
  match b with None => false | Some b' => a =? b' end.

Definition closestStep (Bd : Vec3 Z) (acc : Closest) (target : string * Vec3 Z)
    : Closest :=
  let distSqVal := distSq Bd (snd target) in
  if ltInf distSqVal (minDistanceSq acc) then
    mkClosest (Some (fst target)) (Some distSqVal) (Some (vy (snd target)))
  else if eqInf distSqVal (minDistanceSq acc) then
    if ltInf (vy (snd target)) (minY acc) then
      mkClosest (Some (fst target)) (minDistanceSq acc) (Some (vy (snd target)))
    else acc
  else acc.

Definition findClosest (Bd : Vec3 Z) (targets : list (string * Vec3 Z)) : Closest :=
  fold_left (closestStep Bd) targets (mkClosest None None None).

Definition isExpected (closest : option string) (expected : string) : bool :=
  match closest with
  | Some n => String.eqb n expected
  | None => false
  end.

(** One pass of the loop over [testPositions]; [Some false] is the early
    [return false]. *)
Fixpoint checkProbes (p : Problem) (destDim : Dimension) (coordScale : Q)
    (searchRadius : Z) (expectedDestPortalName : string) (currentState : State)
    (testPositions : list (Vec3 Q)) : option bool :=
  match testPositions with
  | [] => Some true
  | entityPos :: rest =>
      let Bd := targetBlock coordScale entityPos in
      match potentialTargets p destDim searchRadius Bd currentState with
      | None => None
      | Some [] => Some false
      | Some targets =>
          if isExpected (closestPortalName (findClosest Bd targets))
                        expectedDestPortalName
          then checkProbes p destDim coordScale searchRadius
                           expectedDestPortalName currentState rest
          else Some false
      end
  end.

Definition checkActualLink (p : Problem) (sourcePortalName expectedDestPortalName : string)
    (currentState : State) : option bool :=
  match lookup sourcePortalName (portals p),
        lookup sourcePortalName currentState,
        lookup expectedDestPortalName (portals p) with
  | Some sourcePortal, Some sourcePos, Some destPortal =>
      let destDim := dim destPortal in
      let testPositions :=
        getEntityTestPositions sourcePos (face sourcePortal) (entitySize p) in
      checkProbes p destDim (getCoordScale destDim) (getSearchRadius destDim)
                  expectedDestPortalName currentState testPositions
  | _, _, _ => None
  end.

(* ------------------------------------------------------------------ *)
(** ** js/solver.js: cost *)

(** The loop over [desiredLinks] that counts [linkViolations]. *)
Fixpoint countLinkViolations (p : Problem) (state : State) (links : list Link)
    : option Z :=
  match links with
  | [] => Some 0
  | link :: rest =>
      match checkActualLink p (source link) (dest link) state with
      | None => None
      | Some ok =>
          match countLinkViolations p state rest with
          | None => None
          | Some n => Some (if ok then n else n + 1)
          end
      end
  end.

(** The loop over the state that counts [posViolations]. *)
Fixpoint countPosViolations (p : Problem) (entries : State) : option Z :=
  match entries with
  | [] => Some 0
  | (nm, pos) :: rest =>
      match lookup nm (portals p) with
      | None => None
      | Some portal =>
          match countPosViolations p rest with
          | None => None
          | Some n =>
              Some (if satisfiesPositionConstraints portal pos then n else n + 1)
          end
      end
  end.

(** [portalData[name].pos] and [portalData[name].dim] of [currentPortalData],
    already converted by [convertToOverworld]. *)
Definition overworldPosOf (p : Problem) (state : State) (nm : string)
    : option (Vec3 Q) :=
  match lookup nm (portals p), lookup nm state with
  | Some portal, Some pos => Some (convertToOverworld (toPoint pos) (dim portal))
  | _, _ => None
  end.

Definition calculateOptimizationDistanceSq (p : Problem) (state : State)
    (portal1 portal2 : string) : option Q :=
  match overworldPosOf p state portal1, overworldPosOf p state portal2 with
  | Some pos1_O, Some pos2_O => Some (distSqQ pos1_O pos2_O)
  | _, _ => None
  end.

Definition calculateOptimizationDistancePosSq (p : Problem) (state : State)
    (portal1 : string) (targetPosO : Vec3 Q) : option Q :=
  match overworldPosOf p state portal1 with
  | Some pos1_O => Some (distSqQ pos1_O targetPosO)
  | None => None
  end.

Definition pairDistSq (p : Problem) (state : State) (goal : OptPair) : option Q :=
  match goal with
  | PairPortal a b _ => calculateOptimizationDistanceSq p state a b
  | PairPosition a target _ => calculateOptimizationDistancePosSq p state a target
  end.

Definition pairWeight (goal : OptPair) : Q :=
  match goal with
  | PairPortal _ _ w => w
  | PairPosition _ _ w => w
  end.

(** The loop over [optimizationPairs], from the running total [total]. *)
Fixpoint totalWeightedOptimizationDistanceSq (p : Problem) (state : State)
    (optimizationWeightMultiplier : Q) (pairs : list OptPair) (total : Q)
    : option Q :=
  match pairs with
  | [] => Some total
  | goal :: rest =>
      match pairDistSq p state goal with
      | None => None
      | Some d =>
          totalWeightedOptimizationDistanceSq p state optimizationWeightMultiplier
            rest (total + (0 + d) * pairWeight goal * optimizationWeightMultiplier)%Q
      end
  end.

Definition Qlt_bool (a b : Q) : bool := negb (Qle_bool b a).

Definition calculateCost (p : Problem) (state : State)
    (optimizationWeightMultiplier : Q) : option Q :=
  let linkPenaltyFactor : Q :=
    if Qlt_bool 0 optimizationWeightMultiplier then 10000000000 # 1 else 1 # 1 in
  match countLinkViolations p state (desiredLinks p) with
  | None => None
  | Some linkViolations =>
      let cost := (0 + inject_Z linkViolations * linkPenaltyFactor)%Q in
      let posPenalty : Q := 10000000 # 1 in
      match countPosViolations p state with
      | None => None
      | Some posViolations =>
          let cost := (cost + inject_Z posViolations * posPenalty)%Q in
          if Qlt_bool 0 optimizationWeightMultiplier then
            match totalWeightedOptimizationDistanceSq p state
                    optimizationWeightMultiplier (optimizationPairs p) 0 with
            | None => None
            | Some total => Some (cost + total)%Q
            end
          else Some cost
      end
  end.

(* ------------------------------------------------------------------ *)
(** ** js/solver.js: verification *)

Record Result := mkResult {
  solution : option State;
  success : bool;
  message : string;
  violatedLinks : list string;
  violatedPositions : list string
}.

(** The names pushed on [violatedPositions]. *)
Fixpoint collectViolatedPositions (p : Problem) (entries : State)
    : option (list string) :=
  match entries with
  | [] => Some []
  | (nm, pos) :: rest =>
      match lookup nm (portals p) with
      | None => None
      | Some portal =>
          match collectViolatedPositions p rest with
          | None => None
          | Some l =>
              Some (if satisfiesPositionConstraints portal pos then l else nm :: l)
          end
      end
  end.

(** The texts pushed on [violatedLinks]. *)
Fixpoint collectViolatedLinks (p : Problem) (state : State) (links : list Link)
    : option (list string) :=
  match links with
  | [] => Some []
  | link :: rest =>
      match checkActualLink p (source link) (dest link) state with
      | None => None
      | Some ok =>
          match collectViolatedLinks p state rest with
          | None => None
          | Some l =>
              Some (if ok then l
                    else (source link ++ " -> " ++ dest link)%string :: l)
          end
      end
  end.

Definition isEmpty {A : Type} (l : list A) : bool :=
  match l with [] => true | _ => false end.

(** [verifySolution] without the contents of its two display tables
    ([optimizationDistances], [linkDistances]), which only format numbers;
    the lookups those tables make, and so their throws, are kept. *)
Definition verifySolution (p : Problem) (state : State) : option Result :=
  match collectViolatedPositions p state,
        collectViolatedLinks p state (desiredLinks p) with
  | Some vp, Some vl =>
      let ok := isEmpty vp && isEmpty vl in
      let msg :=
        if ok then "Solution found."%string
        else
          ("Constraints violated. Best attempt shown."
           ++ (if isEmpty vp then EmptyString
               else " Portals violating position constraints: "
                    ++ String.concat ", " vp ++ ".")
           ++ (if isEmpty vl then EmptyString
               else " Desired links not satisfied: "
                    ++ String.concat "; " vl ++ "."))%string in
      if forallb (fun goal => match pairDistSq p state goal with
                              | Some _ => true | None => false end)
                 (optimizationPairs p)
      then Some (mkResult (Some state) ok msg vl vp)
      else None
  | _, _ => None
  end.

(* ------------------------------------------------------------------ *)
(** ** The runtime: random draws and thrown errors *)

(** What the solver takes from the JS runtime: the successive results of
    [Math.random()] and the function [Math.exp]. *)
Record Runtime := mkRuntime {
  Math_random : N -> Q;
  Math_exp : Q -> Q
}.

(** A computation reads the tape from a cursor and either throws ([None])
    or returns a value and the advanced cursor. *)
Definition M (A : Type) : Type := N -> option (A * N).

Definition ret {A : Type} (a : A) : M A := fun c => Some (a, c).

Definition bind {A B : Type} (m : M A) (f : A -> M B) : M B :=
  fun c => match m c with
           | None => None
           | Some (a, c') => f a c'
           end.

Definition throw {A : Type} : M A := fun _ => None.

Definition lift {A : Type} (o : option A) : M A :=
  match o with
  | Some a => ret a
  | None => throw
  end.

Declare Scope solver_scope.
Delimit Scope solver_scope with solver.
Notation "x <- m ;; k" := (bind m (fun x => k))
  (at level 61, m at next level, right associativity) : solver_scope.

(** [for (...; i < n; ...) body], where the body answers [true] to [break];
    a [continue] is a body that answers [false] early. *)
Fixpoint forLoop {S : Type} (n : nat) (body : S -> M (S * bool)) (s : S) : M S :=
  match n with
  | O => ret s
  | Datatypes.S n' =>
      bind (body s) (fun r =>
        if snd r then ret (fst r) else forLoop n' body (fst r))
  end.

(** [arr[i]]: [None] is [undefined]. *)
Definition index {A : Type} (arr : list A) (i : Z) : option A :=
  if i <? 0 then None else nth_error arr (Z.to_nat i).

Definition len {A : Type} (l : list A) : Z := Z.of_nat (List.length l).

Record Tunables := mkTunables {
  initialTemperature : Q;
  coolingRate : Q;
  absoluteTemperature : Q;
  maxIterations : Z;
  iterationsPerUpdate : Z;
  stage1MaxAttempts : Z;
  stage1CoolingRate : Q;
  stage1TempMultiplier : Q;
  stage1LargeJumpChance : Q;
  stage1AcceptWorseViolationProb : Q
}.

(** The values the constructor of [PortalSolver] sets. *)
Definition constructorTunables : Tunables := {|
  initialTemperature := 100000 # 1;
  coolingRate := 995 # 1000;
  absoluteTemperature := 1 # 100;
  maxIterations := 100000;
  iterationsPerUpdate := 5000;
  stage1MaxAttempts := 3;
  stage1CoolingRate := 997 # 1000;
  stage1TempMultiplier := 15 # 10;
  stage1LargeJumpChance := 2 # 10;
  stage1AcceptWorseViolationProb := 1 # 10
|}.

Section Solver.
Variable rt : Runtime.
Variable tn : Tunables.
Variable p : Problem.
Local Open Scope solver_scope.

Definition random : M Q := fun c => Some (Math_random rt c, N.succ c).

Definition randomInt (min max : Z) : M Z :=
  r <- random ;; ret (randomIntOf r min max).

Definition portalNames : list string := keys (portals p).

(** A random block of a randomly chosen inclusive box; an [undefined] box
    (index out of range) throws at [incConstraint.min]. *)
Definition randomPosIn (portal : Portal) : M (Vec3 Z) :=
  i <- randomInt 0 (len (inclusive portal) - 1) ;;
  incConstraint <- lift (index (inclusive portal) i) ;;
  px <- randomInt (vx (bmin incConstraint)) (vx (bmax incConstraint)) ;;
  py <- randomInt (vy (bmin incConstraint)) (vy (bmax incConstraint)) ;;
  pz <- randomInt (vz (bmin incConstraint)) (vz (bmax incConstraint)) ;;
  ret (vec3 px py pz).

(** The inner loop of [initializeState]: [None] is [foundPos = false]. *)
Fixpoint findInitialPos (portal : Portal) (attempts : nat) : M (option (Vec3 Z)) :=
  match attempts with
  | O => ret None
  | S attempts' =>
      pos <- randomPosIn portal ;;
      if satisfiesPositionConstraints portal pos then ret (Some pos)
      else findInitialPos portal attempts'
  end.

(** The outer loop of [initializeState] over the remaining names. *)
Fixpoint initializeFrom (names : list string) (initialState : State)
    : M (option State) :=
  match names with
  | [] => ret (Some initialState)
  | nm :: rest =>
      portal <- lift (lookup nm (portals p)) ;;
      found <- findInitialPos portal 100 ;;
      match found with
      | Some pos => initializeFrom rest (assign nm pos initialState)
      | None => ret None
      end
  end.

(** [initializeState]: [Some s] is [true] with [this.currentState = s],
    [None] is [false] with [this.currentState] untouched. *)
Definition initializeState : M (option State) := initializeFrom portalNames [].

(** The large-jump loop of [generateNeighbor]; [None] is falling through to
    the small move. *)
Fixpoint largeJump (portal : option Portal) (portalName : option string)
    (newState : State) (jumpAttempts : nat) : M (option State) :=
  match jumpAttempts with
  | O => ret None
  | S jumpAttempts' =>
      portal' <- lift portal ;;
      if isEmpty (inclusive portal') then ret None
      else
        randomPos <- randomPosIn portal' ;;
        if negb (existsb (inBox randomPos) (exclusive portal')) then
          nm <- lift portalName ;;
          ret (Some (assign nm randomPos newState))
        else largeJump portal portalName newState jumpAttempts'
  end.

Definition isZeroMove (move : Vec3 Z) : bool :=
  (vx move =? 0) && (vy move =? 0) && (vz move =? 0).

(** The small-move loop of [generateNeighbor]; [None] is [return null]. *)
Fixpoint smallMove (portal : option Portal) (portalName : option string)
    (currentPos : option (Vec3 Z)) (newState : State) (attempts : nat)
    : M (option State) :=
  match attempts with
  | O => ret None
  | S attempts' =>
      let moveRange := 3 in
      mx <- randomInt (- moveRange) moveRange ;;
      my <- randomInt (- moveRange) moveRange ;;
      mz <- randomInt (- moveRange) moveRange ;;
      let move := vec3 mx my mz in
      if isZeroMove move
      then smallMove portal portalName currentPos newState attempts'
      else
        cur <- lift currentPos ;;
        let nextPos := addVec3Z cur move in
        portal' <- lift portal ;;
        if negb (existsb (inBox nextPos) (inclusive portal'))
        then smallMove portal portalName currentPos newState attempts'
        else if existsb (inBox nextPos) (exclusive portal')
        then smallMove portal portalName currentPos newState attempts'
        else
          nm <- lift portalName ;;
          ret (Some (assign nm nextPos newState))
  end.

Definition portalOf (portalName : option string) : option Portal :=
  match portalName with
  | Some nm => lookup nm (portals p)
  | None => None
  end.

Definition posOf (state : State) (portalName : option string) : option (Vec3 Z) :=
  match portalName with
  | Some nm => lookup nm state
  | None => None
  end.

(** [generateNeighbor]: [Some None] is the result [null]. *)
Definition generateNeighbor (state : State) (isStage1 : bool) : M (option State) :=
  let newState := state in
  i <- randomInt 0 (len portalNames - 1) ;;
  let portalName := index portalNames i in
  let portal := portalOf portalName in
  let currentPos := posOf newState portalName in
  jump <- (if isStage1
           then r <- random ;; ret (Qlt_bool r (stage1LargeJumpChance tn))
           else ret false) ;;
  jumped <- (if jump then largeJump portal portalName newState 10
             else ret None) ;;
  match jumped with
  | Some s => ret (Some s)
  | None => smallMove portal portalName currentPos newState 50
  end.

(** ** js/solver.js: the two stages *)

(** The template-literal rendering of a number; exact on the integral
    values it is applied to (violation counts and their penalties). *)
Definition showNumber (q : Q) : string :=
  NilZero.string_of_int (Z.to_int (Qfloor q)).

(** Locals of the Stage 1 annealing loop, with the variables of [solve] it
    updates. *)
Record Stage1 := mkStage1 {
  stage1CurrentState : State;
  stage1CurrentCost : Q;
  stage1Temp : Q;
  minViolationsFound : Q;
  bestViolationState : State;
  feasibleState : option State
}.

(** [feasibleFound] is set exactly when [feasibleState] is. *)
Definition feasibleFound (v : Stage1) : bool :=
  match feasibleState v with Some _ => true | None => false end.

(** The Stage 1 acceptance criteria. *)
Definition stage1Accept (deltaCost temp : Q) : M bool :=
  if Qlt_bool deltaCost 0 then ret true
  else if Qeq_bool deltaCost 0 then
    r <- random ;; ret (Qlt_bool r (Math_exp rt (- deltaCost / temp)))
  else
    r <- random ;;
    ret (Qlt_bool r (stage1AcceptWorseViolationProb tn
                     * Math_exp rt (- deltaCost / temp))).

(** One iteration of the Stage 1 annealing loop. *)
Definition stage1Body (v : Stage1) : M (Stage1 * bool) :=
  neighborState <- generateNeighbor (stage1CurrentState v) true ;;
  match neighborState with
  | None => ret (v, false)
  | Some neighborState =>
      neighborCost <- lift (calculateCost p neighborState 0) ;;
      let deltaCost := (neighborCost - stage1CurrentCost v)%Q in
      acceptMove <- stage1Accept deltaCost (stage1Temp v) ;;
      let v1 :=
        if acceptMove then
          if Qlt_bool neighborCost (minViolationsFound v)
          then mkStage1 neighborState neighborCost (stage1Temp v)
                        neighborCost neighborState (feasibleState v)
          else mkStage1 neighborState neighborCost (stage1Temp v)
                        (minViolationsFound v) (bestViolationState v)
                        (feasibleState v)
        else v in
      if acceptMove && Qeq_bool (stage1CurrentCost v1) 0 then
        ret (mkStage1 (stage1CurrentState v1) (stage1CurrentCost v1)
                      (stage1Temp v1) (minViolationsFound v1)
                      (bestViolationState v1) (Some (stage1CurrentState v1)),
             true)
      else
        let temp := (stage1Temp v1 * stage1CoolingRate tn)%Q in
        ret (mkStage1 (stage1CurrentState v1) (stage1CurrentCost v1) temp
                      (minViolationsFound v1) (bestViolationState v1)
                      (feasibleState v1),
             Qlt_bool temp (absoluteTemperature tn))
  end.

Definition stage1Iterations : Z :=
  Qfloor (inject_Z (maxIterations tn) * (7 # 10)).

(** Variables of [solve] that live across the Stage 1 attempts. *)
Record Search := mkSearch {
  currentState : State;
  searchBest : State;
  searchMin : Q;
  searchFeasible : option State
}.

(** The body of the attempt loop, from attempt number [attempt]; the
    answer [true] is [break]. *)
Definition stage1Attempt (attempt : Z) (s : Search) : M (Search * bool) :=
  started <- (if 1 <? attempt then
                init <- initializeState ;;
                match init with
                | None => ret None
                | Some st =>
                    c <- lift (calculateCost p st 0) ;;
                    ret (Some (mkSearch st st c (searchFeasible s)))
                end
              else ret (Some s)) ;;
  match started with
  | None => ret (s, false)
  | Some s =>
      let temp := (initialTemperature tn * stage1TempMultiplier tn)%Q in
      let cur := currentState s in
      cost <- lift (calculateCost p cur 0) ;;
      let v0 :=
        if Qlt_bool cost (searchMin s)
        then mkStage1 cur cost temp cost cur None
        else mkStage1 cur cost temp (searchMin s) (searchBest s) None in
      if Qeq_bool cost 0 then
        ret (mkSearch (currentState s) (bestViolationState v0)
                      (minViolationsFound v0) (Some cur), true)
      else
        v <- forLoop (Z.to_nat stage1Iterations) stage1Body v0 ;;
        if feasibleFound v then
          ret (mkSearch (currentState s) (bestViolationState v)
                        (minViolationsFound v) (feasibleState v), true)
        else if attempt <? stage1MaxAttempts tn then
          currentAttemptMinViolations <-
            lift (calculateCost p (stage1CurrentState v) 0) ;;
          if Qlt_bool currentAttemptMinViolations (minViolationsFound v) then
            ret (mkSearch (currentState s) (stage1CurrentState v)
                          currentAttemptMinViolations None, false)
          else
            ret (mkSearch (currentState s) (bestViolationState v)
                          (minViolationsFound v) None, false)
        else
          ret (mkSearch (currentState s) (bestViolationState v)
                        (minViolationsFound v) None, false)
  end.

(** The attempt loop: [attempt] counts up to [stage1MaxAttempts]. *)
Fixpoint stage1Attempts (remaining : nat) (attempt : Z) (s : Search) : M Search :=
  match remaining with
  | O => ret s
  | S remaining' =>
      r <- stage1Attempt attempt s ;;
      if snd r then ret (fst r)
      else stage1Attempts remaining' (attempt + 1) (fst r)
  end.

(** The outcome when no attempt was feasible. *)
Definition stage1Failure (s : Search) : M Result :=
  result <- lift (verifySolution p (searchBest s)) ;;
  ret (mkResult (solution result) false
         ("Stage 1 Failed: Could not find state satisfying all link constraints (min violations = "
          ++ showNumber (searchMin s) ++ "). Best attempt shown.")%string
         (violatedLinks result) (violatedPositions result)).

(** Variables of the Stage 2 loop: [this.currentState], [currentFullCost],
    [this.minCost], [this.bestState] and [temperature]. *)
Record Stage2 := mkStage2 {
  stage2State : State;
  currentFullCost : Q;
  minCost : Q;
  bestState : State;
  temperature : Q
}.

(** One iteration of the Stage 2 annealing loop. *)
Definition stage2Body (v : Stage2) : M (Stage2 * bool) :=
  neighborState <- generateNeighbor (stage2State v) false ;;
  match neighborState with
  | None => ret (v, false)
  | Some neighborState =>
      neighborViolations <- lift (calculateCost p neighborState 0) ;;
      if Qlt_bool 0 neighborViolations then ret (v, false)
      else
        neighborFullCost <- lift (calculateCost p neighborState 1) ;;
        let deltaCost := (neighborFullCost - currentFullCost v)%Q in
        acceptMove <-
          (if Qlt_bool deltaCost 0 then ret true
           else r <- random ;;
                ret (Qlt_bool r (Math_exp rt (- deltaCost / temperature v)))) ;;
        let v1 :=
          if acceptMove then
            if Qlt_bool neighborFullCost (minCost v)
            then mkStage2 neighborState neighborFullCost neighborFullCost
                          neighborState (temperature v)
            else mkStage2 neighborState neighborFullCost (minCost v)
                          (bestState v) (temperature v)
          else v in
        let temp := (temperature v1 * coolingRate tn)%Q in
        ret (mkStage2 (stage2State v1) (currentFullCost v1) (minCost v1)
                      (bestState v1) temp,
             Qlt_bool temp (absoluteTemperature tn))
  end.

Definition stage2Iterations : Z :=
  let n := maxIterations tn - Qfloor (inject_Z (maxIterations tn) * (7 # 10)) in
  if n <=? iterationsPerUpdate tn
  then Qfloor (inject_Z (maxIterations tn) * (3 # 10))
  else n.

(** "Finalize and Return": verification of [this.bestState] and the final
    sanity check. *)
Definition finalize (best : State) : M Result :=
  finalResult <- lift (verifySolution p best) ;;
  finalViolations <- lift (calculateCost p best 0) ;;
  if Qlt_bool 0 finalViolations then
    ret (mkResult (solution finalResult) false
           ((if String.eqb (message finalResult) EmptyString
             then "Optimization finished." else message finalResult)
            ++ " (Internal Error: Final state has "
            ++ showNumber finalViolations ++ " violations)")%string
           (violatedLinks finalResult) (violatedPositions finalResult))
  else if success finalResult then
    ret (mkResult (solution finalResult) true "Solution found and optimized."
           (violatedLinks finalResult) (violatedPositions finalResult))
  else ret finalResult.

(** Stage 2 from the feasible state handed over by Stage 1. *)
Definition stage2 (feasible : State) : M Result :=
  full <- lift (calculateCost p feasible 1) ;;
  let v0 := mkStage2 feasible full full feasible (initialTemperature tn) in
  v <- forLoop (Z.to_nat stage2Iterations) stage2Body v0 ;;
  finalize (bestState v).

Definition initializationFailed : Result :=
  mkResult None false "Initialization failed (position constraints)." [] [].

Definition solve : M Result :=
  init <- initializeState ;;
  match init with
  | None => ret initializationFailed
  | Some st =>
      minViolations <- lift (calculateCost p st 0) ;;
      s <- stage1Attempts (Z.to_nat (stage1MaxAttempts tn)) 1
             (mkSearch st st minViolations None) ;;
      match searchFeasible s with
      | None => stage1Failure s
      | Some feasible => stage2 feasible
      end
  end.

End Solver.

(* ------------------------------------------------------------------ *)
(** ** js/parser.js *)

Module Parser.

(** Texts are sequences of one-byte characters; whitespace is the ASCII part
    of the JS class [\s], and [toUpperCase] acts on ASCII letters. *)
Definition isSpace (c : ascii) : bool :=
  let n := nat_of_ascii c in
  ((9 <=? n) && (n <=? 13))%nat || (n =? 32)%nat.

Definition newline : ascii := ascii_of_nat 10.

Definition isEmptyString (s : string) : bool :=
  match s with EmptyString => true | _ => false end.

(** [s.split(sep)] for a one-character separator. *)
Fixpoint split (sep : ascii) (s : string) : list string :=
  match s with
  | EmptyString => [EmptyString]
  | String c rest =>
      if Ascii.eqb c sep then EmptyString :: split sep rest
      else match split sep rest with
           | [] => [String c EmptyString]
           | h :: t => String c h :: t
           end
  end.

Fixpoint trimStart (s : string) : string :=
  match s with
  | EmptyString => EmptyString
  | String c rest => if isSpace c then trimStart rest else s
  end.

Fixpoint trimEnd (s : string) : string :=
  match s with
  | EmptyString => EmptyString
  | String c rest =>
      let rest' := trimEnd rest in
      if isSpace c && isEmptyString rest' then EmptyString else String c rest'
  end.

Definition trim (s : string) : string := trimEnd (trimStart s).

Fixpoint wordsFrom (s : string) : string * list string :=
  match s with
  | EmptyString => (EmptyString, [])
  | String c rest =>
      let (w, ws) := wordsFrom rest in
      if isSpace c then (EmptyString, if isEmptyString w then ws else w :: ws)
      else (String c w, ws)
  end.

(** [line.split(/\s+/)] for a trimmed, non-empty line: its maximal runs of
    non-whitespace characters. *)
Definition splitWhitespace (line : string) : list string :=
  let (w, ws) := wordsFrom line in
  if isEmptyString w then ws else w :: ws.

Definition upperAscii (c : ascii) : ascii :=
  let n := nat_of_ascii c in
  if ((97 <=? n) && (n <=? 122))%nat then ascii_of_nat (n - 32) else c.

Fixpoint toUpperCase (s : string) : string :=
  match s with
  | EmptyString => EmptyString
  | String c rest => String (upperAscii c) (toUpperCase rest)
  end.

Definition startsWithHash (s : string) : bool :=
  match s with
  | String c _ => Ascii.eqb c "#"%char
  | EmptyString => false
  end.

Inductive ConstraintType := INC | EXC.

(** A [{ portalName, type, min, max }] object; [Number] results are kept as
    rationals. *)
Record Constraint := mkConstraint {
  portalName : string;
  ctype : ConstraintType;
  cmin : Vec3 Q;
  cmax : Vec3 Q
}.

Record PortalEntry := mkPortalEntry {
  pname : string;
  pdim : Dimension;
  pface : Facing;
  pos : Vec3 Q;
  cinclusive : list Constraint;
  cexclusive : list Constraint;
  outgoing : list string
}.

Record Parsed := mkParsed {
  entitySize : Q;
  portals : list (string * PortalEntry);
  positionConstraints : list Constraint;
  desiredLinks : list Link;
  optimizationPairs : list OptPair
}.

Inductive ParseError :=
| LineError (lineNumber : Z) (line : string) (msg : string)
| ValidationError (msg : string).

Definition setEntitySize (pr : Parsed) (v : Q) : Parsed :=
  mkParsed v (portals pr) (positionConstraints pr) (desiredLinks pr)
           (optimizationPairs pr).

Definition setPortals (pr : Parsed) (ps : list (string * PortalEntry)) : Parsed :=
  mkParsed (entitySize pr) ps (positionConstraints pr) (desiredLinks pr)
           (optimizationPairs pr).

Definition pushConstraint (pr : Parsed) (c : Constraint) : Parsed :=
  mkParsed (entitySize pr) (portals pr) (positionConstraints pr ++ [c])
           (desiredLinks pr) (optimizationPairs pr).

Definition pushLink (pr : Parsed) (l : Link) : Parsed :=
  mkParsed (entitySize pr) (portals pr) (positionConstraints pr)
           (desiredLinks pr ++ [l]) (optimizationPairs pr).

Definition pushPair (pr : Parsed) (o : OptPair) : Parsed :=
  mkParsed (entitySize pr) (portals pr) (positionConstraints pr)
           (desiredLinks pr) (optimizationPairs pr ++ [o]).

(** In-place change of the portal object stored under [nm]. *)
Definition updatePortal (pr : Parsed) (nm : string) (f : PortalEntry -> PortalEntry)
    : Parsed :=
  match lookup nm (portals pr) with
  | Some e => setPortals pr (assign nm (f e) (portals pr))
  | None => pr
  end.

Definition has (names : list string) (nm : string) : bool :=
  existsb (String.eqb nm) names.

Definition dimOfString (s : string) : option Dimension :=
  if String.eqb s "O" then Some O_DIM
  else if String.eqb s "N" then Some N_DIM else None.

Definition faceOfString (s : string) : option Facing :=
  if String.eqb s "X" then Some FaceX
  else if String.eqb s "Z" then Some FaceZ else None.

Definition showDim (d : Dimension) : string :=
  match d with O_DIM => "O" | N_DIM => "N" end.

Definition typeOfString (s : string) : option ConstraintType :=
  if String.eqb s "INC" then Some INC
  else if String.eqb s "EXC" then Some EXC else None.

(** [l.map(Number)] with [coords.some(isNaN)]: [None] when some entry is
    [NaN]. *)
Fixpoint numbers (Number : string -> option Q) (l : list string) : option (list Q) :=
  match l with
  | [] => Some []
  | s :: rest =>
      match Number s, numbers Number rest with
      | Some q, Some qs => Some (q :: qs)
      | _, _ => None
      end
  end.

Section WithBuiltins.
(** [parseFloat] and [Number] of the runtime; [None] is [NaN]. *)
Variable parseFloat : string -> option Q.
Variable Number : string -> option Q.

Definition St : Type := Parsed * list string.

Definition caseEntitySize (parts : list string) (st : St) : string + St :=
  let (problem, portalNames) := st in
  match parts with
  | [_; a] =>
      match parseFloat a with
      | None => inl "Invalid ENTITY_SIZE format"%string
      | Some v =>
          if Qle_bool v 0 then inl "ENTITY_SIZE must be positive"%string
          else inr (setEntitySize problem v, portalNames)
      end
  | _ => inl "Invalid ENTITY_SIZE format"%string
  end.

Definition casePortal (parts : list string) (st : St) : string + St :=
  let (problem, portalNames) := st in
  match parts with
  | [_; nm; d; f] =>
      if has portalNames nm then inl ("Duplicate portal name: " ++ nm)%string
      else match dimOfString d with
      | None => inl ("Invalid dimension '" ++ d ++ "' for portal " ++ nm)%string
      | Some d' =>
          match faceOfString f with
          | None => inl ("Invalid facing '" ++ f ++ "' for portal " ++ nm)%string
          | Some f' =>
              inr (setPortals problem
                     (assign nm (mkPortalEntry nm d' f' (vec3 0 0 0)%Q [] [] [])
                             (portals problem)),
                   portalNames ++ [nm])
          end
      end
  | _ => inl "Invalid PORTAL format"%string
  end.

Definition vecGt (a b : Vec3 Q) : bool :=
  Qlt_bool (vx b) (vx a) || Qlt_bool (vy b) (vy a) || Qlt_bool (vz b) (vz a).

Definition casePos (parts : list string) (st : St) : string + St :=
  let (problem, portalNames) := st in
  match parts with
  | [_; portalNamePos; ty; a; b; c; d; e; f] =>
      let type := toUpperCase ty in
      if negb (has portalNames portalNamePos)
      then inl ("Unknown portal '" ++ portalNamePos ++ "' in POS constraint")%string
      else match typeOfString type with
      | None => inl ("Invalid POS type '" ++ type ++ "'")%string
      | Some type' =>
          match numbers Number [a; b; c; d; e; f] with
          | Some [c0; c1; c2; c3; c4; c5] =>
              let min := vec3 c0 c1 c2 in
              let max := vec3 c3 c4 c5 in
              if vecGt min max then
                inl ("Min coordinates must be <= Max coordinates in POS constraint for "
                     ++ portalNamePos)%string
              else
                let constraint := mkConstraint portalNamePos type' min max in
                let problem := pushConstraint problem constraint in
                inr (updatePortal problem portalNamePos
                       (fun e =>
                          match type' with
                          | INC => mkPortalEntry (pname e) (pdim e) (pface e) (pos e)
                                     (cinclusive e ++ [constraint]) (cexclusive e)
                                     (outgoing e)
                          | EXC => mkPortalEntry (pname e) (pdim e) (pface e) (pos e)
                                     (cinclusive e) (cexclusive e ++ [constraint])
                                     (outgoing e)
                          end),
                     portalNames)
          | _ => inl ("Invalid coordinates in POS constraint for "
                      ++ portalNamePos)%string
          end
      end
  | _ => inl "Invalid POS format"%string
  end.

Definition sameDim (problem : Parsed) (a b : string) : option Dimension :=
  match lookup a (portals problem), lookup b (portals problem) with
  | Some ea, Some eb =>
      if Dimension_eqb (pdim ea) (pdim eb) then Some (pdim ea) else None
  | _, _ => None
  end.

Definition caseLink (parts : list string) (st : St) : string + St :=
  let (problem, portalNames) := st in
  match parts with
  | [_; src; dst] =>
      if negb (has portalNames src)
      then inl ("Unknown source portal '" ++ src ++ "' in LINK")%string
      else if negb (has portalNames dst)
      then inl ("Unknown destination portal '" ++ dst ++ "' in LINK")%string
      else match sameDim problem src dst with
      | Some d =>
          inl ("LINK source '" ++ src ++ "' (" ++ showDim d
               ++ ") and destination '" ++ dst ++ "' (" ++ showDim d
               ++ ") must be in different dimensions")%string
      | None =>
          let problem := pushLink problem (mkLink src dst) in
          inr (updatePortal problem src
                 (fun e => mkPortalEntry (pname e) (pdim e) (pface e) (pos e)
                             (cinclusive e) (cexclusive e) (outgoing e ++ [dst])),
               portalNames)
      end
  | _ => inl "Invalid LINK format"%string
  end.

(** The optional trailing weight: absent it is [1.0]; [None] is the error
    branch ([NaN] or negative). *)
Definition weightOf (w : option string) : option Q :=
  match w with
  | None => Some 1%Q
  | Some s =>
      match parseFloat s with
      | Some v => if Qlt_bool v 0 then None else Some v
      | None => None
      end
  end.

Definition shown (w : option string) : string :=
  match w with Some s => s | None => EmptyString end.

Definition optimizeWith (a b : string) (w : option string) (st : St) : string + St :=
  let (problem, portalNames) := st in
  if negb (has portalNames a)
  then inl ("Unknown portal '" ++ a ++ "' in OPTIMIZE")%string
  else if negb (has portalNames b)
  then inl ("Unknown portal '" ++ b ++ "' in OPTIMIZE")%string
  else match weightOf w with
  | Some weightOpt => inr (pushPair problem (PairPortal a b weightOpt), portalNames)
  | None =>
      inl ("Invalid or negative weight '" ++ shown w ++ "' for OPTIMIZE " ++ a
           ++ " " ++ b)%string
  end.

Definition caseOptimize (parts : list string) (st : St) : string + St :=
  match parts with
  | [_; a; b] => optimizeWith a b None st
  | [_; a; b; w] => optimizeWith a b (Some w) st
  | _ => inl "Invalid OPTIMIZE format"%string
  end.

Definition optimizePosWith (a : string) (coords : list string) (w : option string)
    (st : St) : string + St :=
  let (problem, portalNames) := st in
  if negb (has portalNames a)
  then inl ("Unknown portal '" ++ a ++ "' in OPTIMIZE_POS")%string
  else match numbers Number coords with
  | Some (t0 :: t1 :: t2 :: _) =>
      match weightOf w with
      | Some weightPos =>
          inr (pushPair problem (PairPosition a (vec3 t0 t1 t2) weightPos),
               portalNames)
      | None =>
          inl ("Invalid or negative weight '" ++ shown w ++ "' for OPTIMIZE_POS "
               ++ a)%string
      end
  | _ => inl ("Invalid coordinates in OPTIMIZE_POS for " ++ a)%string
  end.

Definition caseOptimizePos (parts : list string) (st : St) : string + St :=
  match parts with
  | [_; a; x; y; z] => optimizePosWith a [x; y; z] None st
  | [_; a; x; y; z; w] => optimizePosWith a [x; y; z; w] (Some w) st
  | _ => inl "Invalid OPTIMIZE_POS format"%string
  end.

(** The [switch] on the upper-cased first word. *)
Definition dispatch (command : string) (parts : list string) (st : St)
    : string + St :=
  if String.eqb command "ENTITY_SIZE" then caseEntitySize parts st
  else if String.eqb command "PORTAL" then casePortal parts st
  else if String.eqb command "POS" then casePos parts st
  else if String.eqb command "LINK" then caseLink parts st
  else if String.eqb command "OPTIMIZE" then caseOptimize parts st
  else if String.eqb command "OPTIMIZE_POS" then caseOptimizePos parts st
  else inl ("Unknown command: " ++ command)%string.

(** The command of a raw line: [None] for a comment or a blank line. *)
Definition commandOf (rawLine : string) : option string :=
  let line := trim rawLine in
  if startsWithHash line || isEmptyString line then None
  else match splitWhitespace line with
       | first :: _ => Some (toUpperCase first)
       | [] => Some EmptyString
       end.

(** The body of the loop over the lines, at index [i]. *)
Definition parseLine (i : Z) (rawLine : string) (st : St) : ParseError + St :=
  let line := trim rawLine in
  match commandOf rawLine with
  | None => inr st
  | Some command =>
      match dispatch command (splitWhitespace line) st with
      | inl msg => inl (LineError (i + 1) line msg)
      | inr st' => inr st'
      end
  end.

Fixpoint parseLines (i : Z) (lines : list string) (st : St) : ParseError + St :=
  match lines with
  | [] => inr st
  | l :: rest =>
      match parseLine i l st with
      | inl e => inl e
      | inr st' => parseLines (i + 1) rest st'
      end
  end.

(** The final validation loop over the portals. *)
Fixpoint validate (entries : list (string * PortalEntry)) : option string :=
  match entries with
  | [] => None
  | (nm, e) :: rest =>
      if isEmpty (cinclusive e)
      then Some ("Portal " ++ nm
                 ++ " has no inclusive position constraints (POS INC) defined.")%string
      else validate rest
  end.

Definition initialProblem : Parsed := mkParsed 1 [] [] [] [].

Definition parseProblem (inputText : string) : ParseError + Parsed :=
  match parseLines 0 (split newline inputText) (initialProblem, []) with
  | inl e => inl e
  | inr (problem, _) =>
      match validate (portals problem) with
      | Some msg => inl (ValidationError msg)
      | None => inr problem
      end
  end.

End WithBuiltins.

(** *** Vocabulary for the properties of the parser *)

(** Whether a raw line is a directive with the given command, and whether
    some line of the text is. *)
Definition isDirective (command rawLine : string) : bool :=
  match commandOf rawLine with
  | Some c => String.eqb c command
  | None => false
  end.

Definition hasDirective (command : string) (inputText : string) : bool :=
  existsb (isDirective command) (split newline inputText).

(** The two messages of the [ENTITY_SIZE] case. *)
Definition entitySizeMessage (msg : string) : bool :=
  String.eqb msg "Invalid ENTITY_SIZE format"
  || String.eqb msg "ENTITY_SIZE must be positive".

(** What a step that is not an [ENTITY_SIZE] directive may do: fail with
    another message, or go on with the entity size it found. *)
Definition leavesEntitySize (before : St) (r : string + St) : Prop :=
  match r with
  | inl msg => entitySizeMessage msg = false
  | inr after => entitySize (fst after) = entitySize (fst before)
  end.

(** The same for a whole line and for the loop over the lines. *)
Definition lineLeavesEntitySize (before : St) (r : ParseError + St) : Prop :=
  match r with
  | inl (LineError _ _ msg) => entitySizeMessage msg = false
  | inl (ValidationError _) => False
  | inr after => entitySize (fst after) = entitySize (fst before)
  end.

(** A reader of plain integer numerals, used in the examples in place of
    [parseFloat] and [Number]. *)
Definition digitOf (c : ascii) : option Z :=
  let n := nat_of_ascii c in
  if ((48 <=? n) && (n <=? 57))%nat then Some (Z.of_nat (n - 48)) else None.

Fixpoint readDigits (s : string) (acc : Z) : option Z :=
  match s with
  | EmptyString => Some acc
  | String c rest =>
      match digitOf c with
      | Some d => readDigits rest (10 * acc + d)
      | None => None
      end
  end.

Definition readInteger (s : string) : option Q :=
  match s with
  | EmptyString => None
  | String "-" (String c rest) =>
      option_map (fun n => inject_Z (- n)) (readDigits (String c rest) 0)
  | _ => option_map inject_Z (readDigits s 0)
  end.

(** A text without an [ENTITY_SIZE] line. *)
Definition sampleText : string :=
"# two portals, no entity size
PORTAL A O X
PORTAL B N X

POS A INC -128 0 -128 128 128 128
POS B inc -16 0 -16 16 128 16
link A B
LINK B A
OPTIMIZE A B 2
OPTIMIZE_POS A 0 60 0".

End Parser.

(* ================================================================== *)
(** * Vocabulary of the specification and scenarios *)

(** What the loop variables hold after the targets [seen]: a target of
    [seen] that no other beats on distance, nor on height at equal
    distance. *)
Definition bestOf (Bd : Vec3 Z) (seen : list (string * Vec3 Z)) (acc : Closest)
    : Prop :=
  exists n pos,
    In (n, pos) seen /\
    closestPortalName acc = Some n /\
    minDistanceSq acc = Some (distSq Bd pos) /\
    minY acc = Some (vy pos) /\
    forall m q, In (m, q) seen ->
      distSq Bd pos <= distSq Bd q /\
      (distSq Bd q = distSq Bd pos -> vy pos <= vy q).

(** The distance of the specification: the squared Euclidean distance of two
    blocks, over the three axes. *)
Definition squaredEuclidean (a b : Vec3 Z) : Z :=
  (vx a - vx b) ^ 2 + (vy a - vy b) ^ 2 + (vz a - vz b) ^ 2.

(** The tie-break scenario of the specification: four candidates at squared
    distance 25 from the block (0,0,0); the one at [y = -4] is chosen. *)
Definition tieBreakTargets : list (string * Vec3 Z) :=
  [ ("a", vec3 5 0 0); ("b", vec3 0 0 5); ("c", vec3 3 4 0);
    ("d", vec3 3 (-4) 0) ]%string.

(** Two points with equal coordinates (as rationals). *)
Definition pointEq (a b : Vec3 Q) : Prop :=
  (vx a == vx b)%Q /\ (vy a == vy b)%Q /\ (vz a == vz b)%Q.

(** The specification's probe footprint: the spread of half a footprint
    width lies on the axis perpendicular to the facing. *)
Definition perpendicularSpread (facing : Facing) (halfWidth : Q) : Vec3 Q :=
  match facing with
  | FaceX => vec3 0%Q 0%Q halfWidth
  | FaceZ => vec3 halfWidth 0%Q 0%Q
  end.

(** Componentwise difference, and the centre of a block. *)
Definition subVec3 (a b : Vec3 Q) : Vec3 Q :=
  vec3 (vx a - vx b)%Q (vy a - vy b)%Q (vz a - vz b)%Q.

Definition blockCenter (pos : Vec3 Z) : Vec3 Q :=
  vec3 (inject_Z (vx pos) + (1 # 2))%Q (inject_Z (vy pos) + 0)%Q
       (inject_Z (vz pos) + (1 # 2))%Q.

(** A two-portal problem: an overworld and a nether portal linked both
    ways, and a state that places both at (0,60,0). *)
Definition wholeWorld : Box := mkBox (vec3 (-128) 0 (-128)) (vec3 128 128 128).

Definition twoPortals : Problem := {|
  entitySize := 85 # 100;
  portals := [ ("A", mkPortal "A" O_DIM FaceX [wholeWorld] []);
               ("B", mkPortal "B" N_DIM FaceX [wholeWorld] []) ]%string;
  desiredLinks := [ mkLink "A" "B"; mkLink "B" "A" ]%string;
  optimizationPairs := [ PairPortal "A" "B" 1 ]%string
|}.

Definition bothAtOrigin : State :=
  [ ("A", vec3 0 60 0); ("B", vec3 0 60 0) ]%string.

(** The candidates of the specification: the placed portals of the
    destination dimension inside the search square around the target block
    (horizontal axes only). *)
Definition withinSearchSquare (radius : Z) (Bd C : Vec3 Z) : bool :=
  (Z.abs (vx C - vx Bd) <=? radius) && (Z.abs (vz C - vz Bd) <=? radius).

Definition candidateSet (p : Problem) (destDim : Dimension) (Bd : Vec3 Z)
    (st : State) : list (string * Vec3 Z) :=
  filter (fun e =>
            match lookup (fst e) (portals p) with
            | Some q => Dimension_eqb (dim q) destDim
                        && withinSearchSquare (getSearchRadius destDim) Bd (snd e)
            | None => false
            end) st.

(** A probe resolves to [dst]: it has candidates and the selected one is
    [dst]. *)
Definition probeResolves (p : Problem) (destDim : Dimension) (dst : string)
    (st : State) (Bd : Vec3 Z) : Prop :=
  candidateSet p destDim Bd st <> [] /\
  closestPortalName (findClosest Bd (candidateSet p destDim Bd st)) = Some dst.

Definition probeResolvesb (p : Problem) (destDim : Dimension) (dst : string)
    (st : State) (Bd : Vec3 Z) : bool :=
  negb (isEmpty (candidateSet p destDim Bd st))
  && isExpected (closestPortalName (findClosest Bd (candidateSet p destDim Bd st)))
                dst.

(** The three probes of the specification: the centre of the source block
    and the centre moved by plus and minus half the entity width along the
    axis perpendicular to the facing. *)
Definition probesOf (sourcePos : Vec3 Z) (facing : Facing) (width : Q)
    : list (Vec3 Q) :=
  let spread := perpendicularSpread facing (width / 2) in
  [ blockCenter sourcePos;
    addVec3 (blockCenter sourcePos) spread;
    subVec3 (blockCenter sourcePos) spread ].

(** The target block of the specification: the two horizontal coordinates
    of the probe scaled by the factor of the destination dimension (1/8
    into the nether, 8 into the overworld), the vertical one as it is, and
    all three floored. *)
Definition scaleInto (destDim : Dimension) : Q :=
  match destDim with N_DIM => 1 # 8 | O_DIM => 8 # 1 end.

Definition targetBlockOf (destDim : Dimension) (probe : Vec3 Q) : Vec3 Z :=
  vec3 (Qfloor (vx probe * scaleInto destDim)) (Qfloor (vy probe))
       (Qfloor (vz probe * scaleInto destDim)).

(** Every name the state places is a portal of the problem. *)
Definition placedPortals (p : Problem) (st : State) : Prop :=
  Forall (fun e => lookup (fst e) (portals p) <> None) st.

(** The state violates no desired link. *)
Definition noLinkViolations (p : Problem) (st : State) : Prop :=
  countLinkViolations p st (desiredLinks p) = Some 0.

(** The invariant of the Stage 2 loop. *)
Definition stage2Feasible (p : Problem) (v : Stage2) : Prop :=
  noLinkViolations p (stage2State v) /\ noLinkViolations p (bestState v).

(** [Math.exp] as far as the scenarios below use it: the only argument they
    apply it to is 0. *)
Definition expOfZero : Q -> Q := fun _ => 1%Q.

(** A tape given by its first draws; every later draw is 1/2. *)
Definition tapeOf (draws : list Q) : N -> Q :=
  fun i => nth (N.to_nat i) draws (1 # 2).

(** Two linked portals with "A" at x = 132, the largest x at which the link
    from "B" still holds; a goal pulls "A" to (0,60,0). The draws are those
    of one rejected and one accepted Stage 2 neighbour: "A" chosen both
    times, moved by (+3,0,0) and then by (-1,0,0). *)
Definition farApart : Box := mkBox (vec3 (-1000) 0 (-1000)) (vec3 1000 128 1000).

Definition edgePortals : Problem := {|
  entitySize := 85 # 100;
  portals := [ ("A", mkPortal "A" O_DIM FaceX [farApart] []);
               ("B", mkPortal "B" N_DIM FaceX [farApart] []) ]%string;
  desiredLinks := [ mkLink "A" "B"; mkLink "B" "A" ]%string;
  optimizationPairs := [ PairPosition "A" (vec3 0 60 0)%Q 1 ]%string
|}.

Definition atEdge : State :=
  [ ("A", vec3 132 60 0); ("B", vec3 0 60 0) ]%string.

Definition edgeRuntime : Runtime :=
  mkRuntime (tapeOf [0; 9 # 10; 1 # 2; 1 # 2; 0; 3 # 10; 1 # 2; 1 # 2]%Q)
            expOfZero.

Definition edgeStart : Stage2 :=
  mkStage2 atEdge (17424 # 1) (17424 # 1) atEdge (100000 # 1).

(** A run of draws that is 1/2 throughout: no neighbour is ever generated. *)
Definition halfRuntime : Runtime := mkRuntime (fun _ => 1 # 2) expOfZero.

(** The same portals with "A" at x = 135, where the link from "B" is
    violated, and the draws of a Stage 1 iteration that moves "A" on to
    x = 138: one violated link before and after. *)
Definition pastEdge : State :=
  [ ("A", vec3 135 60 0); ("B", vec3 0 60 0) ]%string.

Definition pastEdgeRuntime : Runtime :=
  mkRuntime (tapeOf [0; 1 # 2; 9 # 10; 1 # 2; 1 # 2; 1 # 2]%Q) expOfZero.

Definition pastEdgeStart : Stage1 :=
  mkStage1 pastEdge 1 (150000 # 1) 1 pastEdge None.

(** The draws of a Stage 1 iteration that moves "A" back to x = 132, where
    no link is violated. *)
Definition backInsideRuntime : Runtime :=
  mkRuntime (tapeOf [0; 1 # 2; 0; 1 # 2; 1 # 2; 1 # 2]%Q) expOfZero.

(** The weight-0 cost of the state is computed and is zero. *)
Definition zeroCost (p : Problem) (st : State) : Prop :=
  exists k, calculateCost p st 0 = Some k /\ Qeq_bool k 0 = true.

Definition feasibleIsZero (p : Problem) (o : option State) : Prop :=
  forall f, o = Some f -> zeroCost p f.

(** A box whose minimum corner is below its maximum corner on each axis,
    as the parser requires. *)
Definition wellFormedBox (b : Box) : Prop :=
  vx (bmin b) <= vx (bmax b) /\ vy (bmin b) <= vy (bmax b) /\
  vz (bmin b) <= vz (bmax b).

Definition wellFormedBoxes (p : Problem) : Prop :=
  forall nm portal, lookup nm (portals p) = Some portal ->
                    Forall wellFormedBox (inclusive portal).

(** Draws that choose "A", fire the large jump, choose its only inclusive
    box and draw the block (0,60,0) in it. *)
Definition jumpRuntime : Runtime :=
  mkRuntime (tapeOf [0; 1 # 10; 0; 1 # 2; 15 # 32; 1 # 2]%Q)
            expOfZero.

(** Four portals, two per dimension. With everything at one block the
    first-listed portal of a dimension wins every tie, so both links (to "B"
    and to "A") are violated; raising "C" by one block repairs the link to
    "B". *)
Definition fourPortals : Problem := {|
  entitySize := 85 # 100;
  portals := [ ("D", mkPortal "D" O_DIM FaceX [wholeWorld] []);
               ("A", mkPortal "A" O_DIM FaceX [wholeWorld] []);
               ("C", mkPortal "C" N_DIM FaceX [wholeWorld] []);
               ("B", mkPortal "B" N_DIM FaceX [wholeWorld] []) ]%string;
  desiredLinks := [ mkLink "A" "B"; mkLink "B" "A" ]%string;
  optimizationPairs := []
|}.

(** All draws are 1/2 but the eleventh, which puts "C" at y = 65 in the
    first initialization. *)
Definition forgetfulRuntime : Runtime :=
  mkRuntime (fun i => if (i =? 10)%N then 65 # 128 else 1 # 2) expOfZero.

(** The start of the first attempt, and the start of the later ones. *)
Definition firstStart : State :=
  [ ("D", vec3 0 64 0); ("A", vec3 0 64 0); ("C", vec3 0 65 0);
    ("B", vec3 0 64 0) ]%string.

Definition laterStart : State :=
  [ ("D", vec3 0 64 0); ("A", vec3 0 64 0); ("C", vec3 0 64 0);
    ("B", vec3 0 64 0) ]%string.

(** What the run returns. *)
Definition reportedFailure : Result := {|
  solution := Some laterStart;
  success := false;
  message := "Stage 1 Failed: Could not find state satisfying all link constraints (min violations = 2). Best attempt shown.";
  violatedLinks := ["A -> B"; "B -> A"]%string;
  violatedPositions := []
|}.

(** The result of the final sanity check when it fires. *)
Definition internalError (finalResult : Result) (finalViolations : Q) : Result :=
  mkResult (solution finalResult) false
    (message finalResult ++ " (Internal Error: Final state has "
     ++ showNumber finalViolations ++ " violations)")%string
    (violatedLinks finalResult) (violatedPositions finalResult).

(** The verification report of the state [pastEdge]. *)
Definition pastEdgeReport : Result := {|
  solution := Some pastEdge;
  success := false;
  message := "Constraints violated. Best attempt shown. Desired links not satisfied: B -> A.";
  violatedLinks := ["B -> A"%string];
  violatedPositions := []
|}.

(* ------------------------------------------------------------------ *)
(** ** More of js/utils.js and js/solver.js *)

(** [clamp] of js/utils.js: [Math.max(min, Math.min(value, max))]. *)
Definition clamp (value min max : Q) : Q := Qmax min (Qmin value max).

(** The target block of the centre probe alone, as [calculateAllLinkDistances]
    computes it. *)
Definition centreTargetBlock (destDim : Dimension) (sourcePos : Vec3 Z) : Vec3 Z :=
  let entityPosCenter := addVec3 (toPoint sourcePos) ENTITY_DECIMAL_OFFSET in
  let coordScale := getCoordScale destDim in
  let Pd := scaleVec3XZ entityPosCenter coordScale in
  floorVec3 Pd.

(* ------------------------------------------------------------------ *)
(** ** Vocabulary for the further properties *)

(** The property names that every JS object inherits from
    [Object.prototype]: under such a name a dictionary of the code is never
    [undefined], whatever its own keys. *)
Definition inheritedNames : list string :=
  [ "constructor"; "hasOwnProperty"; "isPrototypeOf"; "propertyIsEnumerable";
    "toLocaleString"; "toString"; "valueOf"; "__proto__";
    "__defineGetter__"; "__defineSetter__"; "__lookupGetter__";
    "__lookupSetter__" ]%string.

Definition inheritedName (nm : string) : bool :=
  existsb (String.eqb nm) inheritedNames.

(** A name of the state that is no portal of the problem. *)
Definition strayName (p : Problem) (e : string * Vec3 Z) : Prop :=
  lookup (fst e) (portals p) = None.

(** The names a link and a goal use are portals of the problem that the
    state places. *)
Definition known (p : Problem) (st : State) (nm : string) : Prop :=
  lookup nm (portals p) <> None /\ lookup nm st <> None.

Definition linkPosed (p : Problem) (st : State) (l : Link) : Prop :=
  known p st (source l) /\ lookup (dest l) (portals p) <> None.

Definition goalPosed (p : Problem) (st : State) (g : OptPair) : Prop :=
  match g with
  | PairPortal a b _ => known p st a /\ known p st b
  | PairPosition a _ _ => known p st a
  end.

Definition wellPosed (p : Problem) (st : State) : Prop :=
  placedPortals p st /\
  Forall (linkPosed p st) (desiredLinks p) /\
  Forall (goalPosed p st) (optimizationPairs p).

(** The sum, over the goals, of squared distance times weight. *)
Fixpoint weightedGoalSum (p : Problem) (st : State) (goals : list OptPair)
    : option Q :=
  match goals with
  | [] => Some 0%Q
  | g :: rest =>
      match pairDistSq p st g, weightedGoalSum p st rest with
      | Some d, Some s => Some (d * pairWeight g + s)%Q
      | _, _ => None
      end
  end.

(** An entry of a state whose name is a portal and whose position satisfies
    that portal's constraints. *)
Definition validEntry (p : Problem) (e : string * Vec3 Z) : Prop :=
  exists portal, lookup (fst e) (portals p) = Some portal /\
                 satisfiesPositionConstraints portal (snd e) = true.

(** The states the solver works on: every portal placed, in the order of
    the problem, at a position that satisfies its constraints. *)
Definition solverState (p : Problem) (st : State) : Prop :=
  Forall (validEntry p) st /\ keys st = portalNames p.

Definition unitDraws (rt : Runtime) : Prop :=
  forall i, (0 <= Math_random rt i)%Q /\ (Math_random rt i < 1)%Q.

(** The tracking of Stage 1 is consistent: the two recorded costs are the
    weight-0 costs of the two recorded states, and the minimum is not above
    the current cost. *)
Definition stage1Tracked (p : Problem) (v : Stage1) : Prop :=
  calculateCost p (bestViolationState v) 0 = Some (minViolationsFound v) /\
  calculateCost p (stage1CurrentState v) 0 = Some (stage1CurrentCost v) /\
  (minViolationsFound v <= stage1CurrentCost v)%Q.

Definition searchTracked (p : Problem) (s : Search) : Prop :=
  calculateCost p (searchBest s) 0 = Some (searchMin s).

(** The same for Stage 2, with the full cost. *)
Definition stage2Tracked (p : Problem) (v : Stage2) : Prop :=
  calculateCost p (bestState v) 1 = Some (minCost v) /\
  calculateCost p (stage2State v) 1 = Some (currentFullCost v) /\
  (minCost v <= currentFullCost v)%Q.

(** The message of a Stage 1 failure that reports [shown] violations. *)
Definition stage1FailureMessage (shown : string) : string :=
  ("Stage 1 Failed: Could not find state satisfying all link constraints (min violations = "
   ++ shown ++ "). Best attempt shown.")%string.

(** The state has a weight-0 cost that is not positive: no violated link
    and no violated position constraint. *)
Definition withoutViolations (p : Problem) (st : State) : Prop :=
  exists k, calculateCost p st 0 = Some k /\ Qlt_bool 0 k = false.

Definition stage2Clean (p : Problem) (v : Stage2) : Prop :=
  withoutViolations p (stage2State v) /\ withoutViolations p (bestState v).

(** Draws that choose "A" and move it by (-1,0,0); every later draw is 1/2,
    with which no further neighbour is generated. *)
Definition nudgeRuntime : Runtime :=
  mkRuntime (fun i => if (i =? 0)%N then 0%Q
                      else if (i =? 1)%N then 3 # 10 else 1 # 2)
            expOfZero.

(** "A" one block closer to its goal than in [atEdge]. *)
Definition nudged : State :=
  [ ("A", vec3 131 60 0); ("B", vec3 0 60 0) ]%string.

(** Where initialization puts the two portals when every draw is 1/2. *)
Definition bothAtCentre : State :=
  [ ("A", vec3 0 64 0); ("B", vec3 0 64 0) ]%string.

Definition optimized (st : State) : Result :=
  mkResult (Some st) true "Solution found and optimized." [] [].

(** A problem whose first portal has no inclusive box. *)
Definition unboxedPortals : Problem := {|
  entitySize := 85 # 100;
  portals := [ ("A", mkPortal "A" O_DIM FaceX [] []);
               ("B", mkPortal "B" N_DIM FaceX [wholeWorld] []) ]%string;
  desiredLinks := [ mkLink "A" "B" ]%string;
  optimizationPairs := []
|}.

(** The computation returns from cursor [c] (it does not throw), with a
    result that satisfies [post]. *)
Definition returns {A : Type} (m : M A) (post : A -> Prop) (c : N) : Prop :=
  exists a c', m c = Some (a, c') /\ post a.

(** A goal names portals of the problem only. *)
Definition goalNamesPortals (p : Problem) (g : OptPair) : Prop :=
  match g with
  | PairPortal a b _ =>
      lookup a (portals p) <> None /\ lookup b (portals p) <> None
  | PairPosition a _ _ => lookup a (portals p) <> None
  end.

(** What the parser guarantees of a problem, as far as the solver relies on
    it, and one thing more: there is a portal. *)
Definition runnable (p : Problem) : Prop :=
  portals p <> [] /\
  NoDup (portalNames p) /\
  (forall nm portal, lookup nm (portals p) = Some portal -> inclusive portal <> []) /\
  Forall (fun l => lookup (source l) (portals p) <> None /\
                   lookup (dest l) (portals p) <> None) (desiredLinks p) /\
  Forall (goalNamesPortals p) (optimizationPairs p).

(** The state places exactly the portals of the problem. *)
Definition placesAll (p : Problem) (st : State) : Prop :=
  keys st = portalNames p.

Definition stage1Places (p : Problem) (v : Stage1) : Prop :=
  placesAll p (stage1CurrentState v) /\ placesAll p (bestViolationState v) /\
  forall f, feasibleState v = Some f -> placesAll p f.

Definition searchPlaces (p : Problem) (s : Search) : Prop :=
  placesAll p (currentState s) /\ placesAll p (searchBest s) /\
  forall f, searchFeasible s = Some f -> placesAll p f.

Definition stage2Places (p : Problem) (v : Stage2) : Prop :=
  placesAll p (stage2State v) /\ placesAll p (bestState v).

(** The first move the small-move loop draws from cursor [c]. *)
Definition firstMove (rt : Runtime) (c : N) : Vec3 Z :=
  let moveRange := 3 in
  vec3 (randomIntOf (Math_random rt c) (- moveRange) moveRange)
       (randomIntOf (Math_random rt (N.succ c)) (- moveRange) moveRange)
       (randomIntOf (Math_random rt (N.succ (N.succ c))) (- moveRange) moveRange).

(** A problem without portals, links and goals: what a text without
    directives describes. *)
Definition noPortals : Problem := {|
  entitySize := 1;
  portals := [];
  desiredLinks := [];
  optimizationPairs := []
|}.

(** Draws that are 0 throughout: every small move is (-3,-3,-3). *)
Definition zeroRuntime : Runtime := mkRuntime (fun _ => 0%Q) expOfZero.

Module ParsedProblems.
Import Parser.

(** The dimension of a declared portal. *)
Definition dimOf (pr : Parsed) (nm : string) : option Dimension :=
  option_map pdim (lookup nm (portals pr)).

Definition declared (pr : Parsed) (nm : string) : Prop := dimOf pr nm <> None.

(** A link joins two declared portals of different dimensions. *)
Definition linkWellFormed (pr : Parsed) (l : Link) : Prop :=
  exists d1 d2,
    dimOf pr (source l) = Some d1 /\ dimOf pr (dest l) = Some d2 /\ d1 <> d2.

(** A box whose corners are in order on each axis. *)
Definition ordered (c : Constraint) : Prop :=
  (vx (cmin c) <= vx (cmax c))%Q /\ (vy (cmin c) <= vy (cmax c))%Q /\
  (vz (cmin c) <= vz (cmax c))%Q.

Definition constraintWellFormed (pr : Parsed) (c : Constraint) : Prop :=
  declared pr (portalName c) /\ ordered c.

Definition goalWellFormed (pr : Parsed) (g : OptPair) : Prop :=
  match g with
  | PairPortal a b w => declared pr a /\ declared pr b /\ (0 <= w)%Q
  | PairPosition a _ w => declared pr a /\ (0 <= w)%Q
  end.

(** A portal object is stored under its name, and the boxes it carries are
    its own, ordered, and sorted by their type. *)
Definition ownBox (nm : string) (ty : ConstraintType) (c : Constraint) : Prop :=
  portalName c = nm /\ ctype c = ty /\ ordered c.

Definition entryWellFormed (e : string * PortalEntry) : Prop :=
  pname (snd e) = fst e /\
  Forall (ownBox (fst e) INC) (cinclusive (snd e)) /\
  Forall (ownBox (fst e) EXC) (cexclusive (snd e)).

Definition wellFormed (pr : Parsed) : Prop :=
  (0 < entitySize pr)%Q /\
  Forall entryWellFormed (portals pr) /\
  Forall (linkWellFormed pr) (desiredLinks pr) /\
  Forall (constraintWellFormed pr) (positionConstraints pr) /\
  Forall (goalWellFormed pr) (optimizationPairs pr).

(** The invariant of the loop over the lines: the set [portalNames] holds
    the declared names, and the problem so far is well formed. *)
Definition consistent (st : St) : Prop :=
  (forall nm, has (snd st) nm = true <-> declared (fst st) nm) /\
  wellFormed (fst st).

(** Every portal has an inclusive box. *)
Definition boxed (pr : Parsed) : Prop :=
  Forall (fun e => cinclusive (snd e) <> []) (portals pr).

(** [later] declares the portals of [earlier], in the same dimensions. *)
Definition extends (earlier later : Parsed) : Prop :=
  forall nm d, dimOf earlier nm = Some d -> dimOf later nm = Some d.

(** A text whose third line links to a portal that is not declared. *)
Definition brokenText : string :=
"PORTAL A O X

  link A B  ".

End ParsedProblems.

(** *** The input format

    The grammar of the problem text, line by line, and what makes a sequence
    of directives valid.  It is worded over the words of a line and the two
    number readers of the runtime, and does not refer to the parser. *)
Module InputFormat.
Import Parser.

(** What a line other than [ENTITY_SIZE] tells. *)
Inductive Directive :=
| DPortal (name : string) (d : Dimension) (f : Facing)
| DPos (name : string) (ty : ConstraintType) (lo hi : Vec3 Q)
| DLink (src dst : string)
| DOptimize (p1 p2 : string) (weight : Q)
| DOptimizePos (p1 : string) (target : Vec3 Q) (weight : Q).

Definition faceWord (f : Facing) : string :=
  match f with FaceX => "X" | FaceZ => "Z" end.

Definition typeWord (t : ConstraintType) : string :=
  match t with INC => "INC" | EXC => "EXC" end.

(** The words of a line: its maximal runs of characters that are not
    whitespace. *)
Definition wordsOf (raw : string) : list string := splitWhitespace (trim raw).

(** A blank line or a comment. *)
Definition ignored (raw : string) : Prop :=
  trim raw = EmptyString \/ exists rest, trim raw = String "#" rest.

(** A text of ASCII characters: on these the one-byte characters of the
    embedding, its whitespace and its [toUpperCase] are those of JS. *)
Definition asciiText (s : string) : bool :=
  forallb (fun c => (nat_of_ascii c <? 128)%nat) (list_ascii_of_string s).

Section WithBuiltins.
Variable parseFloat : string -> option Q.
Variable Number : string -> option Q.

(** The grammar of a directive line.  Commands and the box type are read
    without regard to case; a dimension is written [O] or [N], a facing [X]
    or [Z]; coordinates are read by [Number], a weight by [parseFloat], and
    the weight of [OPTIMIZE_POS] must be a number for [Number] as well.  The
    name [__proto__], which a JS object does not store as a key, is no
    portal name. *)
Inductive reads : string -> Directive -> Prop :=
| reads_portal raw w nm dim face :
    wordsOf raw = [w; nm; showDim dim; faceWord face] ->
    toUpperCase w = "PORTAL"%string ->
    nm <> "__proto__"%string ->
    reads raw (DPortal nm dim face)
| reads_pos raw w nm ty type a b c d e f x0 y0 z0 x1 y1 z1 :
    wordsOf raw = [w; nm; ty; a; b; c; d; e; f] ->
    toUpperCase w = "POS"%string ->
    toUpperCase ty = typeWord type ->
    Number a = Some x0 -> Number b = Some y0 -> Number c = Some z0 ->
    Number d = Some x1 -> Number e = Some y1 -> Number f = Some z1 ->
    reads raw (DPos nm type (vec3 x0 y0 z0) (vec3 x1 y1 z1))
| reads_link raw w src dst :
    wordsOf raw = [w; src; dst] ->
    toUpperCase w = "LINK"%string ->
    reads raw (DLink src dst)
| reads_optimize raw w a b :
    wordsOf raw = [w; a; b] ->
    toUpperCase w = "OPTIMIZE"%string ->
    reads raw (DOptimize a b 1)
| reads_optimize_weighted raw w a b wt v :
    wordsOf raw = [w; a; b; wt] ->
    toUpperCase w = "OPTIMIZE"%string ->
    parseFloat wt = Some v ->
    reads raw (DOptimize a b v)
| reads_optimize_pos raw w a x y z tx ty tz :
    wordsOf raw = [w; a; x; y; z] ->
    toUpperCase w = "OPTIMIZE_POS"%string ->
    Number x = Some tx -> Number y = Some ty -> Number z = Some tz ->
    reads raw (DOptimizePos a (vec3 tx ty tz) 1)
| reads_optimize_pos_weighted raw w a x y z wt tx ty tz u v :
    wordsOf raw = [w; a; x; y; z; wt] ->
    toUpperCase w = "OPTIMIZE_POS"%string ->
    Number x = Some tx -> Number y = Some ty -> Number z = Some tz ->
    Number wt = Some u ->
    parseFloat wt = Some v ->
    reads raw (DOptimizePos a (vec3 tx ty tz) v).

(** The lines of a text read as a sequence of directives: every line is
    ignored or is a directive, in order. *)
Inductive textReads : list string -> list Directive -> Prop :=
| text_end : textReads [] []
| text_ignored raw rest ds :
    ignored raw -> textReads rest ds -> textReads (raw :: rest) ds
| text_directive raw rest d ds :
    reads raw d -> textReads rest ds -> textReads (raw :: rest) (d :: ds).

End WithBuiltins.

(** A name is declared, in a dimension, by the directives so far. *)
Definition declaredIn (before : list Directive) (nm : string) (d : Dimension)
    : Prop :=
  exists f, In (DPortal nm d f) before.

Definition known (before : list Directive) (nm : string) : Prop :=
  exists d, declaredIn before nm d.

(** What the grammar asks of a directive, after the directives before it: a
    portal has a new name; a box is of a declared portal, with its corners in
    order; a link joins declared portals of different dimensions; a goal
    names declared portals and has a weight that is not negative. *)
Definition admissible (before : list Directive) (d : Directive) : Prop :=
  match d with
  | DPortal nm _ _ => ~ known before nm
  | DPos nm _ lo hi =>
      known before nm /\
      (vx lo <= vx hi)%Q /\ (vy lo <= vy hi)%Q /\ (vz lo <= vz hi)%Q
  | DLink src dst =>
      exists d1 d2,
        declaredIn before src d1 /\ declaredIn before dst d2 /\ d1 <> d2
  | DOptimize p1 p2 w => known before p1 /\ known before p2 /\ (0 <= w)%Q
  | DOptimizePos p1 _ w => known before p1 /\ (0 <= w)%Q
  end.

Fixpoint validFrom (before ds : list Directive) : Prop :=
  match ds with
  | [] => True
  | d :: rest => admissible before d /\ validFrom (before ++ [d]) rest
  end.

(** A valid sequence: every directive is admissible where it stands, and
    every portal ends up with an inclusive box. *)
Definition validDirectives (ds : list Directive) : Prop :=
  validFrom [] ds /\
  forall nm, known ds nm -> exists lo hi, In (DPos nm INC lo hi) ds.

(** What a sequence of directives describes: its portals, boxes, links and
    goals, each in the order of the text. *)
Definition portalsOf (ds : list Directive) : list (string * Dimension * Facing) :=
  flat_map (fun d => match d with DPortal nm dim f => [(nm, dim, f)] | _ => [] end) ds.

Definition boxesOf (ds : list Directive) : list Constraint :=
  flat_map (fun d => match d with
                     | DPos nm ty lo hi => [mkConstraint nm ty lo hi]
                     | _ => []
                     end) ds.

Definition linksOf (ds : list Directive) : list Link :=
  flat_map (fun d => match d with DLink a b => [mkLink a b] | _ => [] end) ds.

Definition goalsOf (ds : list Directive) : list OptPair :=
  flat_map (fun d => match d with
                     | DOptimize a b w => [PairPortal a b w]
                     | DOptimizePos a t w => [PairPosition a t w]
                     | _ => []
                     end) ds.

(** The name, dimension and facing of a portal object of the parser. *)
Definition portalSummary (e : string * PortalEntry) : string * Dimension * Facing :=
  (fst e, pdim (snd e), pface (snd e)).

(** The state of the loop over the lines after the directives [before]. *)
Definition tracks (before : list Directive) (st : St) : Prop :=
  (forall nm, has (snd st) nm = true <-> known before nm) /\
  (forall nm d, ParsedProblems.dimOf (fst st) nm = Some d <-> declaredIn before nm d) /\
  NoDup (keys (portals (fst st))) /\
  map portalSummary (portals (fst st)) = portalsOf before /\
  positionConstraints (fst st) = boxesOf before /\
  desiredLinks (fst st) = linksOf before /\
  optimizationPairs (fst st) = goalsOf before /\
  Forall (fun e => (exists lo hi, In (DPos (fst e) INC lo hi) before) ->
                   cinclusive (snd e) <> [])
         (portals (fst st)) /\
  (forall nm lo hi, In (DPos nm INC lo hi) before -> known before nm).

(** The directives of [Parser.sampleText]. *)
Definition sampleDirectives : list Directive :=
  [ DPortal "A" O_DIM FaceX; DPortal "B" N_DIM FaceX;
    DPos "A" INC (vec3 (-128) 0 (-128))%Q (vec3 128 128 128)%Q;
    DPos "B" INC (vec3 (-16) 0 (-16))%Q (vec3 16 128 16)%Q;
    DLink "A" "B"; DLink "B" "A";
    DOptimize "A" "B" 2; DOptimizePos "A" (vec3 0 60 0)%Q 1 ]%string.

End InputFormat.

(* ================================================================== *)
(** * Properties *)

Lemma Dimension_eqb_spec a b : reflect (a = b) (Dimension_eqb a b).
Proof. destruct a, b; constructor; congruence. Qed.

Lemma Qlt_bool_iff a b : Qlt_bool a b = true <-> (a < b)%Q.
Proof.
  unfold Qlt_bool. rewrite negb_true_iff. split; intro H.
  - apply Qnot_le_lt. intro Hle. apply Qle_bool_iff in Hle. congruence.
  - destruct (Qle_bool b a) eqn:E; [|reflexivity].
    apply Qle_bool_iff in E. exfalso. exact (Qlt_not_le _ _ H E).
Qed.

Lemma Qlt_bool_false_iff a b : Qlt_bool a b = false <-> (b <= a)%Q.
Proof.
  unfold Qlt_bool. rewrite negb_false_iff. apply Qle_bool_iff.
Qed.

(* ------------------------------------------------------------------ *)
(** ** The closest-portal loop *)

Section ClosestLoop.
Variable Bd : Vec3 Z.

Lemma closestStep_first t :
  bestOf Bd [t] (closestStep Bd (mkClosest None None None) t).
Proof.
  destruct t as [n pos]. exists n, pos. cbn.
  repeat split; auto; destruct H as [H|[]]; inversion H; subst; lia.
Qed.

(** A target met in [seen ++ [t]] is one of [seen] or [t] itself. *)
Ltac seen_or_new H Hmin :=
  apply in_app_or in H; destruct H as [H|[H|[]]];
  [ destruct (Hmin _ _ H) | inversion H; subst ].

Lemma closestStep_bestOf seen acc t :
  bestOf Bd seen acc -> bestOf Bd (seen ++ [t]) (closestStep Bd acc t).
Proof.
  intros (n & pos & Hin & Hn & Hd & Hy & Hmin).
  destruct t as [m q]. unfold closestStep. cbn [fst snd].
  rewrite Hd, Hy. cbn [ltInf eqInf].
  assert (Hnew : In (m, q) (seen ++ [(m, q)]))
    by (apply in_or_app; right; left; reflexivity).
  assert (Hold : In (n, pos) (seen ++ [(m, q)]))
    by (apply in_or_app; left; exact Hin).
  destruct (Z.ltb_spec (distSq Bd q) (distSq Bd pos)) as [Hlt|Hge].
  - exists m, q. cbn. repeat split; auto; seen_or_new H Hmin; lia.
  - destruct (Z.eqb_spec (distSq Bd q) (distSq Bd pos)) as [Heq|Hne].
    + destruct (Z.ltb_spec (vy q) (vy pos)) as [Hy1|Hy2].
      * exists m, q. cbn. rewrite <- Heq.
        repeat split; auto; seen_or_new H Hmin; lia.
      * exists n, pos. repeat split; auto; seen_or_new H Hmin; lia.
    + exists n, pos. repeat split; auto; seen_or_new H Hmin; lia.
Qed.

Lemma fold_closest_bestOf rest :
  forall seen acc,
    bestOf Bd seen acc ->
    bestOf Bd (seen ++ rest) (fold_left (closestStep Bd) rest acc).
Proof.
  induction rest as [|t rest IH]; intros seen acc H.
  - rewrite app_nil_r. exact H.
  - cbn [fold_left].
    replace (seen ++ t :: rest) with ((seen ++ [t]) ++ rest)
      by (rewrite <- app_assoc; reflexivity).
    apply IH. apply closestStep_bestOf. exact H.
Qed.

End ClosestLoop.

(** The distance the loop compares is the squared Euclidean distance over
    the three axes. *)
Lemma distSq_squaredEuclidean a b : distSq a b = squaredEuclidean a b.
Proof. unfold distSq, squaredEuclidean. cbv zeta. rewrite !Z.pow_2_r. reflexivity. Qed.

(** C3. For a non-empty candidate list the closest-portal loop selects a
    candidate of minimum squared Euclidean distance, (dx)^2 + (dy)^2 +
    (dz)^2 over the three axes, from the target block, and among the
    candidates at that minimum distance one of lowest [y]. The distance
    [distSq] that the loop computes is that distance. *)
Theorem findClosest_min_dist_then_lowest_y
    (Bd : Vec3 Z) (targets : list (string * Vec3 Z)) :
  targets <> [] ->
  (forall q, distSq Bd q = squaredEuclidean Bd q) /\
  exists n pos,
    In (n, pos) targets /\
    closestPortalName (findClosest Bd targets) = Some n /\
    minDistanceSq (findClosest Bd targets) = Some (squaredEuclidean Bd pos) /\
    forall m q, In (m, q) targets ->
      squaredEuclidean Bd pos <= squaredEuclidean Bd q /\
      (squaredEuclidean Bd q = squaredEuclidean Bd pos -> vy pos <= vy q).
Proof.
  intro Hne. split; [intro q; apply distSq_squaredEuclidean|].
  destruct targets as [|t rest]; [congruence|].
  unfold findClosest. cbn [fold_left].
  destruct (fold_closest_bestOf Bd rest [t] _ (closestStep_first Bd t))
    as (n & pos & Hin & Hn & Hd & _ & Hmin).
  exists n, pos. split; [exact Hin|]. split; [exact Hn|].
  split; [rewrite Hd, distSq_squaredEuclidean; reflexivity|].
  intros m q Hq. rewrite <- !distSq_squaredEuclidean. exact (Hmin m q Hq).
Qed.

Lemma findClosest_tie_break_example :
  closestPortalName (findClosest (vec3 0 0 0) tieBreakTargets) = Some "d"%string.
Proof. reflexivity. Qed.

Lemma findClosest_min_dist_then_lowest_y_witness :
  tieBreakTargets <> [] /\
  (forall q, distSq (vec3 0 0 0) q = squaredEuclidean (vec3 0 0 0) q) /\
  exists n pos,
    In (n, pos) tieBreakTargets /\
    closestPortalName (findClosest (vec3 0 0 0) tieBreakTargets) = Some n /\
    minDistanceSq (findClosest (vec3 0 0 0) tieBreakTargets)
    = Some (squaredEuclidean (vec3 0 0 0) pos) /\
    forall m q, In (m, q) tieBreakTargets ->
      squaredEuclidean (vec3 0 0 0) pos <= squaredEuclidean (vec3 0 0 0) q /\
      (squaredEuclidean (vec3 0 0 0) q = squaredEuclidean (vec3 0 0 0) pos ->
       vy pos <= vy q).
Proof.
  split; [discriminate|].
  apply (findClosest_min_dist_then_lowest_y (vec3 0 0 0) tieBreakTargets).
  discriminate.
Defined.

(* ------------------------------------------------------------------ *)
(** ** The probe points and the link predicate *)

Lemma Qfloor_inject_plus_0 (n : Z) : Qfloor (inject_Z n + 0) = n.
Proof.
  assert (E : (inject_Z n + 0 == inject_Z n)%Q) by ring.
  rewrite E. apply Qfloor_Z.
Qed.


Lemma potentialTargets_candidateSet p destDim Bd st :
  placedPortals p st ->
  potentialTargets p destDim (getSearchRadius destDim) Bd st
  = Some (candidateSet p destDim Bd st).
Proof.
  induction st as [|[nm C] rest IH]; intro H; [reflexivity|].
  inversion H as [|? ? Hnm Hrest]; subst. cbn [fst] in Hnm.
  cbn [potentialTargets candidateSet filter fst snd].
  destruct (lookup nm (portals p)) as [q|]; [|congruence].
  rewrite (IH Hrest). unfold withinSearchSquare.
  destruct (Dimension_eqb (dim q) destDim); cbn [negb andb]; [|reflexivity].
  destruct ((Z.abs (vx C - vx Bd) <=? getSearchRadius destDim)
            && (Z.abs (vz C - vz Bd) <=? getSearchRadius destDim));
    reflexivity.
Qed.

Lemma probeResolvesb_spec p destDim dst st Bd :
  probeResolvesb p destDim dst st Bd = true <-> probeResolves p destDim dst st Bd.
Proof.
  unfold probeResolvesb, probeResolves, isExpected.
  rewrite andb_true_iff, negb_true_iff.
  destruct (candidateSet p destDim Bd st) as [|c cs] eqn:E; cbn [isEmpty].
  - split; [intros [H _]; discriminate | intros [H _]; congruence].
  - destruct (closestPortalName (findClosest Bd (c :: cs))) as [n|].
    + rewrite String.eqb_eq. split.
      * intros [_ H]. split; congruence.
      * intros [_ H]. split; congruence.
    + split; [intros [_ H]; discriminate | intros [_ H]; discriminate].
Qed.

Lemma checkProbes_forallb p destDim dst st :
  placedPortals p st ->
  forall tps,
    checkProbes p destDim (getCoordScale destDim) (getSearchRadius destDim) dst st tps
    = Some (forallb (probeResolvesb p destDim dst st)
                    (map (targetBlock (getCoordScale destDim)) tps)).
Proof.
  intros Hpl tps. induction tps as [|P rest IH]; [reflexivity|].
  cbn [checkProbes map forallb].
  rewrite (potentialTargets_candidateSet _ _ _ _ Hpl).
  unfold probeResolvesb at 1.
  destruct (candidateSet p destDim (targetBlock (getCoordScale destDim) P) st)
    as [|c cs]; cbn [isEmpty negb andb]; [reflexivity|].
  destruct (isExpected _ dst); [exact IH | reflexivity].
Qed.

(** The blocks the loop forms from the probes it is given are the target
    blocks of the specification's probes. *)
Lemma targetBlocks_of_probes sourcePos facing width destDim :
  map (targetBlock (getCoordScale destDim))
      (getEntityTestPositions sourcePos facing width)
  = map (targetBlockOf destDim) (probesOf sourcePos facing width).
Proof.
  unfold getEntityTestPositions, probesOf, targetBlock, targetBlockOf, floorVec3,
    scaleVec3XZ, addVec3, subVec3, blockCenter, perpendicularSpread, toPoint,
    ENTITY_DECIMAL_OFFSET.
  destruct facing, destDim; cbn [map vx vy vz getCoordScale Dimension_eqb scaleInto];
    unfold O_SCALE, N_SCALE;
    repeat (f_equal; try (apply Qfloor_comp; ring)).
Qed.

(** C1. A link check walks exactly three probe points built from the source
    position: the block centre (+0.5, +0.0, +0.5) and the centre moved by
    plus and minus half the entity width along the axis perpendicular to the
    source portal's facing. The target block of each probe scales the two
    horizontal coordinates by the factor of the destination dimension (1/8
    into N, 8 into O), leaves the vertical one alone, and floors all three.
    The check is made at these blocks: on a state that places portals only,
    the answer is that every one of the three target blocks resolves to the
    destination. *)
Theorem checkActualLink_three_probes
    (p : Problem) (src dst : string) (st : State)
    (sourcePortal destPortal : Portal) (sourcePos : Vec3 Z) :
  lookup src (portals p) = Some sourcePortal ->
  lookup src st = Some sourcePos ->
  lookup dst (portals p) = Some destPortal ->
  let scale := getCoordScale (dim destPortal) in
  let spread := perpendicularSpread (face sourcePortal) (entitySize p / 2) in
  (exists P1 P2 P3 : Vec3 Q,
    checkActualLink p src dst st
    = checkProbes p (dim destPortal) scale (getSearchRadius (dim destPortal))
                  dst st [P1; P2; P3] /\
    pointEq P1 (blockCenter sourcePos) /\
    pointEq P2 (addVec3 (blockCenter sourcePos) spread) /\
    pointEq P3 (subVec3 (blockCenter sourcePos) spread) /\
    scale = match dim destPortal with N_DIM => 1 # 8 | O_DIM => 8 # 1 end /\
    Forall (fun P => targetBlock scale P
                     = vec3 (Qfloor (vx P * scale)) (vy sourcePos)
                            (Qfloor (vz P * scale)))
           [P1; P2; P3]) /\
  (placedPortals p st ->
   checkActualLink p src dst st
   = Some (forallb (fun probe =>
                      probeResolvesb p (dim destPortal) dst st
                        (targetBlockOf (dim destPortal) probe))
                   [ blockCenter sourcePos;
                     addVec3 (blockCenter sourcePos) spread;
                     subVec3 (blockCenter sourcePos) spread ])).
Proof.
  intros Hs Hp Hd scale spread. split.
  - unfold checkActualLink. rewrite Hs, Hp, Hd.
    subst scale spread.
    destruct (face sourcePortal); cbn [getEntityTestPositions];
      do 3 eexists; (split; [reflexivity|]);
      unfold pointEq, blockCenter, addVec3, subVec3, perpendicularSpread,
        toPoint, ENTITY_DECIMAL_OFFSET; cbn [vx vy vz];
      (repeat split; try ring);
      try (destruct (dim destPortal); reflexivity);
      repeat constructor;
      unfold targetBlock, floorVec3, scaleVec3XZ; cbn [vx vy vz];
      rewrite Qfloor_inject_plus_0; reflexivity.
  - intro Hpl. unfold checkActualLink. rewrite Hs, Hp, Hd.
    rewrite (checkProbes_forallb _ _ _ _ Hpl), targetBlocks_of_probes.
    reflexivity.
Qed.

Lemma checkActualLink_three_probes_witness :
  (exists P1 P2 P3 : Vec3 Q,
    checkActualLink twoPortals "A" "B" bothAtOrigin
    = checkProbes twoPortals N_DIM (getCoordScale N_DIM) (getSearchRadius N_DIM)
                  "B" bothAtOrigin [P1; P2; P3] /\
    pointEq P1 (blockCenter (vec3 0 60 0)) /\
    pointEq P2 (addVec3 (blockCenter (vec3 0 60 0))
                        (perpendicularSpread FaceX ((85 # 100) / 2))) /\
    pointEq P3 (subVec3 (blockCenter (vec3 0 60 0))
                        (perpendicularSpread FaceX ((85 # 100) / 2))) /\
    getCoordScale N_DIM = 1 # 8 /\
    Forall (fun P => targetBlock (getCoordScale N_DIM) P
                     = vec3 (Qfloor (vx P * getCoordScale N_DIM)) 60
                            (Qfloor (vz P * getCoordScale N_DIM)))
           [P1; P2; P3]) /\
  checkActualLink twoPortals "A" "B" bothAtOrigin
  = Some (forallb (fun probe =>
                     probeResolvesb twoPortals N_DIM "B" bothAtOrigin
                       (targetBlockOf N_DIM probe))
                  [ blockCenter (vec3 0 60 0);
                    addVec3 (blockCenter (vec3 0 60 0))
                            (perpendicularSpread FaceX ((85 # 100) / 2));
                    subVec3 (blockCenter (vec3 0 60 0))
                            (perpendicularSpread FaceX ((85 # 100) / 2)) ]).
Proof.
  destruct (checkActualLink_three_probes twoPortals "A" "B" bothAtOrigin
              (mkPortal "A" O_DIM FaceX [wholeWorld] [])
              (mkPortal "B" N_DIM FaceX [wholeWorld] [])
              (vec3 0 60 0) eq_refl eq_refl eq_refl) as [H1 H2].
  split; [exact H1|]. apply H2. repeat constructor; discriminate.
Defined.

(** C2. The link predicate answers, and answers [true] exactly when each of
    the three probes has a non-empty candidate set (portals of the
    destination dimension within the search radius of that dimension on x
    and z, any y) whose selected candidate is the declared destination; a
    probe without candidates makes the answer [false]. *)
Theorem checkActualLink_iff_all_probes_resolve
    (p : Problem) (src dst : string) (st : State)
    (sourcePortal destPortal : Portal) (sourcePos : Vec3 Z) :
  lookup src (portals p) = Some sourcePortal ->
  lookup src st = Some sourcePos ->
  lookup dst (portals p) = Some destPortal ->
  placedPortals p st ->
  let destDim := dim destPortal in
  let blocks :=
    map (targetBlock (getCoordScale destDim))
        (getEntityTestPositions sourcePos (face sourcePortal) (entitySize p)) in
  List.length blocks = 3%nat /\
  (exists b, checkActualLink p src dst st = Some b) /\
  (checkActualLink p src dst st = Some true
   <-> Forall (probeResolves p destDim dst st) blocks) /\
  (Exists (fun Bd => candidateSet p destDim Bd st = []) blocks ->
   checkActualLink p src dst st = Some false) /\
  getSearchRadius destDim = match destDim with N_DIM => 16 | O_DIM => 128 end.
Proof.
  intros Hs Hp Hd Hpl destDim blocks.
  assert (E : checkActualLink p src dst st
              = Some (forallb (probeResolvesb p destDim dst st) blocks)).
  { unfold checkActualLink. rewrite Hs, Hp, Hd.
    apply checkProbes_forallb. exact Hpl. }
  split; [subst blocks; destruct (face sourcePortal); reflexivity|].
  split; [eexists; exact E|].
  split; [|split].
  - rewrite E. split.
    + intro H. injection H as H. rewrite forallb_forall in H.
      apply Forall_forall. intros Bd Hin.
      apply probeResolvesb_spec. auto.
    + intro H. f_equal. apply forallb_forall. intros Bd Hin.
      apply probeResolvesb_spec. rewrite Forall_forall in H. auto.
  - intro H. rewrite E. f_equal.
    apply Exists_exists in H. destruct H as (Bd & Hin & Hempty).
    destruct (forallb _ blocks) eqn:F; [|reflexivity].
    rewrite forallb_forall in F. specialize (F Bd Hin).
    unfold probeResolvesb in F. rewrite Hempty in F. discriminate.
  - destruct destDim; reflexivity.
Qed.

Lemma bothAtOrigin_placed : placedPortals twoPortals bothAtOrigin.
Proof. repeat constructor; discriminate. Qed.

Lemma checkActualLink_iff_all_probes_resolve_witness :
  let blocks :=
    map (targetBlock (getCoordScale N_DIM))
        (getEntityTestPositions (vec3 0 60 0) FaceX (85 # 100)) in
  List.length blocks = 3%nat /\
  (exists b, checkActualLink twoPortals "A" "B" bothAtOrigin = Some b) /\
  (checkActualLink twoPortals "A" "B" bothAtOrigin = Some true
   <-> Forall (probeResolves twoPortals N_DIM "B" bothAtOrigin) blocks) /\
  (Exists (fun Bd => candidateSet twoPortals N_DIM Bd bothAtOrigin = []) blocks ->
   checkActualLink twoPortals "A" "B" bothAtOrigin = Some false) /\
  getSearchRadius N_DIM = 16.
Proof.
  exact (checkActualLink_iff_all_probes_resolve twoPortals "A" "B" bothAtOrigin
           (mkPortal "A" O_DIM FaceX [wholeWorld] [])
           (mkPortal "B" N_DIM FaceX [wholeWorld] [])
           (vec3 0 60 0) eq_refl eq_refl eq_refl bothAtOrigin_placed).
Defined.

(** The end-to-end scenario of the specification: both links hold. *)
Lemma twoPortals_links_hold :
  checkActualLink twoPortals "A" "B" bothAtOrigin = Some true /\
  checkActualLink twoPortals "B" "A" bothAtOrigin = Some true.
Proof. split; vm_compute; reflexivity. Qed.

(* ------------------------------------------------------------------ *)
(** ** The cost at weight 0 *)

Section SameConstraints.
(** Two problems that agree on everything but their optimization goals. *)
Variables p1 p2 : Problem.
Hypothesis same_size : entitySize p1 = entitySize p2.
Hypothesis same_portals : portals p1 = portals p2.
Hypothesis same_links : desiredLinks p1 = desiredLinks p2.

Lemma potentialTargets_same destDim radius Bd st :
  potentialTargets p1 destDim radius Bd st = potentialTargets p2 destDim radius Bd st.
Proof.
  induction st as [|[nm C] rest IH]; [reflexivity|].
  cbn [potentialTargets]. rewrite same_portals, IH. reflexivity.
Qed.

Lemma checkProbes_same destDim scale radius dst st tps :
  checkProbes p1 destDim scale radius dst st tps
  = checkProbes p2 destDim scale radius dst st tps.
Proof.
  induction tps as [|P rest IH]; [reflexivity|].
  cbn [checkProbes]. rewrite potentialTargets_same, IH. reflexivity.
Qed.

Lemma checkActualLink_same src dst st :
  checkActualLink p1 src dst st = checkActualLink p2 src dst st.
Proof.
  unfold checkActualLink. rewrite same_portals, same_size.
  destruct (lookup src (portals p2)), (lookup src st),
    (lookup dst (portals p2)); try reflexivity.
  apply checkProbes_same.
Qed.

Lemma countLinkViolations_same st links :
  countLinkViolations p1 st links = countLinkViolations p2 st links.
Proof.
  induction links as [|l rest IH]; [reflexivity|].
  cbn [countLinkViolations]. rewrite checkActualLink_same, IH. reflexivity.
Qed.

Lemma countPosViolations_same st :
  countPosViolations p1 st = countPosViolations p2 st.
Proof.
  induction st as [|[nm pos] rest IH]; [reflexivity|].
  cbn [countPosViolations]. rewrite same_portals, IH. reflexivity.
Qed.

Lemma calculateCost_0_same st :
  calculateCost p1 st 0 = calculateCost p2 st 0.
Proof.
  unfold calculateCost. cbn [Qlt_bool Qle_bool Qnum Qden Z.leb Z.mul Z.compare negb].
  rewrite same_links, countLinkViolations_same, countPosViolations_same.
  reflexivity.
Qed.

End SameConstraints.

(** C8. The cost at optimization weight 0 does not depend on the
    optimization goals: two problems with the same entity size, portals and
    links, and any two lists of goals (pairs, targets, weights), give every
    state the same weight-0 cost. *)
Theorem calculateCost_weight0_ignores_goals
    (size : Q) (ps : list (string * Portal)) (links : list Link)
    (goals1 goals2 : list OptPair) (st : State) :
  calculateCost (mkProblem size ps links goals1) st 0
  = calculateCost (mkProblem size ps links goals2) st 0.
Proof.
  apply calculateCost_0_same; reflexivity.
Qed.

(** The weight-0 cost is the number of violated links plus ten million per
    misplaced portal. *)
Lemma calculateCost_0_counts p st :
  calculateCost p st 0
  = match countLinkViolations p st (desiredLinks p), countPosViolations p st with
    | Some l, Some v =>
        Some (0 + inject_Z l * (1 # 1) + inject_Z v * (10000000 # 1))%Q
    | _, _ => None
    end.
Proof.
  unfold calculateCost. cbn [Qlt_bool Qle_bool Qnum Qden Z.leb Z.mul Z.compare negb].
  destruct (countLinkViolations p st (desiredLinks p)); [|reflexivity].
  destruct (countPosViolations p st); reflexivity.
Qed.

Lemma countLinkViolations_nonneg p st links n :
  countLinkViolations p st links = Some n -> 0 <= n.
Proof.
  revert n. induction links as [|l rest IH]; cbn [countLinkViolations]; intros n H.
  - injection H as <-. lia.
  - destruct (checkActualLink p (source l) (dest l) st) as [ok|]; [|discriminate].
    destruct (countLinkViolations p st rest) as [m|]; [|discriminate].
    injection H as <-. specialize (IH m eq_refl). destruct ok; lia.
Qed.

Lemma countPosViolations_nonneg p st n :
  countPosViolations p st = Some n -> 0 <= n.
Proof.
  revert n. induction st as [|[nm pos] rest IH]; cbn [countPosViolations]; intros n H.
  - injection H as <-. lia.
  - destruct (lookup nm (portals p)) as [portal|]; [|discriminate].
    destruct (countPosViolations p rest) as [m|]; [|discriminate].
    injection H as <-. specialize (IH m eq_refl).
    destruct (satisfiesPositionConstraints portal pos); lia.
Qed.

(** A weight-0 cost that is not positive means no violated link and no
    misplaced portal. *)
Lemma calculateCost_0_not_positive p st c :
  calculateCost p st 0 = Some c ->
  Qlt_bool 0 c = false ->
  countLinkViolations p st (desiredLinks p) = Some 0 /\
  countPosViolations p st = Some 0.
Proof.
  rewrite calculateCost_0_counts.
  destruct (countLinkViolations p st (desiredLinks p)) as [l|] eqn:El; [|discriminate].
  destruct (countPosViolations p st) as [v|] eqn:Ev; [|discriminate].
  intros H Hc. injection H as <-.
  apply Qlt_bool_false_iff in Hc.
  pose proof (countLinkViolations_nonneg _ _ _ _ El) as Hl.
  pose proof (countPosViolations_nonneg _ _ _ Ev) as Hv.
  unfold Qle, Qplus, Qmult, inject_Z in Hc. cbn [Qnum Qden] in Hc.
  split; f_equal; lia.
Qed.

(** Conversely, a violated link makes the weight-0 cost positive. *)
Lemma calculateCost_0_positive p st c l :
  calculateCost p st 0 = Some c ->
  countLinkViolations p st (desiredLinks p) = Some l ->
  0 < l ->
  Qlt_bool 0 c = true.
Proof.
  rewrite calculateCost_0_counts. intros H El Hl. rewrite El in H.
  destruct (countPosViolations p st) as [v|] eqn:Ev; [|discriminate].
  injection H as <-.
  pose proof (countPosViolations_nonneg _ _ _ Ev) as Hv.
  apply Qlt_bool_iff.
  unfold Qlt, Qplus, Qmult, inject_Z. cbn [Qnum Qden]. lia.
Qed.

(* ------------------------------------------------------------------ *)
(** ** Iterations in which no neighbour is generated *)

Section SkippedIterations.
(** From cursor [from] on every draw is 1/2: each small move is then the
    zero move, and no large jump fires when its chance is at most 1/2. *)
Variable rt : Runtime.
Variable tn : Tunables.
Variable p : Problem.
Variable from : N.
Hypothesis tape_half : forall i, (from <= i)%N -> Math_random rt i = 1 # 2.
Hypothesis jump_rare : Qlt_bool (1 # 2) (stage1LargeJumpChance tn) = false.

Lemma random_half c : (from <= c)%N -> random rt c = Some (1 # 2, N.succ c).
Proof. intro H. unfold random. rewrite (tape_half c H). reflexivity. Qed.

Lemma randomInt_half lo hi c :
  (from <= c)%N ->
  randomInt rt lo hi c = Some (randomIntOf (1 # 2) lo hi, N.succ c).
Proof.
  intro H. unfold randomInt, bind, ret. rewrite (random_half c H). reflexivity.
Qed.

Lemma smallMove_zero_moves portal nm cur st attempts :
  forall c, (from <= c)%N ->
  smallMove rt portal nm cur st attempts c
  = Some (None, (c + 3 * N.of_nat attempts)%N).
Proof.
  induction attempts as [|n IH]; intros c Hc.
  - cbn [smallMove]. unfold ret. f_equal. f_equal. lia.
  - cbn [smallMove]. unfold bind at 1.
    rewrite (randomInt_half _ _ c Hc).
    unfold bind at 1. rewrite (randomInt_half _ _ (N.succ c)) by lia.
    unfold bind at 1. rewrite (randomInt_half _ _ (N.succ (N.succ c))) by lia.
    change (randomIntOf (1 # 2) (- (3)) 3) with 0.
    cbn [isZeroMove vx vy vz Z.eqb andb].
    rewrite IH by lia. f_equal. f_equal. lia.
Qed.

Lemma generateNeighbor_none_cursor st isStage1 c :
  (from <= c)%N ->
  generateNeighbor rt tn p st isStage1 c
  = Some (None, (c + (if isStage1 then 152 else 151))%N).
Proof.
  intro Hc. unfold generateNeighbor.
  unfold bind at 1. rewrite (randomInt_half _ _ c Hc).
  destruct isStage1.
  - unfold bind at 1. unfold bind at 1.
    rewrite (random_half (N.succ c)) by lia.
    unfold ret at 1. rewrite jump_rare.
    unfold bind at 1. unfold ret at 1.
    rewrite smallMove_zero_moves by lia. f_equal. f_equal. lia.
  - unfold bind at 1. unfold ret at 1.
    unfold bind at 1. unfold ret at 1.
    rewrite smallMove_zero_moves by lia. f_equal. f_equal. lia.
Qed.

Lemma stage1Body_skipped v c :
  (from <= c)%N ->
  stage1Body rt tn p v c = Some ((v, false), (c + 152)%N).
Proof.
  intro Hc. unfold stage1Body, bind.
  rewrite generateNeighbor_none_cursor by exact Hc. reflexivity.
Qed.

Lemma stage2Body_skipped v c :
  (from <= c)%N ->
  stage2Body rt tn p v c = Some ((v, false), (c + 151)%N).
Proof.
  intro Hc. unfold stage2Body, bind.
  rewrite generateNeighbor_none_cursor by exact Hc. reflexivity.
Qed.

Lemma stage1_loop_skipped n :
  forall v c, (from <= c)%N ->
  forLoop n (stage1Body rt tn p) v c = Some (v, (c + 152 * N.of_nat n)%N).
Proof.
  induction n as [|n IH]; intros v c Hc.
  - cbn [forLoop]. unfold ret. f_equal. f_equal. lia.
  - cbn [forLoop]. unfold bind. rewrite stage1Body_skipped by exact Hc.
    cbn [fst snd]. rewrite IH by lia. f_equal. f_equal. lia.
Qed.

End SkippedIterations.

Lemma Qlt_bool_irrefl a : Qlt_bool a a = false.
Proof. apply Qlt_bool_false_iff. apply Qle_refl. Qed.

(* ------------------------------------------------------------------ *)
(** ** Stage 2: the feasibility filter *)

Lemma forLoop_invariant {S : Type} (I : S -> Prop) (body : S -> M (S * bool)) :
  (forall s c s' b c', I s -> body s c = Some ((s', b), c') -> I s') ->
  forall n s c s' c', I s -> forLoop n body s c = Some (s', c') -> I s'.
Proof.
  intros Hbody n. induction n as [|n IH]; intros s c s' c' Hs H.
  - cbn in H. unfold ret in H. injection H as <- <-. exact Hs.
  - cbn [forLoop] in H. unfold bind in H.
    destruct (body s c) as [[[s1 b] c1]|] eqn:E; [|discriminate].
    cbn [fst snd] in H. pose proof (Hbody _ _ _ _ _ Hs E) as Hs1.
    destruct b.
    + unfold ret in H. injection H as <- <-. exact Hs1.
    + exact (IH _ _ _ _ Hs1 H).
Qed.

Section Stage2Loop.
Variable rt : Runtime.
Variable tn : Tunables.
Variable p : Problem.

(** What an iteration of Stage 2 does, by the fate of its neighbour: none
    generated, rejected as infeasible, or scored. *)
Lemma stage2Body_cases v c v' b c' :
  stage2Body rt tn p v c = Some ((v', b), c') ->
  match generateNeighbor rt tn p (stage2State v) false c with
  | None => False
  | Some (None, c1) => v' = v /\ b = false /\ c' = c1
  | Some (Some nb, c1) =>
      match calculateCost p nb 0 with
      | None => False
      | Some k =>
          if Qlt_bool 0 k then v' = v /\ b = false /\ c' = c1
          else
            temperature v' = (temperature v * coolingRate tn)%Q /\
            ((stage2State v' = stage2State v /\ bestState v' = bestState v) \/
             (stage2State v' = nb /\
              (bestState v' = bestState v \/ bestState v' = nb)))
      end
  end.
Proof.
  unfold stage2Body. unfold bind at 1.
  destruct (generateNeighbor rt tn p (stage2State v) false c)
    as [[[nb|] c1]|]; [| |discriminate].
  - unfold bind at 1.
    destruct (calculateCost p nb 0) as [k|]; cbn [lift]; [|discriminate].
    unfold ret at 1.
    destruct (Qlt_bool 0 k).
    + unfold ret. intro H. injection H as <- <- <-. auto.
    + unfold bind at 1.
      destruct (calculateCost p nb 1) as [full|]; cbn [lift]; [|discriminate].
      unfold ret at 1. unfold bind at 1.
      destruct (Qlt_bool (full - currentFullCost v) 0).
      * unfold ret at 1.
        destruct (Qlt_bool full (minCost v)); unfold ret; intro H;
          injection H as <- <- <-; cbn; auto.
      * unfold bind at 1. unfold random at 1. unfold ret at 1.
        destruct (Qlt_bool (Math_random rt c1) _);
          [destruct (Qlt_bool full (minCost v))|]; unfold ret; intro H;
          injection H as <- <- <-; cbn; auto.
  - unfold ret. intro H. injection H as <- <- <-. auto.
Qed.

(** An infeasible neighbour is dropped on the spot: the loop variables are
    untouched and the cursor is where neighbour generation left it, so
    nothing was drawn for an acceptance test. *)
Lemma stage2Body_rejects_infeasible v c nb c1 k :
  generateNeighbor rt tn p (stage2State v) false c = Some (Some nb, c1) ->
  calculateCost p nb 0 = Some k ->
  Qlt_bool 0 k = true ->
  stage2Body rt tn p v c = Some ((v, false), c1).
Proof.
  intros Hg Hk Hpos. unfold stage2Body, bind. rewrite Hg, Hk. cbn [lift].
  unfold ret. rewrite Hpos. reflexivity.
Qed.

Lemma stage2Body_keeps_feasible v c v' b c' :
  stage2Feasible p v ->
  stage2Body rt tn p v c = Some ((v', b), c') ->
  stage2Feasible p v'.
Proof.
  intros [Hcur Hbest] H. apply stage2Body_cases in H.
  destruct (generateNeighbor rt tn p (stage2State v) false c)
    as [[[nb|] c1]|]; [| |contradiction].
  - destruct (calculateCost p nb 0) as [k|] eqn:Ek; [|contradiction].
    destruct (Qlt_bool 0 k) eqn:Epos.
    + destruct H as (-> & _). split; assumption.
    + destruct (calculateCost_0_not_positive _ _ _ Ek Epos) as [Hnb _].
      destruct H as (_ & [[E1 E2]|[E1 [E2|E2]]]); unfold stage2Feasible;
        rewrite E1, E2; split; assumption.
  - destruct H as (-> & _). split; assumption.
Qed.

End Stage2Loop.

(** C4. In Stage 2 a neighbour whose weight-0 cost is positive is rejected
    at once: the iteration ends with the loop variables unchanged and
    without any draw after neighbour generation, so neither its full cost
    nor an acceptance probability is computed. Hence, from a start without
    link violations, after any number of iterations both the current
    (accepted) state and the recorded best state have no link violation. *)
Theorem stage2_rejects_infeasible_and_stays_feasible
    (rt : Runtime) (tn : Tunables) (p : Problem)
    (v0 : Stage2) (iterations : nat) (c : N) (v : Stage2) (c' : N) :
  noLinkViolations p (stage2State v0) ->
  noLinkViolations p (bestState v0) ->
  forLoop iterations (stage2Body rt tn p) v0 c = Some (v, c') ->
  noLinkViolations p (stage2State v) /\
  noLinkViolations p (bestState v) /\
  forall c0 nb c1 k violations,
    generateNeighbor rt tn p (stage2State v) false c0 = Some (Some nb, c1) ->
    calculateCost p nb 0 = Some k ->
    countLinkViolations p nb (desiredLinks p) = Some violations ->
    violations <> 0 ->
    stage2Body rt tn p v c0 = Some ((v, false), c1).
Proof.
  intros Hcur Hbest Hloop.
  assert (Hv : stage2Feasible p v).
  { apply (forLoop_invariant (stage2Feasible p) (stage2Body rt tn p)
             (stage2Body_keeps_feasible rt tn p) iterations v0 c v c');
      [split; assumption | exact Hloop]. }
  destruct Hv as [H1 H2]. split; [exact H1|]. split; [exact H2|].
  intros c0 nb c1 k l Hg Hk Hl Hnz.
  apply (stage2Body_rejects_infeasible rt tn p v c0 nb c1 k Hg Hk).
  apply (calculateCost_0_positive p nb k l Hk Hl).
  pose proof (countLinkViolations_nonneg _ _ _ _ Hl). lia.
Qed.

Lemma stage2_rejects_infeasible_and_stays_feasible_witness :
  exists v c',
    forLoop 2 (stage2Body edgeRuntime constructorTunables edgePortals) edgeStart 0%N
    = Some (v, c') /\
    noLinkViolations edgePortals (stage2State v) /\
    noLinkViolations edgePortals (bestState v) /\
    forall c0 nb c1 k violations,
      generateNeighbor edgeRuntime constructorTunables edgePortals
        (stage2State v) false c0 = Some (Some nb, c1) ->
      calculateCost edgePortals nb 0 = Some k ->
      countLinkViolations edgePortals nb (desiredLinks edgePortals)
      = Some violations ->
      violations <> 0 ->
      stage2Body edgeRuntime constructorTunables edgePortals v c0
      = Some ((v, false), c1).
Proof.
  eexists. eexists. split; [vm_compute; reflexivity|].
  eapply (stage2_rejects_infeasible_and_stays_feasible
            edgeRuntime constructorTunables edgePortals edgeStart 2%nat 0%N);
    vm_compute; reflexivity.
Defined.

(** The first of those two iterations proposes "A" at x = 135, which breaks
    the link from "B": it is dropped with four draws used (one for the
    portal, three for the move) and nothing else changed. *)
Lemma stage2_rejection_example :
  generateNeighbor edgeRuntime constructorTunables edgePortals atEdge false 0%N
  = Some (Some [ ("A", vec3 135 60 0); ("B", vec3 0 60 0) ]%string, 4%N) /\
  countLinkViolations edgePortals [ ("A", vec3 135 60 0); ("B", vec3 0 60 0) ]%string
    (desiredLinks edgePortals) = Some 1 /\
  stage2Body edgeRuntime constructorTunables edgePortals edgeStart 0%N
  = Some ((edgeStart, false), 4%N).
Proof. repeat split; vm_compute; reflexivity. Qed.

(* ------------------------------------------------------------------ *)
(** ** Cooling *)

Section Stage1Loop.
Variable rt : Runtime.
Variable tn : Tunables.
Variable p : Problem.

(** What an iteration of Stage 1 does: no neighbour generated, the loop
    left on reaching zero violations, or the neighbour scored and the
    temperature cooled. *)
Lemma stage1Body_cases v c v' b c' :
  stage1Body rt tn p v c = Some ((v', b), c') ->
  match generateNeighbor rt tn p (stage1CurrentState v) true c with
  | None => False
  | Some (None, c1) => v' = v /\ b = false /\ c' = c1
  | Some (Some nb, c1) =>
      match calculateCost p nb 0 with
      | None => False
      | Some k =>
          (b = true /\ Qeq_bool k 0 = true /\ stage1CurrentState v' = nb /\
           feasibleState v' = Some nb /\ stage1Temp v' = stage1Temp v)
          \/
          (stage1Temp v' = (stage1Temp v * stage1CoolingRate tn)%Q /\
           feasibleState v' = feasibleState v /\
           (stage1CurrentState v' = stage1CurrentState v \/
            stage1CurrentState v' = nb))
      end
  end.
Proof.
  unfold stage1Body. unfold bind at 1.
  destruct (generateNeighbor rt tn p (stage1CurrentState v) true c)
    as [[[nb|] c1]|]; [| |discriminate].
  - unfold bind at 1.
    destruct (calculateCost p nb 0) as [k|]; cbn [lift]; [|discriminate].
    unfold ret at 1. unfold bind at 1.
    destruct (stage1Accept rt tn (k - stage1CurrentCost v) (stage1Temp v) c1)
      as [[acc c2]|]; [|discriminate].
    destruct acc; cbn [andb].
    + destruct (Qlt_bool k (minViolationsFound v));
        cbn [stage1CurrentCost stage1CurrentState stage1Temp feasibleState
             minViolationsFound bestViolationState];
        (destruct (Qeq_bool k 0) eqn:Ez; unfold ret; intro H;
         injection H as <- <- <-; cbn; [left|right]; auto).
    + unfold ret. intro H. injection H as <- <- <-. cbn. right. auto.
  - unfold ret. intro H. injection H as <- <- <-. auto.
Qed.

End Stage1Loop.

(** C6, as stated, fails: a Stage 2 iteration in which neighbour generation
    fails leaves the temperature at 100000 instead of 99500, and so does one
    whose neighbour is rejected as infeasible; in Stage 1 a failed
    generation leaves 150000 instead of 149550. *)
Lemma skipped_iterations_do_not_cool :
  (exists v' b c',
     stage2Body halfRuntime constructorTunables edgePortals edgeStart 0%N
     = Some ((v', b), c') /\
     ~ (temperature v'
        == temperature edgeStart * coolingRate constructorTunables)%Q) /\
  (exists v' b c',
     stage2Body edgeRuntime constructorTunables edgePortals edgeStart 0%N
     = Some ((v', b), c') /\
     ~ (temperature v'
        == temperature edgeStart * coolingRate constructorTunables)%Q) /\
  (exists v' b c',
     stage1Body halfRuntime constructorTunables edgePortals pastEdgeStart 0%N
     = Some ((v', b), c') /\
     ~ (stage1Temp v'
        == stage1Temp pastEdgeStart * stage1CoolingRate constructorTunables)%Q).
Proof.
  split; [|split].
  - exists edgeStart, false, 151%N. split.
    + apply (stage2Body_skipped halfRuntime constructorTunables edgePortals 0%N);
        [reflexivity | reflexivity | lia].
    + vm_compute. discriminate.
  - exists edgeStart, false, 4%N. split.
    + vm_compute. reflexivity.
    + vm_compute. discriminate.
  - exists pastEdgeStart, false, 152%N. split.
    + apply (stage1Body_skipped halfRuntime constructorTunables edgePortals 0%N);
        [reflexivity | reflexivity | lia].
    + vm_compute. discriminate.
Qed.

(** An improving neighbour is accepted without a draw. *)
Lemma stage1Accept_improvement rt tn deltaCost temp c :
  Qlt_bool deltaCost 0 = true ->
  stage1Accept rt tn deltaCost temp c = Some (true, c).
Proof. intro H. unfold stage1Accept. rewrite H. reflexivity. Qed.

(** C6, amended. In both annealing loops an iteration whose neighbour is
    generated and scored multiplies the temperature by the cooling factor,
    whether the neighbour is then accepted or not. An iteration whose
    neighbour generation fails, or (Stage 2) whose neighbour is rejected as
    infeasible, leaves the temperature as it is; the Stage 1 iteration that
    reaches zero violations, that is, accepts a neighbour of cost zero,
    leaves the loop without cooling, and no other scored iteration of
    Stage 1 does. A neighbour of cost zero is accepted whenever the current
    cost is positive, as it is inside the loop. *)
Theorem temperature_cools_when_neighbour_is_scored
    (rt : Runtime) (tn : Tunables) (p : Problem) :
  (forall v c v' b c',
     stage1Body rt tn p v c = Some ((v', b), c') ->
     match generateNeighbor rt tn p (stage1CurrentState v) true c with
     | Some (Some nb, c1) =>
         match calculateCost p nb 0 with
         | Some k =>
             match stage1Accept rt tn (k - stage1CurrentCost v) (stage1Temp v) c1 with
             | Some (accepted, _) =>
                 (if accepted && Qeq_bool k 0
                  then b = true /\ stage1CurrentState v' = nb /\
                       feasibleState v' = Some nb /\
                       stage1Temp v' = stage1Temp v
                  else stage1Temp v' = (stage1Temp v * stage1CoolingRate tn)%Q /\
                       feasibleState v' = feasibleState v /\
                       b = Qlt_bool (stage1Temp v * stage1CoolingRate tn)
                                    (absoluteTemperature tn)) /\
                 (Qeq_bool k 0 = true ->
                  Qlt_bool 0 (stage1CurrentCost v) = true -> accepted = true) /\
                 (stage1Temp v' = (stage1Temp v * stage1CoolingRate tn)%Q \/
                  (b = true /\ feasibleState v' = Some nb /\
                   stage1Temp v' = stage1Temp v))
             | None => False
             end
         | None => False
         end
     | _ => stage1Temp v' = stage1Temp v
     end) /\
  (forall v c v' b c',
     stage2Body rt tn p v c = Some ((v', b), c') ->
     match generateNeighbor rt tn p (stage2State v) false c with
     | Some (Some nb, _) =>
         match calculateCost p nb 0 with
         | Some k =>
             if Qlt_bool 0 k then temperature v' = temperature v
             else temperature v' = (temperature v * coolingRate tn)%Q
         | None => False
         end
     | _ => temperature v' = temperature v
     end).
Proof.
  split; intros v c v' b c' H.
  - revert H. unfold stage1Body. unfold bind at 1.
    destruct (generateNeighbor rt tn p (stage1CurrentState v) true c)
      as [[[nb|] c1]|]; [| |discriminate].
    + unfold bind at 1.
      destruct (calculateCost p nb 0) as [k|]; cbn [lift]; [|discriminate].
      unfold ret at 1. unfold bind at 1.
      destruct (stage1Accept rt tn (k - stage1CurrentCost v) (stage1Temp v) c1)
        as [[acc c2]|] eqn:Eacc; [|discriminate].
      assert (Hzero : Qeq_bool k 0 = true ->
                      Qlt_bool 0 (stage1CurrentCost v) = true -> acc = true).
      { intros Hk Hcur. apply Qeq_bool_iff in Hk. apply Qlt_bool_iff in Hcur.
        assert (Hd : Qlt_bool (k - stage1CurrentCost v) 0 = true).
        { apply Qlt_bool_iff. rewrite Hk.
          apply Qlt_minus_iff. ring_simplify. exact Hcur. }
        rewrite (stage1Accept_improvement rt tn _ _ c1 Hd) in Eacc.
        injection Eacc as <- _. reflexivity. }
      destruct acc; cbn [andb].
      * destruct (Qlt_bool k (minViolationsFound v));
          cbn [stage1CurrentCost stage1CurrentState stage1Temp feasibleState
               minViolationsFound bestViolationState];
          (destruct (Qeq_bool k 0) eqn:Ez; unfold ret; intro H;
           injection H as <- <- <-;
           cbn [stage1CurrentState feasibleState stage1Temp];
           (split; [repeat split; reflexivity|]);
           (split; [intros; reflexivity|]);
           [right; repeat split; reflexivity | left; reflexivity]).
      * unfold ret. intro H. injection H as <- <- <-.
        cbn [stage1CurrentState feasibleState stage1Temp].
        split; [repeat split; reflexivity|]. split; [exact Hzero|].
        left. reflexivity.
    + unfold ret. intro H. injection H as <- <- <-. reflexivity.
  - apply stage2Body_cases in H.
    destruct (generateNeighbor rt tn p (stage2State v) false c)
      as [[[nb|] c1]|]; [| |contradiction].
    + destruct (calculateCost p nb 0) as [k|]; [|contradiction].
      destruct (Qlt_bool 0 k).
      * destruct H as (-> & _). reflexivity.
      * destruct H as (Ht & _). exact Ht.
    + destruct H as (-> & _). reflexivity.
Qed.

Lemma temperature_cools_when_neighbour_is_scored_witness :
  (exists v' b c',
     stage1Body pastEdgeRuntime constructorTunables edgePortals pastEdgeStart 0%N
     = Some ((v', b), c') /\
     stage1Temp v'
     = (stage1Temp pastEdgeStart * stage1CoolingRate constructorTunables)%Q) /\
  (exists v' b c',
     stage1Body backInsideRuntime constructorTunables edgePortals pastEdgeStart 0%N
     = Some ((v', b), c') /\
     b = true /\ feasibleState v' = Some atEdge /\
     stage1Temp v' = stage1Temp pastEdgeStart) /\
  (exists v' b c',
     stage2Body edgeRuntime constructorTunables edgePortals edgeStart 4%N
     = Some ((v', b), c') /\
     temperature v'
     = (temperature edgeStart * coolingRate constructorTunables)%Q).
Proof.
  split; [|split].
  - do 3 eexists. split; [vm_compute; reflexivity|].
    pose proof (proj1 (temperature_cools_when_neighbour_is_scored
                         pastEdgeRuntime constructorTunables edgePortals)
                  pastEdgeStart 0%N _ _ _ eq_refl) as H.
    vm_compute in H. destruct H as [[H _] _]. exact H.
  - do 3 eexists. split; [vm_compute; reflexivity|].
    pose proof (proj1 (temperature_cools_when_neighbour_is_scored
                         backInsideRuntime constructorTunables edgePortals)
                  pastEdgeStart 0%N _ _ _ eq_refl) as H.
    vm_compute in H. destruct H as [(Hb & _ & Hf & Ht) _].
    split; [exact Hb | split; [exact Hf | exact Ht]].
  - do 3 eexists. split; [vm_compute; reflexivity|].
    pose proof (proj2 (temperature_cools_when_neighbour_is_scored
                         edgeRuntime constructorTunables edgePortals)
                  edgeStart 4%N _ _ _ eq_refl) as H.
    vm_compute in H. exact H.
Defined.

(* ------------------------------------------------------------------ *)
(** ** From Stage 1 to Stage 2 *)

Lemma zeroCost_noLinkViolations p st : zeroCost p st -> noLinkViolations p st.
Proof.
  intros (k & Hk & Hz).
  assert (Hn : Qlt_bool 0 k = false).
  { apply Qlt_bool_false_iff. apply Qeq_bool_iff in Hz. rewrite Hz. apply Qle_refl. }
  exact (proj1 (calculateCost_0_not_positive p st k Hk Hn)).
Qed.

Section Handover.
Variable rt : Runtime.
Variable tn : Tunables.
Variable p : Problem.

Lemma stage1Body_feasible v c v' b c' :
  feasibleIsZero p (feasibleState v) ->
  stage1Body rt tn p v c = Some ((v', b), c') ->
  feasibleIsZero p (feasibleState v').
Proof.
  intros Hv H. apply stage1Body_cases in H.
  destruct (generateNeighbor rt tn p (stage1CurrentState v) true c)
    as [[[nb|] c1]|]; [| |contradiction].
  - destruct (calculateCost p nb 0) as [k|] eqn:Ek; [|contradiction].
    destruct H as [(_ & Hz & _ & Hf & _)|(_ & Hf & _)]; rewrite Hf.
    + intros f E. injection E as <-. exists k. auto.
    + exact Hv.
  - destruct H as (-> & _). exact Hv.
Qed.

Lemma feasibleIsZero_None : feasibleIsZero p None.
Proof. intros f E. discriminate. Qed.

Lemma stage1Attempt_feasible attempt s c s' b c' :
  feasibleIsZero p (searchFeasible s) ->
  stage1Attempt rt tn p attempt s c = Some ((s', b), c') ->
  feasibleIsZero p (searchFeasible s').
Proof.
  intros Hs H. unfold stage1Attempt in H. unfold bind at 1 in H.
  destruct (_ c) as [[started c1]|] in H; [|discriminate].
  destruct started as [s1|].
  - unfold bind at 1 in H.
    destruct (calculateCost p (currentState s1) 0) as [cost|] eqn:Ecost;
      cbn [lift] in H; [|discriminate].
    unfold ret at 1 in H.
    destruct (Qeq_bool cost 0) eqn:Ez.
    + unfold ret in H. injection H as <- <- <-. cbn [searchFeasible].
      intros f E. injection E as <-. exists cost. auto.
    + unfold bind at 1 in H.
      match type of H with
      | match forLoop ?n ?body ?v0 ?c0 with _ => _ end = _ =>
          destruct (forLoop n body v0 c0) as [[v c2]|] eqn:Eloop; [|discriminate];
          assert (Hv : feasibleIsZero p (feasibleState v))
            by (apply (forLoop_invariant
                         (fun w => feasibleIsZero p (feasibleState w)) body
                         stage1Body_feasible n v0 c0 v c2);
                [destruct (Qlt_bool cost (searchMin s1)); exact feasibleIsZero_None
                | exact Eloop])
      end.
      destruct (feasibleFound v).
      * unfold ret in H. injection H as <- <- <-. exact Hv.
      * destruct (attempt <? stage1MaxAttempts tn).
        -- unfold bind in H.
           destruct (calculateCost p (stage1CurrentState v) 0) as [q|];
             cbn [lift] in H; [|discriminate].
           unfold ret at 1 in H.
           destruct (Qlt_bool q (minViolationsFound v)); unfold ret in H;
             injection H as <- <- <-; exact feasibleIsZero_None.
        -- unfold ret in H. injection H as <- <- <-. exact feasibleIsZero_None.
  - unfold ret in H. injection H as <- <- <-. exact Hs.
Qed.

Lemma stage1Attempts_feasible n :
  forall attempt s c s' c',
    feasibleIsZero p (searchFeasible s) ->
    stage1Attempts rt tn p n attempt s c = Some (s', c') ->
    feasibleIsZero p (searchFeasible s').
Proof.
  induction n as [|n IH]; intros attempt s c s' c' Hs H.
  - cbn in H. unfold ret in H. injection H as <- <-. exact Hs.
  - cbn [stage1Attempts] in H. unfold bind in H.
    destruct (stage1Attempt rt tn p attempt s c) as [[[s1 b] c1]|] eqn:E;
      [|discriminate].
    cbn [fst snd] in H. pose proof (stage1Attempt_feasible _ _ _ _ _ _ Hs E) as H1.
    destruct b.
    + unfold ret in H. injection H as <- <-. exact H1.
    + exact (IH _ _ _ _ _ H1 H).
Qed.

(** The three ways [solve] ends. After Stage 2 the state handed to
    [finalize] is the recorded best state of a loop that started from a
    state without link violations, so it has none either. *)
Lemma solve_outcomes c r c' :
  solve rt tn p c = Some (r, c') ->
  r = initializationFailed \/
  (exists s c1, stage1Failure p s c1 = Some (r, c')) \/
  (exists v c1, finalize p (bestState v) c1 = Some (r, c') /\
                noLinkViolations p (bestState v)).
Proof.
  intro H. unfold solve in H. unfold bind at 1 in H.
  destruct (initializeState rt p c) as [[[st|] c0]|]; [| |discriminate].
  - unfold bind at 1 in H.
    destruct (calculateCost p st 0) as [m|]; cbn [lift] in H; [|discriminate].
    unfold ret at 1 in H. unfold bind at 1 in H.
    destruct (stage1Attempts rt tn p _ 1 _ c0) as [[s c1]|] eqn:E1; [|discriminate].
    pose proof (stage1Attempts_feasible _ _ (mkSearch st st m None) _ _ _
                  feasibleIsZero_None E1) as Hf.
    destruct (searchFeasible s) as [feasible|].
    + right. right.
      specialize (Hf feasible eq_refl). apply zeroCost_noLinkViolations in Hf.
      unfold stage2 in H. unfold bind at 1 in H.
      destruct (calculateCost p feasible 1) as [full|]; cbn [lift] in H;
        [|discriminate].
      unfold ret at 1 in H. unfold bind at 1 in H.
      destruct (forLoop _ _ _ c1) as [[v c2]|] eqn:E2; [|discriminate].
      exists v, c2. split; [exact H|].
      assert (Hv : stage2Feasible p v).
      { eapply (forLoop_invariant (stage2Feasible p) (stage2Body rt tn p)
                  (stage2Body_keeps_feasible rt tn p)); [|exact E2].
        split; exact Hf. }
      exact (proj2 Hv).
    + right. left. exists s, c1. exact H.
  - left. unfold ret in H. injection H as <- _. reflexivity.
Qed.
End Handover.

(* ------------------------------------------------------------------ *)
(** ** Neighbour generation *)

(** [obj[key] = v] changes the value under [key] and no other. *)
Lemma lookup_assign_same {V : Type} key (v : V) obj :
  lookup key (assign key v obj) = Some v.
Proof.
  induction obj as [|[k w] rest IH]; cbn.
  - rewrite String.eqb_refl. reflexivity.
  - destruct (String.eqb k key) eqn:E; cbn; rewrite E; [reflexivity | exact IH].
Qed.

Lemma lookup_assign_other {V : Type} key other (v : V) obj :
  other <> key -> lookup other (assign key v obj) = lookup other obj.
Proof.
  intro Hne. induction obj as [|[k w] rest IH]; cbn.
  - destruct (String.eqb_spec key other); [congruence | reflexivity].
  - destruct (String.eqb_spec k key) as [->|Hk]; cbn.
    + destruct (String.eqb_spec key other); [congruence | reflexivity].
    + destruct (String.eqb k other); [reflexivity | exact IH].
Qed.

(** [randomInt(lo, hi)] lies in [lo, hi] for a draw in [0, 1). *)
Lemma randomIntOf_range r lo hi :
  (0 <= r)%Q -> (r < 1)%Q -> lo <= hi ->
  lo <= randomIntOf r lo hi <= hi.
Proof.
  intros H0 H1 Hle. unfold randomIntOf.
  destruct r as [a b]. unfold Qle in H0. unfold Qlt in H1. cbn in H0, H1.
  unfold Qfloor, Qmult, inject_Z. cbn [Qnum Qden].
  rewrite Pos.mul_1_r.
  assert (0 <= a * (hi - lo + 1) / Z.pos b) by (apply Z.div_pos; nia).
  assert (a * (hi - lo + 1) / Z.pos b < hi - lo + 1)
    by (apply Z.div_lt_upper_bound; nia).
  lia.
Qed.

Section Neighbours.
(** Draws are in [0, 1), as [Math.random] promises. *)
Variable rt : Runtime.
Variable tn : Tunables.
Variable p : Problem.
Hypothesis draws_in_unit_interval :
  forall i, (0 <= Math_random rt i)%Q /\ (Math_random rt i < 1)%Q.

Lemma randomInt_range lo hi c z c' :
  lo <= hi -> randomInt rt lo hi c = Some (z, c') -> lo <= z <= hi.
Proof.
  intros Hle H. unfold randomInt, bind, random, ret in H.
  injection H as <- <-.
  destruct (draws_in_unit_interval c). apply randomIntOf_range; assumption.
Qed.

Lemma randomPosIn_inclusive portal c pos c' :
  Forall wellFormedBox (inclusive portal) ->
  randomPosIn rt portal c = Some (pos, c') ->
  existsb (inBox pos) (inclusive portal) = true.
Proof.
  intros Hwf H. unfold randomPosIn in H. unfold bind at 1 in H.
  destruct (randomInt rt 0 (len (inclusive portal) - 1) c) as [[i c1]|];
    [|discriminate].
  unfold bind at 1 in H.
  destruct (index (inclusive portal) i) as [box|] eqn:Ei; cbn [lift] in H;
    [|discriminate].
  unfold ret at 1 in H.
  assert (Hin : In box (inclusive portal)).
  { unfold index in Ei. destruct (i <? 0); [discriminate|].
    eapply nth_error_In; eassumption. }
  rewrite Forall_forall in Hwf. destruct (Hwf box Hin) as (Wx & Wy & Wz).
  unfold bind at 1 in H.
  destruct (randomInt rt (vx (bmin box)) (vx (bmax box)) c1) as [[px c2]|] eqn:Ex;
    [|discriminate].
  unfold bind at 1 in H.
  destruct (randomInt rt (vy (bmin box)) (vy (bmax box)) c2) as [[py c3]|] eqn:Ey;
    [|discriminate].
  unfold bind at 1 in H.
  destruct (randomInt rt (vz (bmin box)) (vz (bmax box)) c3) as [[pz c4]|] eqn:Ez;
    [|discriminate].
  unfold ret in H. injection H as <- <-.
  apply existsb_exists. exists box. split; [exact Hin|].
  apply randomInt_range in Ex; [|exact Wx].
  apply randomInt_range in Ey; [|exact Wy].
  apply randomInt_range in Ez; [|exact Wz].
  unfold inBox. cbn [vx vy vz].
  repeat (apply andb_true_intro; split); apply Z.leb_le; lia.
Qed.

Lemma largeJump_result portal nmo st n :
  forall c st' c',
    largeJump rt portal nmo st n c = Some (Some st', c') ->
    exists portal' nm pos,
      portal = Some portal' /\ nmo = Some nm /\
      st' = assign nm pos st /\
      (Forall wellFormedBox (inclusive portal') ->
       satisfiesPositionConstraints portal' pos = true).
Proof.
  induction n as [|n IH]; intros c st' c' H.
  - cbn in H. discriminate.
  - cbn [largeJump] in H. unfold bind at 1 in H.
    destruct portal as [portal'|]; cbn [lift] in H; [|discriminate].
    unfold ret at 1 in H.
    destruct (isEmpty (inclusive portal')); [discriminate|].
    unfold bind at 1 in H.
    destruct (randomPosIn rt portal' c) as [[pos c1]|] eqn:Epos; [|discriminate].
    destruct (existsb (inBox pos) (exclusive portal')) eqn:Eexc; cbn [negb] in H.
    + exact (IH _ _ _ H).
    + unfold bind in H. destruct nmo as [nm|]; cbn [lift] in H; [|discriminate].
      unfold ret in H. injection H as <- <-.
      exists portal', nm, pos. repeat split; try reflexivity.
      intro Hwf. unfold satisfiesPositionConstraints.
      rewrite (randomPosIn_inclusive _ _ _ _ Hwf Epos), Eexc. reflexivity.
Qed.

Lemma smallMove_result portal nmo cur st n :
  forall c st' c',
    smallMove rt portal nmo cur st n c = Some (Some st', c') ->
    exists portal' nm old pos,
      portal = Some portal' /\ nmo = Some nm /\ cur = Some old /\
      st' = assign nm pos st /\ pos <> old /\
      satisfiesPositionConstraints portal' pos = true.
Proof.
  induction n as [|n IH]; intros c st' c' H.
  - cbn in H. discriminate.
  - cbn [smallMove] in H.
    unfold bind at 1 in H.
    destruct (randomInt rt (- (3)) 3 c) as [[mx c1]|]; [|discriminate].
    unfold bind at 1 in H.
    destruct (randomInt rt (- (3)) 3 c1) as [[my c2]|]; [|discriminate].
    unfold bind at 1 in H.
    destruct (randomInt rt (- (3)) 3 c2) as [[mz c3]|]; [|discriminate].
    destruct (isZeroMove (vec3 mx my mz)) eqn:Ezero; [exact (IH _ _ _ H)|].
    unfold bind at 1 in H.
    destruct cur as [old|]; cbn [lift] in H; [|discriminate].
    unfold ret at 1 in H. unfold bind at 1 in H.
    destruct portal as [portal'|]; cbn [lift] in H; [|discriminate].
    unfold ret at 1 in H.
    destruct (existsb (inBox (addVec3Z old (vec3 mx my mz))) (inclusive portal'))
      eqn:Einc; cbn [negb] in H; [|exact (IH _ _ _ H)].
    destruct (existsb (inBox (addVec3Z old (vec3 mx my mz))) (exclusive portal'))
      eqn:Eexc; [exact (IH _ _ _ H)|].
    unfold bind in H. destruct nmo as [nm|]; cbn [lift] in H; [|discriminate].
    unfold ret in H. injection H as <- <-.
    exists portal', nm, old, (addVec3Z old (vec3 mx my mz)).
    repeat split; try reflexivity.
    + intro E. unfold isZeroMove in Ezero. cbn [vx vy vz] in Ezero.
      destruct old as [ox oy oz]. unfold addVec3Z in E. cbn [vx vy vz] in E.
      injection E as E1 E2 E3.
      assert (mx = 0) by lia. assert (my = 0) by lia. assert (mz = 0) by lia.
      subst. discriminate.
    + unfold satisfiesPositionConstraints. rewrite Einc, Eexc. reflexivity.
Qed.

(** A non-null result of [generateNeighbor] is the input with one portal
    reassigned, to a position that satisfies the portal's containment rule;
    when large jumps are off, that position differs from the old one. (A
    large jump may draw the old position again, see below.) *)
Lemma generateNeighbor_result st isStage1 c st' c' :
  wellFormedBoxes p ->
  generateNeighbor rt tn p st isStage1 c = Some (Some st', c') ->
  exists nm portal pos,
    lookup nm (portals p) = Some portal /\
    st' = assign nm pos st /\
    satisfiesPositionConstraints portal pos = true /\
    (isStage1 = false -> exists old, lookup nm st = Some old /\ pos <> old).
Proof.
  intros Hwf H. unfold generateNeighbor in H. unfold bind at 1 in H.
  destruct (randomInt rt 0 (len (portalNames p) - 1) c) as [[i c1]|]; [|discriminate].
  unfold bind at 1 in H.
  destruct (_ c1) as [[jump c2]|] eqn:Ejump in H; [|discriminate].
  unfold bind at 1 in H.
  destruct (_ c2) as [[jumped c3]|] eqn:Ejumped in H; [|discriminate].
  destruct jumped as [s|].
  - unfold ret in H. injection H as <- <-.
    destruct jump; [|unfold ret in Ejumped; discriminate].
    destruct isStage1.
    + apply largeJump_result in Ejumped.
      destruct Ejumped as (portal' & nm & pos & Hp & Hn & -> & Hsat).
      exists nm, portal', pos. rewrite Hn in Hp. cbn [portalOf] in Hp.
      repeat split; auto. eauto. discriminate.
    + unfold ret in Ejump. discriminate.
  - apply smallMove_result in H.
    destruct H as (portal' & nm & old & pos & Hp & Hn & Hc & -> & Hne & Hsat).
    rewrite Hn in Hp, Hc. cbn [portalOf posOf] in Hp, Hc.
    exists nm, portal', pos. repeat split; auto. intros _. exists old. auto.
Qed.
End Neighbours.

(** C7 at a failing input. With "A" at (0,60,0) the large jump draws
    (0,60,0) again and [generateNeighbor] returns, as a neighbour, a state
    that differs from its input in no position. *)
Theorem generateNeighbor_large_jump_returns_input :
  generateNeighbor jumpRuntime constructorTunables twoPortals bothAtOrigin true 0%N
  = Some (Some bothAtOrigin, 6%N).
Proof. vm_compute. reflexivity. Qed.

(* ------------------------------------------------------------------ *)
(** ** Stage 1: what a new attempt keeps of the earlier ones *)

Section SkippedAttempts.
Variable rt : Runtime.
Variable tn : Tunables.
Variable p : Problem.
Variable from : N.
Hypothesis tape_half : forall i, (from <= i)%N -> Math_random rt i = 1 # 2.
Hypothesis jump_rare : Qlt_bool (1 # 2) (stage1LargeJumpChance tn) = false.

Lemma stage1_loop_skipped_iterations v c :
  (from <= c)%N ->
  forLoop (Z.to_nat (stage1Iterations tn)) (stage1Body rt tn p) v c
  = Some (v, (c + 152 * Z.to_N (stage1Iterations tn))%N).
Proof.
  intro Hc.
  rewrite (stage1_loop_skipped rt tn p from tape_half jump_rare) by exact Hc.
  rewrite Z_nat_N. reflexivity.
Qed.

(** The first attempt, when every iteration is skipped: the search
    variables are as before. *)
Lemma stage1Attempt_first_skipped s c cost :
  calculateCost p (currentState s) 0 = Some cost ->
  Qeq_bool cost 0 = false ->
  Qlt_bool cost (searchMin s) = false ->
  (from <= c)%N ->
  stage1Attempt rt tn p 1 s c
  = Some ((mkSearch (currentState s) (searchBest s) (searchMin s) None, false),
          (c + 152 * Z.to_N (stage1Iterations tn))%N).
Proof.
  intros Hcost Hnz Hmin Hc. unfold stage1Attempt.
  change (1 <? 1) with false. cbv iota.
  unfold bind at 1. unfold ret at 1.
  unfold bind at 1. rewrite Hcost. cbn [lift]. unfold ret at 1.
  rewrite Hnz, Hmin.
  unfold bind at 1.
  rewrite stage1_loop_skipped_iterations by exact Hc.
  unfold feasibleFound.
  cbn [feasibleState stage1CurrentState minViolationsFound bestViolationState].
  destruct (1 <? stage1MaxAttempts tn); [|reflexivity].
  unfold bind. rewrite Hcost. cbn [lift]. unfold ret at 1. rewrite Hmin.
  reflexivity.
Qed.

(** A later attempt, when every iteration is skipped: whatever best state
    and minimum the search held, it now holds the new start and its cost. *)
Lemma stage1Attempt_restart_skipped attempt s c st c1 cost :
  1 < attempt ->
  initializeState rt p c = Some (Some st, c1) ->
  calculateCost p st 0 = Some cost ->
  Qeq_bool cost 0 = false ->
  (from <= c1)%N ->
  stage1Attempt rt tn p attempt s c
  = Some ((mkSearch st st cost None, false),
          (c1 + 152 * Z.to_N (stage1Iterations tn))%N).
Proof.
  intros Hatt Hinit Hcost Hnz Hc. unfold stage1Attempt.
  apply Z.ltb_lt in Hatt. rewrite Hatt.
  unfold bind at 1. unfold bind at 1. rewrite Hinit.
  unfold bind at 1. rewrite Hcost. cbn [lift]. unfold ret at 1. unfold ret at 1.
  cbn [currentState searchMin searchBest].
  unfold bind at 1. rewrite Hcost. cbn [lift]. unfold ret at 1.
  rewrite Hnz, Qlt_bool_irrefl.
  unfold bind at 1.
  rewrite stage1_loop_skipped_iterations by exact Hc.
  unfold feasibleFound.
  cbn [feasibleState stage1CurrentState minViolationsFound bestViolationState].
  destruct (attempt <? stage1MaxAttempts tn); [|reflexivity].
  unfold bind. rewrite Hcost. cbn [lift]. unfold ret at 1.
  rewrite Qlt_bool_irrefl. reflexivity.
Qed.

End SkippedAttempts.

Lemma forgetfulRuntime_half i :
  (11 <= i)%N -> Math_random forgetfulRuntime i = 1 # 2.
Proof.
  intro H. cbn. destruct (N.eqb_spec i 10); [lia | reflexivity].
Qed.

(** C5 at a failing input. The first attempt starts from (and stays at) a
    state with one violated link; the second and third start from a state
    with two. The run fails reporting the state with two violations and
    "min violations = 2": the state with one, met in the first attempt, was
    dropped when the second attempt reset the tracking. *)
Theorem stage1_reports_last_attempt_not_overall_minimum :
  initializeState forgetfulRuntime fourPortals 0%N = Some (Some firstStart, 16%N) /\
  countLinkViolations fourPortals firstStart (desiredLinks fourPortals) = Some 1 /\
  countLinkViolations fourPortals laterStart (desiredLinks fourPortals) = Some 2 /\
  solve forgetfulRuntime constructorTunables fourPortals 0%N
  = Some (reportedFailure, 31920048%N).
Proof.
  assert (I1 : initializeState forgetfulRuntime fourPortals 0%N
               = Some (Some firstStart, 16%N)) by (vm_compute; reflexivity).
  assert (I2 : initializeState forgetfulRuntime fourPortals 10640016%N
               = Some (Some laterStart, 10640032%N)) by (vm_compute; reflexivity).
  assert (I3 : initializeState forgetfulRuntime fourPortals 21280032%N
               = Some (Some laterStart, 21280048%N)) by (vm_compute; reflexivity).
  assert (C1 : calculateCost fourPortals firstStart 0 = Some 1%Q)
    by (vm_compute; reflexivity).
  assert (C2 : calculateCost fourPortals laterStart 0 = Some 2%Q)
    by (vm_compute; reflexivity).
  assert (L1 : (11 <= 16)%N) by lia.
  assert (L2 : (11 <= 10640032)%N) by lia.
  assert (L3 : (11 <= 21280048)%N) by lia.
  split; [exact I1|].
  split; [vm_compute; reflexivity|]. split; [vm_compute; reflexivity|].
  unfold solve. unfold bind at 1. rewrite I1.
  unfold bind at 1. rewrite C1. cbn [lift]. unfold ret at 1.
  unfold bind at 1.
  change (Z.to_nat (stage1MaxAttempts constructorTunables)) with 3%nat.
  cbn [stage1Attempts].
  unfold bind at 1.
  rewrite (stage1Attempt_first_skipped forgetfulRuntime constructorTunables
             fourPortals 11 forgetfulRuntime_half eq_refl
             (mkSearch firstStart firstStart 1%Q None) 16%N 1%Q
             C1 eq_refl eq_refl L1).
  cbn [fst snd currentState searchBest searchMin]. change (1 + 1) with 2.
  change (16 + 152 * Z.to_N (stage1Iterations constructorTunables))%N
    with 10640016%N.
  unfold bind at 1.
  rewrite (stage1Attempt_restart_skipped forgetfulRuntime constructorTunables
             fourPortals 11 forgetfulRuntime_half eq_refl 2
             (mkSearch firstStart firstStart 1%Q None) 10640016%N
             laterStart 10640032%N 2%Q eq_refl I2 C2 eq_refl L2).
  cbn [fst snd]. change (2 + 1) with 3.
  change (10640032 + 152 * Z.to_N (stage1Iterations constructorTunables))%N
    with 21280032%N.
  unfold bind at 1.
  rewrite (stage1Attempt_restart_skipped forgetfulRuntime constructorTunables
             fourPortals 11 forgetfulRuntime_half eq_refl 3
             (mkSearch laterStart laterStart 2%Q None) 21280032%N
             laterStart 21280048%N 2%Q eq_refl I3 C2 eq_refl L3).
  cbn [fst snd]. unfold ret at 1. cbn [searchFeasible].
  vm_compute. reflexivity.
Qed.

(* ------------------------------------------------------------------ *)
(** ** Finalization *)

Lemma verifySolution_message_not_empty p st r :
  verifySolution p st = Some r -> String.eqb (message r) EmptyString = false.
Proof.
  unfold verifySolution.
  destruct (collectViolatedPositions p st) as [vp|]; [|discriminate].
  destruct (collectViolatedLinks p st (desiredLinks p)) as [vl|]; [|discriminate].
  destruct (forallb _ (optimizationPairs p)); [|discriminate].
  intro H. injection H as <-. cbn [message].
  destruct (isEmpty vp && isEmpty vl); reflexivity.
Qed.

(** C9. When the recorded best state has a nonzero link-violation count at
    finalization, the returned result is the verification report with its
    success flag set to false and its message extended by
    " (Internal Error: Final state has N violations)"; it is not a
    success. *)
Theorem finalize_surfaces_internal_error
    (p : Problem) (best : State) (c : N)
    (finalResult : Result) (finalViolations : Q) (violations : Z) :
  verifySolution p best = Some finalResult ->
  calculateCost p best 0 = Some finalViolations ->
  countLinkViolations p best (desiredLinks p) = Some violations ->
  violations <> 0 ->
  finalize p best c = Some (internalError finalResult finalViolations, c) /\
  success (internalError finalResult finalViolations) = false /\
  solution (internalError finalResult finalViolations) = Some best.
Proof.
  intros Hv Hc Hl Hnz.
  assert (Hpos : Qlt_bool 0 finalViolations = true).
  { apply (calculateCost_0_positive p best finalViolations violations Hc Hl).
    pose proof (countLinkViolations_nonneg _ _ _ _ Hl). lia. }
  split; [|split].
  - unfold finalize, bind. rewrite Hv, Hc. cbn [lift]. unfold ret.
    rewrite Hpos. rewrite (verifySolution_message_not_empty _ _ _ Hv).
    reflexivity.
  - reflexivity.
  - cbn [internalError solution]. unfold verifySolution in Hv.
    destruct (collectViolatedPositions p best); [|discriminate].
    destruct (collectViolatedLinks p best (desiredLinks p)); [|discriminate].
    destruct (forallb _ (optimizationPairs p)); [|discriminate].
    injection Hv as <-. reflexivity.
Qed.

Lemma finalize_surfaces_internal_error_witness :
  finalize edgePortals pastEdge 0%N
  = Some (internalError pastEdgeReport 1, 0%N) /\
  success (internalError pastEdgeReport 1) = false /\
  solution (internalError pastEdgeReport 1) = Some pastEdge.
Proof.
  apply (finalize_surfaces_internal_error edgePortals pastEdge 0%N
           pastEdgeReport 1%Q 1);
    [vm_compute; reflexivity | vm_compute; reflexivity
    | vm_compute; reflexivity | discriminate].
Defined.

(** The message that run returns. *)
Lemma internal_error_message_example :
  message (internalError pastEdgeReport 1)
  = "Constraints violated. Best attempt shown. Desired links not satisfied: B -> A. (Internal Error: Final state has 1 violations)"%string.
Proof. vm_compute. reflexivity. Qed.

(** Stage 2 returns what [finalize] makes of the recorded best state. *)
Lemma stage2_ends_with_finalize rt tn p feasible c r c' :
  stage2 rt tn p feasible c = Some (r, c') ->
  exists v c1, finalize p (bestState v) c1 = Some (r, c').
Proof.
  unfold stage2. unfold bind at 1.
  destruct (lift (calculateCost p feasible 1) c) as [[full c0]|]; [|discriminate].
  unfold bind at 1.
  destruct (forLoop _ _ _ c0) as [[v c1]|]; [|discriminate].
  intro H. exists v, c1. exact H.
Qed.

(* ------------------------------------------------------------------ *)
(** ** The parser and the entity size *)

Module ParserFacts.
Import Parser.

Lemma updatePortal_entitySize pr nm f :
  entitySize (updatePortal pr nm f) = entitySize pr.
Proof. unfold updatePortal. destruct (lookup nm (portals pr)); reflexivity. Qed.

Ltac split_cases :=
  repeat match goal with
         | |- context [match ?x with _ => _ end] =>
             lazymatch x with
             | context [match _ with _ => _ end] => fail
             | _ => destruct x
             end
         end.

Section WithBuiltins.
Variable parseFloat : string -> option Q.
Variable Number : string -> option Q.

Lemma casePortal_leaves parts st : leavesEntitySize st (casePortal parts st).
Proof.
  destruct st as [pr names]. unfold casePortal, leavesEntitySize.
  split_cases; reflexivity.
Qed.

Lemma casePos_leaves parts st : leavesEntitySize st (casePos Number parts st).
Proof.
  destruct st as [pr names]. unfold casePos, leavesEntitySize.
  split_cases; try reflexivity; cbn [fst]; rewrite updatePortal_entitySize; reflexivity.
Qed.

Lemma caseLink_leaves parts st : leavesEntitySize st (caseLink parts st).
Proof.
  destruct st as [pr names]. unfold caseLink, leavesEntitySize.
  split_cases; try reflexivity; cbn [fst]; rewrite updatePortal_entitySize; reflexivity.
Qed.

Lemma caseOptimize_leaves parts st :
  leavesEntitySize st (caseOptimize parseFloat parts st).
Proof.
  destruct st as [pr names].
  unfold caseOptimize, optimizeWith, leavesEntitySize.
  split_cases; reflexivity.
Qed.

Lemma caseOptimizePos_leaves parts st :
  leavesEntitySize st (caseOptimizePos parseFloat Number parts st).
Proof.
  destruct st as [pr names].
  unfold caseOptimizePos, optimizePosWith, leavesEntitySize.
  split_cases; reflexivity.
Qed.

Lemma dispatch_leaves command parts st :
  String.eqb command "ENTITY_SIZE" = false ->
  leavesEntitySize st (dispatch parseFloat Number command parts st).
Proof.
  intro H. unfold dispatch. rewrite H.
  destruct (String.eqb command "PORTAL"); [apply casePortal_leaves|].
  destruct (String.eqb command "POS"); [apply casePos_leaves|].
  destruct (String.eqb command "LINK"); [apply caseLink_leaves|].
  destruct (String.eqb command "OPTIMIZE"); [apply caseOptimize_leaves|].
  destruct (String.eqb command "OPTIMIZE_POS"); [apply caseOptimizePos_leaves|].
  reflexivity.
Qed.

Lemma parseLine_leaves i rawLine st :
  isDirective "ENTITY_SIZE" rawLine = false ->
  lineLeavesEntitySize st (parseLine parseFloat Number i rawLine st).
Proof.
  unfold isDirective, parseLine, lineLeavesEntitySize. intro H.
  destruct (commandOf rawLine) as [command|]; [|reflexivity].
  pose proof (dispatch_leaves command (splitWhitespace (trim rawLine)) st H) as D.
  unfold leavesEntitySize in D.
  destruct (dispatch parseFloat Number command (splitWhitespace (trim rawLine)) st);
    exact D.
Qed.

Lemma parseLines_leaves lines :
  forall i st,
    existsb (isDirective "ENTITY_SIZE") lines = false ->
    lineLeavesEntitySize st (parseLines parseFloat Number i lines st).
Proof.
  induction lines as [|l rest IH]; intros i st H; [reflexivity|].
  cbn [existsb] in H. apply orb_false_iff in H. destruct H as [Hl Hrest].
  cbn [parseLines].
  pose proof (parseLine_leaves i l st Hl) as P.
  destruct (parseLine parseFloat Number i l st) as [e|st1]; [exact P|].
  specialize (IH (i + 1) st1 Hrest). unfold lineLeavesEntitySize in *.
  destruct (parseLines parseFloat Number (i + 1) rest st1) as [[? ? msg|?]|st2];
    [exact IH | exact IH | congruence].
Qed.

(** A text without an [ENTITY_SIZE] directive never fails with one of the
    two [ENTITY_SIZE] errors (bad format, not positive): it fails only on
    another directive or in the final validation, and otherwise yields a
    problem whose entity size is the default 1.0. *)
Lemma no_entity_size_check_without_directive (inputText : string) :
  hasDirective "ENTITY_SIZE" inputText = false ->
  match parseProblem parseFloat Number inputText with
  | inr problem => entitySize problem = 1%Q
  | inl (LineError _ _ msg) => entitySizeMessage msg = false
  | inl (ValidationError _) => True
  end.
Proof.
  intro H. unfold parseProblem.
  pose proof (parseLines_leaves (split newline inputText) 0 (initialProblem, []) H) as P.
  unfold lineLeavesEntitySize in P.
  destruct (parseLines parseFloat Number 0 (split newline inputText) (initialProblem, []))
    as [[? ? msg|?]|[problem names]]; [exact P | exact I |].
  destruct (validate (portals problem)); [exact I | exact P].
Qed.
End WithBuiltins.

(** The sample text parses, with the default entity size. *)
Lemma sampleText_parses :
  exists problem,
    parseProblem readInteger readInteger sampleText = inr problem /\
    entitySize problem = 1%Q /\
    keys (portals problem) = ["A"; "B"]%string /\
    desiredLinks problem = [mkLink "A" "B"; mkLink "B" "A"]%string /\
    optimizationPairs problem
    = [PairPortal "A" "B" 2; PairPosition "A" (vec3 0 60 0)%Q 1]%string.
Proof. eexists. split; [vm_compute; reflexivity|]. repeat split. Qed.

(** With the directive present the positivity check applies. *)
Lemma entity_size_zero_rejected :
  parseProblem readInteger readInteger "ENTITY_SIZE 0"
  = inl (LineError 1 "ENTITY_SIZE 0" "ENTITY_SIZE must be positive").
Proof. vm_compute. reflexivity. Qed.

End ParserFacts.

(* ================================================================== *)
(** * Further properties of the code *)

(** ** The scenarios of the further properties *)

Lemma halfRuntime_unitDraws : unitDraws halfRuntime.
Proof. intro i. split; [discriminate | reflexivity]. Qed.

Lemma nudgeRuntime_unitDraws : unitDraws nudgeRuntime.
Proof.
  intro i. unfold nudgeRuntime. cbn [Math_random].
  destruct (i =? 0)%N; [|destruct (i =? 1)%N];
    unfold Qle, Qlt; cbn; lia.
Qed.

Lemma edgePortals_wellFormedBoxes : wellFormedBoxes edgePortals.
Proof.
  intros nm portal H. unfold edgePortals in H. cbn [portals lookup] in H.
  destruct (String.eqb "A" nm); [|destruct (String.eqb "B" nm); [|discriminate]];
    injection H as <-; repeat constructor; cbn; lia.
Qed.

Lemma atEdge_solverState : solverState edgePortals atEdge.
Proof.
  split; [|reflexivity].
  repeat constructor; eexists; (split; [reflexivity | vm_compute; reflexivity]).
Qed.

(** Stage 2 iterations in which no neighbour is generated leave the loop
    variables as they are. *)
Lemma stage2_loop_skipped rt tn p from
    (tape_half : forall i, (from <= i)%N -> Math_random rt i = 1 # 2)
    (jump_rare : Qlt_bool (1 # 2) (stage1LargeJumpChance tn) = false) n :
  forall v c, (from <= c)%N ->
  forLoop n (stage2Body rt tn p) v c = Some (v, (c + 151 * N.of_nat n)%N).
Proof.
  induction n as [|n IH]; intros v c Hc.
  - cbn [forLoop]. unfold ret. f_equal. f_equal. lia.
  - cbn [forLoop]. unfold bind.
    rewrite (stage2Body_skipped rt tn p from tape_half jump_rare) by exact Hc.
    cbn [fst snd]. rewrite IH by lia. f_equal. f_equal. lia.
Qed.

Lemma forLoop_first {S : Type} n (body : S -> M (S * bool)) s c s1 c1 :
  body s c = Some ((s1, false), c1) ->
  forLoop (Datatypes.S n) body s c = forLoop n body s1 c1.
Proof. intro H. cbn [forLoop]. unfold bind. rewrite H. reflexivity. Qed.

(** With every draw 1/2 both portals start at (0,64,0), linked both ways;
    Stage 2 generates no neighbour and the start is the solution. *)
Lemma calm_run :
  solve halfRuntime constructorTunables twoPortals 0%N
  = Some (optimized bothAtCentre, 4530008%N).
Proof.
  unfold solve. unfold bind at 1.
  replace (initializeState halfRuntime twoPortals 0%N)
    with (Some (Some bothAtCentre, 8%N)) by (vm_compute; reflexivity).
  unfold bind at 1.
  replace (calculateCost twoPortals bothAtCentre 0) with (Some 0%Q)
    by (vm_compute; reflexivity).
  cbn [lift]. unfold ret at 1. unfold bind at 1.
  replace (stage1Attempts halfRuntime constructorTunables twoPortals
             (Z.to_nat (stage1MaxAttempts constructorTunables)) 1
             (mkSearch bothAtCentre bothAtCentre 0 None) 8%N)
    with (Some (mkSearch bothAtCentre bothAtCentre 0 (Some bothAtCentre), 8%N))
    by (vm_compute; reflexivity).
  cbn [searchFeasible]. unfold stage2. unfold bind at 1.
  replace (calculateCost twoPortals bothAtCentre 1) with (Some 0%Q)
    by (vm_compute; reflexivity).
  cbn [lift]. unfold ret at 1. unfold bind at 1.
  rewrite (stage2_loop_skipped halfRuntime constructorTunables twoPortals 0%N
             (fun i _ => eq_refl) eq_refl) by lia.
  cbn [bestState]. rewrite Z_nat_N.
  vm_compute. reflexivity.
Qed.

Lemma nudgeRuntime_half i : (2 <= i)%N -> Math_random nudgeRuntime i = 1 # 2.
Proof.
  intro Hi. unfold nudgeRuntime. cbn [Math_random].
  destruct (N.eqb_spec i 0); [lia|]. destruct (N.eqb_spec i 1); [lia | reflexivity].
Qed.

(** From [atEdge] the first neighbour moves "A" one block towards its goal
    and is accepted; no other neighbour is generated. *)
Lemma nudge_run :
  stage2 nudgeRuntime constructorTunables edgePortals atEdge 0%N
  = Some (optimized nudged, 4529853%N).
Proof.
  assert (Hfirst :
            stage2Body nudgeRuntime constructorTunables edgePortals
              (mkStage2 atEdge (17424 # 1) (17424 # 1) atEdge
                 (initialTemperature constructorTunables)) 0%N
            = Some ((mkStage2 nudged (17161 # 1) (17161 # 1) nudged
                       ((100000 # 1) * (995 # 1000))%Q, false), 4%N))
    by (vm_compute; reflexivity).
  unfold stage2. unfold bind at 1.
  replace (calculateCost edgePortals atEdge 1) with (Some (17424 # 1))
    by (vm_compute; reflexivity).
  cbn [lift]. unfold ret at 1. unfold bind at 1.
  replace (stage2Iterations constructorTunables) with (Z.succ 29999) by reflexivity.
  rewrite Z2Nat.inj_succ by lia.
  rewrite (forLoop_first (Z.to_nat 29999)
             (stage2Body nudgeRuntime constructorTunables edgePortals)
             _ 0%N _ 4%N Hfirst).
  rewrite (stage2_loop_skipped nudgeRuntime constructorTunables edgePortals 2%N
             nudgeRuntime_half eq_refl) by lia.
  cbn [bestState]. rewrite Z_nat_N.
  vm_compute. reflexivity.
Qed.

(* ------------------------------------------------------------------ *)
(** ** js/utils.js *)

(** X1. [clamp] keeps a value within a range whose bounds are in order: the
    result lies between the bounds, and it is the value itself when the
    value already does. *)
Theorem clamp_bounds (value lo hi : Q) :
  (lo <= hi)%Q ->
  (lo <= clamp value lo hi)%Q /\ (clamp value lo hi <= hi)%Q /\
  ((lo <= value)%Q -> (value <= hi)%Q -> (clamp value lo hi == value)%Q).
Proof.
  intro H. unfold clamp. repeat split.
  - apply Q.le_max_l.
  - apply Q.max_lub; [exact H | apply Q.le_min_r].
  - intros H1 H2. rewrite (Q.min_l _ _ H2). apply Q.max_r. exact H1.
Qed.

Lemma clamp_bounds_witness :
  (0 <= 3 # 1)%Q /\
  (0 <= clamp (2 # 1) 0 (3 # 1))%Q /\ (clamp (2 # 1) 0 (3 # 1) <= 3 # 1)%Q /\
  ((0 <= 2 # 1)%Q -> (2 # 1 <= 3 # 1)%Q -> (clamp (2 # 1) 0 (3 # 1) == 2 # 1)%Q).
Proof.
  assert (H : (0 <= 3 # 1)%Q) by discriminate.
  split; [exact H | exact (clamp_bounds (2 # 1) 0 (3 # 1) H)].
Defined.

(** X2. The target block of the centre probe, as [calculateAllLinkDistances]
    computes it (offset by (0.5, 0, 0.5), scale x and z for the destination
    dimension, floor): from a nether block to the overworld and back is the
    block itself; from an overworld block to the nether and back is the
    block at offset 4 of its 8-block cell on x and on z, at the same height. *)
Theorem centre_probe_round_trip (b : Vec3 Z) :
  centreTargetBlock N_DIM (centreTargetBlock O_DIM b) = b /\
  let back := centreTargetBlock O_DIM (centreTargetBlock N_DIM b) in
  vx back = 8 * (vx b / 8) + 4 /\ vy back = vy b /\ vz back = 8 * (vz b / 8) + 4.
Proof.
  destruct b as [x y z].
  unfold centreTargetBlock, floorVec3, scaleVec3XZ, addVec3, toPoint,
    ENTITY_DECIMAL_OFFSET, getCoordScale. cbn [vx vy vz Dimension_eqb].
  unfold Qfloor, Qplus, Qmult, inject_Z, O_SCALE, N_SCALE. cbn [Qnum Qden].
  cbn [Pos.mul]. 
  split; [f_equal | repeat split]; Z.div_mod_to_equations; lia.
Qed.

(** X3. [distSq] on blocks is symmetric and never negative, and it is zero
    only between a block and itself. *)
Theorem distSq_facts (a b : Vec3 Z) :
  distSq a b = distSq b a /\ 0 <= distSq a b /\ (distSq a b = 0 <-> a = b).
Proof.
  destruct a as [ax ay az], b as [bx by' bz]. unfold distSq. cbn [vx vy vz].
  pose proof (Z.square_nonneg (ax - bx)) as Hx.
  pose proof (Z.square_nonneg (ay - by')) as Hy.
  pose proof (Z.square_nonneg (az - bz)) as Hz.
  split; [ring|]. split; [lia|]. split.
  - intro H.
    assert (Ex : (ax - bx) * (ax - bx) = 0) by lia.
    assert (Ey : (ay - by') * (ay - by') = 0) by lia.
    assert (Ez : (az - bz) * (az - bz) = 0) by lia.
    apply Z.mul_eq_0 in Ex, Ey, Ez.
    f_equal; lia.
  - intro H. injection H as -> -> ->. ring.
Qed.

(** X4. For a draw in [0, 1), [randomInt(min, max)] lies between [min] and
    [max] when they are in order; for [max = min - 1], which is what the
    solver asks for on an empty array, it is [min], the index 0. *)
Theorem randomInt_within_bounds (r : Q) (lo hi : Z) :
  (0 <= r)%Q -> (r < 1)%Q ->
  (lo <= hi -> lo <= randomIntOf r lo hi <= hi) /\
  (hi = lo - 1 -> randomIntOf r lo hi = lo).
Proof.
  intros H0 H1. split.
  - intro Hle. apply randomIntOf_range; assumption.
  - intros ->. unfold randomIntOf.
    replace (lo - 1 - lo + 1) with 0 by lia.
    assert (E : (r * inject_Z 0 == 0)%Q) by (unfold inject_Z; ring).
    rewrite E. reflexivity.
Qed.

Lemma randomInt_within_bounds_witness :
  (-128 <= 128 -> -128 <= randomIntOf (1 # 2) (-128) 128 <= 128) /\
  (128 = -128 - 1 -> randomIntOf (1 # 2) (-128) 128 = -128).
Proof.
  apply (randomInt_within_bounds (1 # 2) (-128) 128); [discriminate | reflexivity].
Defined.

(* ------------------------------------------------------------------ *)
(** ** The link check *)

Lemma potentialTargets_throws_iff p destDim radius Bd st :
  potentialTargets p destDim radius Bd st = None <-> Exists (strayName p) st.
Proof.
  induction st as [|[nm C] rest IH]; cbn [potentialTargets].
  - split; [discriminate | intro H; inversion H].
  - destruct (lookup nm (portals p)) as [q|] eqn:E.
    + destruct (potentialTargets p destDim radius Bd rest) as [more|].
      * split.
        -- destruct (negb _); [discriminate|]. destruct (_ && _); discriminate.
        -- intro H. inversion H as [? ? H1|? ? H1]; subst.
           ++ unfold strayName in H1. cbn in H1. congruence.
           ++ apply IH in H1. discriminate.
      * split; [intros _; apply Exists_cons_tl; apply IH; reflexivity | reflexivity].
    + split; [intros _; apply Exists_cons_hd; exact E | reflexivity].
Qed.

(** X5. For a source, a destination and state names that are not among
    the names inherited from [Object.prototype] (under which the code reads
    an inherited member instead of [undefined]), [checkActualLink] throws
    exactly when the source is no portal of the problem, or the state does
    not place the source, or the destination is no portal of the problem,
    or the state places a name that is no portal of the problem; in every
    other case it answers. *)
Theorem checkActualLink_throws_iff p src dst st :
  inheritedName src = false ->
  inheritedName dst = false ->
  forallb (fun e => negb (inheritedName (fst e))) st = true ->
  (checkActualLink p src dst st = None <->
   lookup src (portals p) = None \/ lookup src st = None \/
   lookup dst (portals p) = None \/ Exists (strayName p) st).
Proof.
  intros _ _ _. unfold checkActualLink.
  destruct (lookup src (portals p)) as [sp|]; [|tauto].
  destruct (lookup src st) as [pos|]; [|tauto].
  destruct (lookup dst (portals p)) as [dp|]; [|tauto].
  assert (T : forall tps, tps <> [] ->
            (checkProbes p (dim dp) (getCoordScale (dim dp))
               (getSearchRadius (dim dp)) dst st tps = None
             <-> Exists (strayName p) st)).
  { intros tps Hne. destruct (Exists_dec (strayName p) st) as [Hex|Hno].
    - intro e. unfold strayName. destruct (lookup (fst e) (portals p)); [right|left]; congruence.
    - split; [intros _; exact Hex|]. intros _.
      destruct tps as [|P rest]; [congruence|]. cbn [checkProbes].
      rewrite (proj2 (potentialTargets_throws_iff _ _ _ _ _) Hex). reflexivity.
    - assert (Hpl : placedPortals p st).
      { apply Forall_forall. intros e Hin Hn. apply Hno.
        apply Exists_exists. exists e. split; assumption. }
      rewrite (checkProbes_forallb _ _ _ _ Hpl). split; [discriminate | contradiction]. }
  rewrite T.
  - split; [intro H; right; right; right; exact H|].
    intros [H|[H|[H|H]]]; try discriminate; exact H.
  - destruct (face sp); discriminate.
Qed.

Lemma checkActualLink_throws_iff_witness :
  checkActualLink twoPortals "A" "B" bothAtOrigin = None <->
  lookup "A"%string (portals twoPortals) = None \/
  lookup "A"%string bothAtOrigin = None \/
  lookup "B"%string (portals twoPortals) = None \/
  Exists (strayName twoPortals) bothAtOrigin.
Proof.
  apply (checkActualLink_throws_iff twoPortals "A" "B" bothAtOrigin); reflexivity.
Defined.

Lemma potentialTargets_assign_other_dim p destDim radius Bd nm pos q st :
  lookup nm (portals p) = Some q ->
  dim q <> destDim ->
  potentialTargets p destDim radius Bd (assign nm pos st)
  = potentialTargets p destDim radius Bd st.
Proof.
  intros Hq Hd.
  assert (Hskip : Dimension_eqb (dim q) destDim = false).
  { destruct (Dimension_eqb_spec (dim q) destDim); [contradiction | reflexivity]. }
  induction st as [|[k C] rest IH]; cbn [assign potentialTargets].
  - rewrite String.eqb_refl || idtac. rewrite Hq, Hskip. reflexivity.
  - destruct (String.eqb_spec k nm) as [->|Hne]; cbn [potentialTargets].
    + rewrite Hq, Hskip. cbn [negb].
      destruct (potentialTargets p destDim radius Bd rest); reflexivity.
    + rewrite IH. reflexivity.
Qed.

(** X6. The answer of [checkActualLink] depends on the source and on the
    portals of the destination's dimension only: placing or moving a portal
    that is not the source and lies in the other dimension leaves it
    unchanged. *)
Theorem checkActualLink_ignores_other_portals p src dst st nm pos q dp :
  nm <> src ->
  lookup nm (portals p) = Some q ->
  lookup dst (portals p) = Some dp ->
  dim q <> dim dp ->
  checkActualLink p src dst (assign nm pos st) = checkActualLink p src dst st.
Proof.
  intros Hne Hq Hdp Hd. unfold checkActualLink.
  rewrite (lookup_assign_other nm src pos st) by congruence.
  rewrite Hdp.
  destruct (lookup src (portals p)) as [sp|]; [|reflexivity].
  destruct (lookup src st) as [spos|]; [|reflexivity].
  generalize (getEntityTestPositions spos (face sp) (entitySize p)).
  intro tps. induction tps as [|P rest IH]; [reflexivity|].
  cbn [checkProbes].
  rewrite (potentialTargets_assign_other_dim _ _ _ _ _ _ _ _ Hq Hd), IH.
  reflexivity.
Qed.

Lemma checkActualLink_ignores_other_portals_witness :
  checkActualLink fourPortals "A" "B" (assign "D"%string (vec3 5 70 5) firstStart)
  = checkActualLink fourPortals "A" "B" firstStart.
Proof.
  apply (checkActualLink_ignores_other_portals fourPortals "A" "B" firstStart "D"
           (vec3 5 70 5) (mkPortal "D" O_DIM FaceX [wholeWorld] [])
           (mkPortal "B" N_DIM FaceX [wholeWorld] []));
    [discriminate | reflexivity | reflexivity | discriminate].
Defined.

(* ------------------------------------------------------------------ *)
(** ** Cost and verification *)

Lemma checkActualLink_posed p st l :
  placedPortals p st -> linkPosed p st l ->
  exists b, checkActualLink p (source l) (dest l) st = Some b.
Proof.
  intros Hpl [[H1 H2] H3]. unfold checkActualLink.
  destruct (lookup (source l) (portals p)); [|congruence].
  destruct (lookup (source l) st); [|congruence].
  destruct (lookup (dest l) (portals p)); [|congruence].
  rewrite (checkProbes_forallb _ _ _ _ Hpl). eexists; reflexivity.
Qed.

Lemma countLinkViolations_posed p st links :
  placedPortals p st -> Forall (linkPosed p st) links ->
  exists n, countLinkViolations p st links = Some n.
Proof.
  intros Hpl H. induction H as [|l rest Hl _ IH]; cbn [countLinkViolations].
  - eexists; reflexivity.
  - destruct (checkActualLink_posed _ _ _ Hpl Hl) as [b ->].
    destruct IH as [n ->]. eexists; reflexivity.
Qed.

Lemma collectViolatedLinks_posed p st links :
  placedPortals p st -> Forall (linkPosed p st) links ->
  exists l, collectViolatedLinks p st links = Some l.
Proof.
  intros Hpl H. induction H as [|l rest Hl _ IH]; cbn [collectViolatedLinks].
  - eexists; reflexivity.
  - destruct (checkActualLink_posed _ _ _ Hpl Hl) as [b ->].
    destruct IH as [n ->]. eexists; reflexivity.
Qed.

Lemma countPosViolations_placed p st :
  placedPortals p st -> exists n, countPosViolations p st = Some n.
Proof.
  intro H. induction H as [|[nm pos] rest Hn _ IH]; cbn [countPosViolations].
  - eexists; reflexivity.
  - cbn [fst] in Hn. destruct (lookup nm (portals p)); [|congruence].
    destruct IH as [n ->]. eexists; reflexivity.
Qed.

Lemma collectViolatedPositions_placed p st :
  placedPortals p st -> exists l, collectViolatedPositions p st = Some l.
Proof.
  intro H. induction H as [|[nm pos] rest Hn _ IH]; cbn [collectViolatedPositions].
  - eexists; reflexivity.
  - cbn [fst] in Hn. destruct (lookup nm (portals p)); [|congruence].
    destruct IH as [n ->]. eexists; reflexivity.
Qed.

Lemma overworldPosOf_known p st nm :
  known p st nm -> exists v, overworldPosOf p st nm = Some v.
Proof.
  intros [H1 H2]. unfold overworldPosOf.
  destruct (lookup nm (portals p)); [|congruence].
  destruct (lookup nm st); [|congruence]. eexists; reflexivity.
Qed.

Lemma pairDistSq_posed p st g :
  goalPosed p st g -> exists d, pairDistSq p st g = Some d.
Proof.
  destruct g as [a b w|a t w]; cbn [goalPosed pairDistSq].
  - intros [Ha Hb]. unfold calculateOptimizationDistanceSq.
    destruct (overworldPosOf_known _ _ _ Ha) as [va ->].
    destruct (overworldPosOf_known _ _ _ Hb) as [vb ->]. eexists; reflexivity.
  - intro Ha. unfold calculateOptimizationDistancePosSq.
    destruct (overworldPosOf_known _ _ _ Ha) as [va ->]. eexists; reflexivity.
Qed.

Lemma totalWeighted_posed p st w goals :
  Forall (goalPosed p st) goals ->
  forall acc, exists t,
    totalWeightedOptimizationDistanceSq p st w goals acc = Some t.
Proof.
  intro H. induction H as [|g rest Hg _ IH]; intro acc;
    cbn [totalWeightedOptimizationDistanceSq].
  - eexists; reflexivity.
  - destruct (pairDistSq_posed _ _ _ Hg) as [d ->]. apply IH.
Qed.

Lemma wellPosed_runs p st :
  wellPosed p st ->
  (forall w, exists c, calculateCost p st w = Some c) /\
  (exists r, verifySolution p st = Some r).
Proof.
  intros (Hpl & Hl & Hg). split.
  - intro w. unfold calculateCost.
    destruct (countLinkViolations_posed _ _ _ Hpl Hl) as [l ->].
    destruct (countPosViolations_placed _ _ Hpl) as [v ->].
    destruct (Qlt_bool 0 w); [|eexists; reflexivity].
    destruct (totalWeighted_posed p st w _ Hg 0%Q) as [t ->].
    eexists; reflexivity.
  - unfold verifySolution.
    destruct (collectViolatedPositions_placed _ _ Hpl) as [vp ->].
    destruct (collectViolatedLinks_posed _ _ _ Hpl Hl) as [vl ->].
    assert (F : forallb (fun goal => match pairDistSq p st goal with
                                     | Some _ => true | None => false end)
                        (optimizationPairs p) = true).
    { apply forallb_forall. intros g Hin. rewrite Forall_forall in Hg.
      destruct (pairDistSq_posed _ _ _ (Hg g Hin)) as [d ->]. reflexivity. }
    rewrite F. eexists; reflexivity.
Qed.

(** X7. On a state that places only portals of the problem, when the source
    of every link and the portals of every goal are placed portals and the
    destination of every link is a portal, [calculateCost] returns at every
    weight and [verifySolution] returns. *)
Theorem wellPosed_never_throws p st :
  wellPosed p st ->
  (forall w, exists c, calculateCost p st w = Some c) /\
  (exists r, verifySolution p st = Some r).
Proof. exact (wellPosed_runs p st). Qed.

Lemma wellPosed_never_throws_witness :
  (forall w, exists c, calculateCost twoPortals bothAtOrigin w = Some c) /\
  (exists r, verifySolution twoPortals bothAtOrigin = Some r).
Proof.
  apply (wellPosed_never_throws twoPortals bothAtOrigin).
  unfold wellPosed, placedPortals, linkPosed, goalPosed, known.
  repeat split; repeat constructor; cbn; discriminate.
Defined.

Lemma totalWeighted_sum p st w goals :
  forall acc s,
    weightedGoalSum p st goals = Some s ->
    exists t, totalWeightedOptimizationDistanceSq p st w goals acc = Some t /\
              (t == acc + w * s)%Q.
Proof.
  induction goals as [|g rest IH]; intros acc s H;
    cbn [weightedGoalSum totalWeightedOptimizationDistanceSq] in *.
  - injection H as <-. exists acc. split; [reflexivity | ring].
  - destruct (pairDistSq p st g) as [d|]; [|discriminate].
    destruct (weightedGoalSum p st rest) as [s'|]; [|discriminate].
    injection H as <-.
    destruct (IH (acc + (0 + d) * pairWeight g * w)%Q s' eq_refl) as (t & -> & E).
    exists t. split; [reflexivity|]. rewrite E. ring.
Qed.

(** X8. At a positive weight the cost is the number of violated links times
    10^10, plus the number of violated positions times 10^7, plus the weight
    times the sum, over the goals, of squared overworld distance times goal
    weight. *)
Theorem calculateCost_decomposition p st w l v s :
  (0 < w)%Q ->
  countLinkViolations p st (desiredLinks p) = Some l ->
  countPosViolations p st = Some v ->
  weightedGoalSum p st (optimizationPairs p) = Some s ->
  exists c, calculateCost p st w = Some c /\
            (c == inject_Z l * (10000000000 # 1) + inject_Z v * (10000000 # 1)
                  + w * s)%Q.
Proof.
  intros Hw Hl Hv Hs. unfold calculateCost. rewrite Hl, Hv.
  apply Qlt_bool_iff in Hw. rewrite Hw.
  destruct (totalWeighted_sum p st w _ 0%Q s Hs) as (t & -> & E).
  eexists. split; [reflexivity|]. rewrite E. ring.
Qed.

Lemma calculateCost_decomposition_witness :
  exists c, calculateCost edgePortals atEdge 1 = Some c /\
            (c == inject_Z 0 * (10000000000 # 1) + inject_Z 0 * (10000000 # 1)
                  + 1 * (17424 # 1))%Q.
Proof.
  apply (calculateCost_decomposition edgePortals atEdge 1 0 0 (17424 # 1));
    [reflexivity | vm_compute; reflexivity | vm_compute; reflexivity
    | vm_compute; reflexivity].
Defined.

Lemma collect_links_count p st links vl :
  collectViolatedLinks p st links = Some vl ->
  countLinkViolations p st links = Some (len vl).
Proof.
  revert vl. induction links as [|l rest IH]; intros vl H;
    cbn [collectViolatedLinks countLinkViolations] in *.
  - injection H as <-. reflexivity.
  - destruct (checkActualLink p (source l) (dest l) st) as [ok|]; [|discriminate].
    destruct (collectViolatedLinks p st rest) as [vl'|]; [|discriminate].
    rewrite (IH vl' eq_refl). injection H as <-. f_equal.
    destruct ok; [reflexivity|]. unfold len. cbn [List.length]. lia.
Qed.

Lemma collect_positions_count p st vp :
  collectViolatedPositions p st = Some vp ->
  countPosViolations p st = Some (len vp).
Proof.
  revert vp. induction st as [|[nm pos] rest IH]; intros vp H;
    cbn [collectViolatedPositions countPosViolations] in *.
  - injection H as <-. reflexivity.
  - destruct (lookup nm (portals p)) as [portal|]; [|discriminate].
    destruct (collectViolatedPositions p rest) as [vp'|]; [|discriminate].
    rewrite (IH vp' eq_refl). injection H as <-. f_equal.
    destruct (satisfiesPositionConstraints portal pos); [reflexivity|].
    unfold len. cbn [List.length]. lia.
Qed.

Lemma len_zero_iff {A} (l : list A) : len l = 0 <-> l = [].
Proof. destruct l; unfold len; cbn; split; intro H; try reflexivity; try discriminate; lia. Qed.

(** X9. [verifySolution] shows the state it was given and lists as many
    violated links and violated positions as [calculateCost] counts; it
    reports success exactly when both lists are empty, that is, exactly when
    the weight-0 cost is zero. *)
Theorem verifySolution_agrees_with_cost p st r :
  verifySolution p st = Some r ->
  solution r = Some st /\
  countLinkViolations p st (desiredLinks p) = Some (len (violatedLinks r)) /\
  countPosViolations p st = Some (len (violatedPositions r)) /\
  (success r = true <-> violatedLinks r = [] /\ violatedPositions r = []) /\
  (success r = true <-> exists c, calculateCost p st 0 = Some c /\ (c == 0)%Q).
Proof.
  unfold verifySolution.
  destruct (collectViolatedPositions p st) as [vp|] eqn:Ep; [|discriminate].
  destruct (collectViolatedLinks p st (desiredLinks p)) as [vl|] eqn:El; [|discriminate].
  destruct (forallb _ (optimizationPairs p)); [|discriminate].
  intro H. injection H as <-. cbn [solution violatedLinks violatedPositions success].
  pose proof (collect_links_count _ _ _ _ El) as Hl.
  pose proof (collect_positions_count _ _ _ Ep) as Hp.
  assert (Hs : isEmpty vp && isEmpty vl = true <-> vl = [] /\ vp = []).
  { destruct vp, vl; cbn; split; intro H; try discriminate; auto;
      destruct H; discriminate. }
  split; [reflexivity|]. split; [exact Hl|]. split; [exact Hp|].
  split; [exact Hs|]. split.
  - intro H. apply Hs in H. destruct H as [-> ->].
    rewrite calculateCost_0_counts, Hl, Hp. eexists. split; reflexivity.
  - intros (c & Hc & Hz). apply Hs.
    rewrite calculateCost_0_counts, Hl, Hp in Hc. injection Hc as <-.
    assert (0 <= len vl) by (unfold len; lia).
    assert (0 <= len vp) by (unfold len; lia).
    unfold Qeq, Qplus, Qmult, inject_Z in Hz. cbn [Qnum Qden] in Hz.
    split; apply len_zero_iff; lia.
Qed.

Lemma verifySolution_agrees_with_cost_witness :
  solution pastEdgeReport = Some pastEdge /\
  countLinkViolations edgePortals pastEdge (desiredLinks edgePortals)
  = Some (len (violatedLinks pastEdgeReport)) /\
  countPosViolations edgePortals pastEdge
  = Some (len (violatedPositions pastEdgeReport)) /\
  (success pastEdgeReport = true <->
   violatedLinks pastEdgeReport = [] /\ violatedPositions pastEdgeReport = []) /\
  (success pastEdgeReport = true <->
   exists c, calculateCost edgePortals pastEdge 0 = Some c /\ (c == 0)%Q).
Proof.
  apply (verifySolution_agrees_with_cost edgePortals pastEdge pastEdgeReport).
  vm_compute; reflexivity.
Defined.

(* ------------------------------------------------------------------ *)
(** ** Initialization and neighbour generation *)

Lemma assign_valid p nm pos portal st :
  lookup nm (portals p) = Some portal ->
  satisfiesPositionConstraints portal pos = true ->
  Forall (validEntry p) st -> Forall (validEntry p) (assign nm pos st).
Proof.
  intros Hl Hs H. induction H as [|[k v] rest He Hrest IH]; cbn [assign].
  - constructor; [|constructor]. exists portal. auto.
  - destruct (String.eqb_spec k nm) as [->|Hne].
    + constructor; [|assumption]. exists portal. auto.
    + constructor; assumption.
Qed.

Lemma keys_assign_in {V} nm (v : V) st :
  In nm (keys st) -> keys (assign nm v st) = keys st.
Proof.
  induction st as [|[k w] rest IH]; cbn; [contradiction|].
  destruct (String.eqb_spec k nm) as [->|Hne]; [reflexivity|].
  intros [H|H]; [congruence|]. cbn. f_equal. apply IH. exact H.
Qed.

Lemma keys_assign_fresh {V} nm (v : V) st :
  ~ In nm (keys st) -> keys (assign nm v st) = keys st ++ [nm].
Proof.
  induction st as [|[k w] rest IH]; cbn; [reflexivity|].
  intro H. destruct (String.eqb_spec k nm) as [->|Hne]; [tauto|].
  cbn. f_equal. apply IH. tauto.
Qed.

Lemma lookup_in_keys {V} nm (obj : list (string * V)) :
  In nm (keys obj) <-> lookup nm obj <> None.
Proof.
  induction obj as [|[k w] rest IH]; cbn.
  - split; [contradiction | congruence].
  - destruct (String.eqb_spec k nm) as [->|Hne].
    + split; [discriminate | auto].
    + rewrite <- IH. split; [intros [H|H]; [congruence | exact H] | auto].
Qed.

Section Initialization.
Variable rt : Runtime.
Variable p : Problem.

Lemma findInitialPos_satisfies portal n :
  forall c pos c',
    findInitialPos rt portal n c = Some (Some pos, c') ->
    satisfiesPositionConstraints portal pos = true.
Proof.
  induction n as [|n IH]; intros c pos c' H; cbn [findInitialPos] in H.
  - discriminate.
  - unfold bind in H.
    destruct (randomPosIn rt portal c) as [[q c1]|]; [|discriminate].
    destruct (satisfiesPositionConstraints portal q) eqn:E.
    + unfold ret in H. injection H as <- <-. exact E.
    + exact (IH _ _ _ H).
Qed.

Lemma initializeFrom_valid names :
  forall acc c st c',
    Forall (validEntry p) acc ->
    NoDup (keys acc ++ names) ->
    initializeFrom rt p names acc c = Some (Some st, c') ->
    Forall (validEntry p) st /\ keys st = keys acc ++ names.
Proof.
  induction names as [|nm rest IH]; intros acc c st c' Hacc Hnd H;
    cbn [initializeFrom] in H.
  - unfold ret in H. injection H as <- <-. rewrite app_nil_r. auto.
  - unfold bind at 1 in H.
    destruct (lookup nm (portals p)) as [portal|] eqn:El; cbn [lift] in H;
      [|discriminate].
    unfold ret at 1 in H. unfold bind at 1 in H.
    destruct (findInitialPos rt portal 100 c) as [[[pos|] c1]|] eqn:Ef;
      [| discriminate | discriminate].
    pose proof (findInitialPos_satisfies _ _ _ _ _ Ef) as Hs.
    assert (Hfresh : ~ In nm (keys acc)).
    { intro Hin. apply NoDup_remove_2 in Hnd. apply Hnd.
      apply in_or_app. left. exact Hin. }
    assert (Hk : keys (assign nm pos acc) = keys acc ++ [nm])
      by (apply keys_assign_fresh; exact Hfresh).
    destruct (IH (assign nm pos acc) c1 st c') as [H1 H2].
    + apply (assign_valid p nm pos portal); assumption.
    + rewrite Hk, <- app_assoc. exact Hnd.
    + exact H.
    + split; [exact H1|]. rewrite H2, Hk, <- app_assoc. reflexivity.
Qed.

(** X10. A state that [initializeState] returns places the portals of the
    problem, all of them and in the problem's order, each at a position that
    satisfies its constraints: it has no position violation. *)
Theorem initializeState_gives_solverState c st c' :
  NoDup (portalNames p) ->
  initializeState rt p c = Some (Some st, c') ->
  solverState p st /\ countPosViolations p st = Some 0.
Proof.
  intros Hnd H. unfold initializeState in H.
  destruct (initializeFrom_valid _ [] c st c' (Forall_nil _) Hnd H) as [H1 H2].
  split; [split; assumption|].
  clear - H1. induction H1 as [|[nm pos] rest (portal & Hl & Hs) _ IH];
    cbn [countPosViolations]; [reflexivity|].
  cbn [fst snd] in Hl, Hs. rewrite Hl, IH, Hs. reflexivity.
Qed.

Lemma randomPosIn_no_box portal c :
  inclusive portal = [] -> randomPosIn rt portal c = None.
Proof.
  intro H. unfold randomPosIn. rewrite H. unfold bind at 1.
  destruct (randomInt rt 0 (len (@nil Box) - 1) c) as [[i c1]|]; [|reflexivity].
  unfold bind at 1. unfold index.
  destruct (i <? 0); [reflexivity|]. destruct (Z.to_nat i); reflexivity.
Qed.

Lemma initializeFrom_no_box names nm portal :
  In nm names ->
  lookup nm (portals p) = Some portal ->
  inclusive portal = [] ->
  forall acc c st c',
    initializeFrom rt p names acc c <> Some (Some st, c').
Proof.
  intros Hin Hl He. induction names as [|k rest IH]; [contradiction|].
  intros acc c st c' H. cbn [initializeFrom] in H. unfold bind at 1 in H.
  destruct (lookup k (portals p)) as [q|] eqn:Ek; cbn [lift] in H; [|discriminate].
  unfold ret at 1 in H. unfold bind at 1 in H.
  destruct (String.eqb_spec k nm) as [->|Hne].
  - rewrite Hl in Ek. injection Ek as <-.
    cbn [findInitialPos] in H. unfold bind at 1 in H.
    rewrite (randomPosIn_no_box _ _ He) in H. discriminate.
  - destruct Hin as [->|Hin]; [congruence|].
    destruct (findInitialPos rt q 100 c) as [[[pos|] c1]|];
      [exact (IH Hin _ _ _ _ H) | discriminate | discriminate].
Qed.

(** X11. When some portal has no inclusive box, [initializeState] returns no
    state; when that portal is the first of the problem, it throws, reading
    the corner of an [undefined] box. *)
Theorem initializeState_throws_without_inclusive_box nm portal c :
  lookup nm (portals p) = Some portal ->
  inclusive portal = [] ->
  (forall st c', initializeState rt p c <> Some (Some st, c')) /\
  (forall rest, portals p = (nm, portal) :: rest -> initializeState rt p c = None).
Proof.
  intros Hl He. split.
  - apply (initializeFrom_no_box _ nm portal); auto.
    apply lookup_in_keys. congruence.
  - intros rest Hp. unfold initializeState, portalNames. rewrite Hp.
    cbn [keys map fst initializeFrom]. unfold bind at 1.
    rewrite Hp. cbn [lookup]. rewrite String.eqb_refl.
    cbn [lift]. unfold ret at 1. unfold bind at 1. cbn [findInitialPos].
    unfold bind at 1. rewrite (randomPosIn_no_box _ _ He). reflexivity.
Qed.
End Initialization.

Lemma initializeState_throws_without_inclusive_box_witness :
  (forall st c', initializeState halfRuntime unboxedPortals 0%N <> Some (Some st, c')) /\
  (forall rest,
      portals unboxedPortals = ("A"%string, mkPortal "A" O_DIM FaceX [] []) :: rest ->
      initializeState halfRuntime unboxedPortals 0%N = None).
Proof.
  apply (initializeState_throws_without_inclusive_box halfRuntime unboxedPortals
           "A" (mkPortal "A" O_DIM FaceX [] []) 0%N); reflexivity.
Defined.

Lemma initializeState_gives_solverState_witness :
  solverState twoPortals bothAtCentre /\
  countPosViolations twoPortals bothAtCentre = Some 0.
Proof.
  apply (initializeState_gives_solverState halfRuntime twoPortals 0%N
           bothAtCentre 8%N).
  - repeat constructor; cbn; intuition discriminate.
  - vm_compute; reflexivity.
Defined.

Section NeighbourStates.
Variable rt : Runtime.
Variable tn : Tunables.
Variable p : Problem.
Hypothesis draws : unitDraws rt.

(** X12. For a problem whose box corners are integers (the only boxes this
    embedding has; the parser also stores fractional corners, which are not
    covered), a neighbour that [generateNeighbor] returns is the input with
    one portal placed anew, at a position that satisfies the constraints of
    that portal; every other name keeps its position; and when large jumps
    are off (Stage 2) the new position differs from the old one. *)
Theorem generateNeighbor_moves_one_portal st isStage1 c st' c' :
  wellFormedBoxes p ->
  generateNeighbor rt tn p st isStage1 c = Some (Some st', c') ->
  exists nm portal pos,
    lookup nm (portals p) = Some portal /\
    lookup nm st' = Some pos /\
    satisfiesPositionConstraints portal pos = true /\
    (forall other, other <> nm -> lookup other st' = lookup other st) /\
    (isStage1 = false -> lookup nm st <> Some pos).
Proof.
  intros Hwf H.
  destruct (generateNeighbor_result rt tn p draws st isStage1 c st' c' Hwf H)
    as (nm & portal & pos & Hl & -> & Hs & Hd).
  exists nm, portal, pos. split; [exact Hl|].
  split; [apply lookup_assign_same|]. split; [exact Hs|]. split.
  - intros other Hne. apply lookup_assign_other. exact Hne.
  - intro Hb. destruct (Hd Hb) as (old & Ho & Hne). rewrite Ho. congruence.
Qed.

(** X13. For a problem whose box corners are integers (the only boxes this
    embedding has; the parser also stores fractional corners, which are not
    covered), from a state that places all portals within their constraints
    a neighbour that [generateNeighbor] returns does so too: it has no
    position violation. *)
Theorem generateNeighbor_keeps_solverState st isStage1 c st' c' :
  wellFormedBoxes p ->
  solverState p st ->
  generateNeighbor rt tn p st isStage1 c = Some (Some st', c') ->
  solverState p st' /\ countPosViolations p st' = Some 0.
Proof.
  intros Hwf [Hv Hk] H.
  destruct (generateNeighbor_result rt tn p draws st isStage1 c st' c' Hwf H)
    as (nm & portal & pos & Hl & -> & Hs & _).
  assert (Hv' : Forall (validEntry p) (assign nm pos st))
    by (apply (assign_valid p nm pos portal); assumption).
  split; [split; [exact Hv'|]|].
  - rewrite keys_assign_in; [exact Hk|]. rewrite Hk.
    apply lookup_in_keys. congruence.
  - clear - Hv'. induction Hv' as [|[k v] rest (q & Hl & Hs) _ IH];
      cbn [countPosViolations]; [reflexivity|].
    cbn [fst snd] in Hl, Hs. rewrite Hl, IH, Hs. reflexivity.
Qed.

Lemma randomInt_runs lo hi c :
  randomInt rt lo hi c = Some (randomIntOf (Math_random rt c) lo hi, N.succ c).
Proof. reflexivity. Qed.

Lemma index_in_range {A} (l : list A) i :
  0 <= i < len l -> exists a, index l i = Some a.
Proof.
  intros [H0 H1]. unfold index. destruct (Z.ltb_spec i 0); [lia|].
  destruct (nth_error l (Z.to_nat i)) eqn:E; [eexists; reflexivity|].
  apply nth_error_None in E. unfold len in H1. lia.
Qed.

Lemma random_index {A} (l : list A) c :
  l <> [] ->
  exists a, index l (randomIntOf (Math_random rt c) 0 (len l - 1)) = Some a.
Proof.
  intro Hne. apply index_in_range.
  assert (0 < len l) by (destruct l; [congruence | unfold len; cbn; lia]).
  destruct (draws c) as [H0 H1].
  pose proof (randomIntOf_range _ 0 (len l - 1) H0 H1). lia.
Qed.

Lemma randomPosIn_runs portal c :
  inclusive portal <> [] -> exists pos c', randomPosIn rt portal c = Some (pos, c').
Proof.
  intro Hne. unfold randomPosIn. unfold bind at 1. rewrite randomInt_runs.
  destruct (random_index (inclusive portal) c Hne) as [box ->].
  cbn [lift]. unfold bind at 1. unfold ret at 1.
  unfold bind at 1. rewrite randomInt_runs.
  unfold bind at 1. rewrite randomInt_runs.
  unfold bind at 1. rewrite randomInt_runs.
  unfold ret. eexists. eexists. reflexivity.
Qed.

Lemma largeJump_runs portal nm st n :
  forall c, exists r c', largeJump rt (Some portal) (Some nm) st n c = Some (r, c').
Proof.
  induction n as [|n IH]; intro c; cbn [largeJump].
  - unfold ret. eexists. eexists. reflexivity.
  - unfold bind at 1. cbn [lift]. unfold ret at 1.
    destruct (inclusive portal) as [|b bs] eqn:Ei; cbn [isEmpty].
    + unfold ret. eexists. eexists. reflexivity.
    + unfold bind at 1.
      destruct (randomPosIn_runs portal c) as (pos & c1 & ->); [congruence|].
      destruct (negb _).
      * unfold bind, ret. cbn [lift]. unfold ret. eexists. eexists. reflexivity.
      * apply IH.
Qed.

Lemma smallMove_runs portal nm cur st n :
  forall c, exists r c',
    smallMove rt (Some portal) (Some nm) (Some cur) st n c = Some (r, c').
Proof.
  induction n as [|n IH]; intro c; cbn [smallMove].
  - unfold ret. eexists. eexists. reflexivity.
  - unfold bind at 1. rewrite randomInt_runs.
    unfold bind at 1. rewrite randomInt_runs.
    unfold bind at 1. rewrite randomInt_runs.
    destruct (isZeroMove _); [apply IH|].
    unfold bind at 1. cbn [lift]. unfold ret at 1.
    unfold bind at 1. cbn [lift]. unfold ret at 1.
    destruct (negb _); [apply IH|].
    destruct (existsb _ (exclusive portal)); [apply IH|].
    unfold bind, ret. cbn [lift]. unfold ret. eexists. eexists. reflexivity.
Qed.

Lemma generateNeighbor_runs st isStage1 c :
  portals p <> [] ->
  keys st = portalNames p ->
  exists r c', generateNeighbor rt tn p st isStage1 c = Some (r, c').
Proof.
  intros Hne Hk. unfold generateNeighbor. unfold bind at 1. rewrite randomInt_runs.
  assert (Hn : portalNames p <> []).
  { unfold portalNames, keys. destruct (portals p); [congruence | discriminate]. }
  destruct (random_index (portalNames p) c Hn) as [nm Hi]. rewrite Hi.
  assert (Hin : In nm (portalNames p)).
  { unfold index in Hi. destruct (_ <? 0); [discriminate|].
    eapply nth_error_In; eassumption. }
  destruct (lookup nm (portals p)) as [portal|] eqn:Hp;
    [|apply lookup_in_keys in Hin; congruence].
  destruct (lookup nm st) as [cur|] eqn:Hc;
    [|rewrite <- Hk in Hin; apply lookup_in_keys in Hin; congruence].
  cbn [portalOf posOf]. rewrite Hp, Hc.
  unfold bind at 1.
  destruct isStage1.
  - unfold bind at 1. unfold random at 1. unfold ret at 1.
    destruct (Qlt_bool _ _).
    + unfold bind at 1.
      destruct (largeJump_runs portal nm st 10 (N.succ (N.succ c)))
        as ([s|] & c1 & ->).
      * unfold ret. eexists. eexists. reflexivity.
      * apply smallMove_runs.
    + unfold bind at 1. unfold ret at 1. apply smallMove_runs.
  - unfold ret at 1. unfold bind at 1. unfold ret at 1. apply smallMove_runs.
Qed.

(** X14. When the problem has a portal and the state places exactly the
    portals of the problem, [generateNeighbor] returns, a neighbour or
    [null], in both stages. *)
Theorem generateNeighbor_never_throws st isStage1 c :
  portals p <> [] ->
  keys st = portalNames p ->
  exists r c', generateNeighbor rt tn p st isStage1 c = Some (r, c').
Proof. exact (generateNeighbor_runs st isStage1 c). Qed.
End NeighbourStates.

Lemma generateNeighbor_never_throws_witness :
  exists r c',
    generateNeighbor nudgeRuntime constructorTunables edgePortals atEdge true 0%N
    = Some (r, c').
Proof.
  apply (generateNeighbor_never_throws nudgeRuntime constructorTunables
           edgePortals nudgeRuntime_unitDraws atEdge true 0%N);
    [discriminate | reflexivity].
Defined.

Lemma generateNeighbor_keeps_solverState_witness :
  solverState edgePortals nudged /\ countPosViolations edgePortals nudged = Some 0.
Proof.
  apply (generateNeighbor_keeps_solverState nudgeRuntime constructorTunables
           edgePortals nudgeRuntime_unitDraws atEdge false 0%N nudged 4%N).
  - exact edgePortals_wellFormedBoxes.
  - exact atEdge_solverState.
  - vm_compute; reflexivity.
Defined.

Lemma generateNeighbor_moves_one_portal_witness :
  exists nm portal pos,
    lookup nm (portals edgePortals) = Some portal /\
    lookup nm nudged = Some pos /\
    satisfiesPositionConstraints portal pos = true /\
    (forall other, other <> nm -> lookup other nudged = lookup other atEdge) /\
    (false = false -> lookup nm atEdge <> Some pos).
Proof.
  apply (generateNeighbor_moves_one_portal nudgeRuntime constructorTunables
           edgePortals nudgeRuntime_unitDraws atEdge false 0%N nudged 4%N).
  - exact edgePortals_wellFormedBoxes.
  - vm_compute; reflexivity.
Defined.

Section InitializationRuns.
Variable rt : Runtime.
Variable p : Problem.
Hypothesis draws : unitDraws rt.

Lemma findInitialPos_runs portal n :
  inclusive portal <> [] ->
  forall c, exists r c', findInitialPos rt portal n c = Some (r, c').
Proof.
  intro Hne. induction n as [|n IH]; intro c; cbn [findInitialPos].
  - unfold ret. eexists. eexists. reflexivity.
  - unfold bind at 1.
    destruct (randomPosIn_runs rt draws portal c Hne) as (pos & c1 & ->).
    destruct (satisfiesPositionConstraints portal pos); [|apply IH].
    unfold ret. eexists. eexists. reflexivity.
Qed.

Lemma initializeFrom_runs names :
  (forall nm, In nm names ->
     exists portal, lookup nm (portals p) = Some portal /\ inclusive portal <> []) ->
  forall acc c, exists r c', initializeFrom rt p names acc c = Some (r, c').
Proof.
  induction names as [|nm rest IH]; intros H acc c; cbn [initializeFrom].
  - unfold ret. eexists. eexists. reflexivity.
  - destruct (H nm (or_introl eq_refl)) as (portal & Hl & Hne).
    unfold bind at 1. rewrite Hl. cbn [lift]. unfold ret at 1.
    unfold bind at 1.
    destruct (findInitialPos_runs portal 100 Hne c) as ([pos|] & c1 & ->).
    + apply IH. intros k Hk. apply H. right. exact Hk.
    + unfold ret. eexists. eexists. reflexivity.
Qed.

Lemma initializeState_runs c :
  (forall nm portal, lookup nm (portals p) = Some portal -> inclusive portal <> []) ->
  exists r c', initializeState rt p c = Some (r, c').
Proof.
  intro H. unfold initializeState. apply initializeFrom_runs.
  intros nm Hin. apply lookup_in_keys in Hin.
  destruct (lookup nm (portals p)) as [portal|] eqn:E; [|congruence].
  exists portal. split; [reflexivity | exact (H nm portal E)].
Qed.

(** X15. When every portal has an inclusive box, [initializeState] returns,
    with a state or with [false]. *)
Theorem initializeState_never_throws c :
  (forall nm portal, lookup nm (portals p) = Some portal -> inclusive portal <> []) ->
  exists r c', initializeState rt p c = Some (r, c').
Proof. exact (initializeState_runs c). Qed.
End InitializationRuns.

Lemma initializeState_never_throws_witness :
  exists r c', initializeState halfRuntime twoPortals 0%N = Some (r, c').
Proof.
  apply (initializeState_never_throws halfRuntime twoPortals).
  - exact halfRuntime_unitDraws.
  - intros nm portal H. unfold twoPortals in H. cbn [portals lookup] in H.
    destruct (String.eqb "A" nm); [|destruct (String.eqb "B" nm); [|discriminate]];
      injection H as <-; discriminate.
Defined.

(* ------------------------------------------------------------------ *)
(** ** What [solve] reports *)

Section Tracking.
Variable rt : Runtime.
Variable tn : Tunables.
Variable p : Problem.

Lemma stage1Body_tracked v c v' b c' :
  stage1Tracked p v ->
  stage1Body rt tn p v c = Some ((v', b), c') ->
  stage1Tracked p v' /\ (minViolationsFound v' <= minViolationsFound v)%Q.
Proof.
  intros (Hb & Hc & Hle) H. unfold stage1Body in H. unfold bind at 1 in H.
  destruct (generateNeighbor rt tn p (stage1CurrentState v) true c)
    as [[[nb|] c1]|]; [| |discriminate].
  - unfold bind at 1 in H.
    destruct (calculateCost p nb 0) as [k|] eqn:Ek; cbn [lift] in H; [|discriminate].
    unfold ret at 1 in H. unfold bind at 1 in H.
    destruct (stage1Accept rt tn (k - stage1CurrentCost v) (stage1Temp v) c1)
      as [[acc c2]|]; [|discriminate].
    destruct acc; cbn [andb] in H.
    + destruct (Qlt_bool k (minViolationsFound v)) eqn:Elt;
        cbn [stage1CurrentCost stage1CurrentState stage1Temp feasibleState
             minViolationsFound bestViolationState] in H;
        (destruct (Qeq_bool k 0); unfold ret in H; injection H as <- <- <-;
         unfold stage1Tracked; cbn;
         [ | ]).
      all: try (apply Qlt_bool_iff in Elt).
      all: try (apply Qlt_bool_false_iff in Elt).
      all: repeat split; auto; try apply Qle_refl; try (apply Qlt_le_weak; exact Elt).
    + unfold ret in H. injection H as <- <- <-. unfold stage1Tracked. cbn.
      repeat split; auto. apply Qle_refl.
  - unfold ret in H. injection H as <- <- <-. repeat split; auto. apply Qle_refl.
Qed.

Lemma stage1_loop_tracked n v c v' c' :
  stage1Tracked p v ->
  forLoop n (stage1Body rt tn p) v c = Some (v', c') ->
  stage1Tracked p v' /\ (minViolationsFound v' <= minViolationsFound v)%Q.
Proof.
  intros Hv H.
  refine (forLoop_invariant
            (fun s => stage1Tracked p s /\
                      (minViolationsFound s <= minViolationsFound v)%Q)
            (stage1Body rt tn p) _ n v c v' c' _ H).
  - intros s k s' b k' [Hs Hle] Hbody.
    destruct (stage1Body_tracked _ _ _ _ _ Hs Hbody) as [H1 H2].
    split; [exact H1 | eapply Qle_trans; eassumption].
  - split; [exact Hv | apply Qle_refl].
Qed.

Lemma stage1Attempt_tracked attempt s c s' b c' :
  searchTracked p s ->
  stage1Attempt rt tn p attempt s c = Some ((s', b), c') ->
  searchTracked p s'.
Proof.
  intros Hs H. unfold stage1Attempt in H. unfold bind at 1 in H.
  assert (Hstart : forall s1 c1,
            (if 1 <? attempt
             then bind (initializeState rt p)
                    (fun init => match init with
                                 | Some st =>
                                     bind (lift (calculateCost p st 0))
                                       (fun c0 => ret (Some (mkSearch st st c0
                                                               (searchFeasible s))))
                                 | None => ret None
                                 end)
             else ret (Some s)) c = Some (Some s1, c1) ->
            searchTracked p s1).
  { intros s1 c1 E. destruct (1 <? attempt).
    - unfold bind at 1 in E.
      destruct (initializeState rt p c) as [[[st|] c0]|]; [| |discriminate].
      + unfold bind in E.
        destruct (calculateCost p st 0) as [k|] eqn:Ek; cbn [lift] in E;
          [|discriminate].
        unfold ret in E. injection E as <- <-. exact Ek.
      + unfold ret in E. discriminate.
    - unfold ret in E. injection E as <- <-. exact Hs. }
  destruct (_ c) as [[[s1|] c1]|] eqn:E1 in H; [| |discriminate].
  - specialize (Hstart s1 c1 E1). clear E1.
    unfold bind at 1 in H.
    destruct (calculateCost p (currentState s1) 0) as [cost|] eqn:Ecost;
      cbn [lift] in H; [|discriminate].
    unfold ret at 1 in H.
    assert (Hv0 : stage1Tracked p
                    (if Qlt_bool cost (searchMin s1)
                     then mkStage1 (currentState s1) cost
                            (initialTemperature tn * stage1TempMultiplier tn)
                            cost (currentState s1) None
                     else mkStage1 (currentState s1) cost
                            (initialTemperature tn * stage1TempMultiplier tn)
                            (searchMin s1) (searchBest s1) None)).
    { destruct (Qlt_bool cost (searchMin s1)) eqn:Elt; unfold stage1Tracked; cbn.
      - repeat split; auto. apply Qle_refl.
      - apply Qlt_bool_false_iff in Elt. repeat split; auto. }
    destruct (Qeq_bool cost 0).
    + unfold ret in H. injection H as <- <- <-. exact (proj1 Hv0).
    + unfold bind at 1 in H.
      destruct (forLoop _ _ _ c1) as [[v c2]|] eqn:Eloop in H; [|discriminate].
      destruct (stage1_loop_tracked _ _ _ _ _ Hv0 Eloop) as [(Hb & Hc & Hle) _].
      destruct (feasibleFound v).
      * unfold ret in H. injection H as <- <- <-. exact Hb.
      * destruct (attempt <? stage1MaxAttempts tn).
        -- unfold bind in H. rewrite Hc in H. cbn [lift] in H. unfold ret at 1 in H.
           destruct (Qlt_bool (stage1CurrentCost v) (minViolationsFound v));
             unfold ret in H; injection H as <- <- <-; assumption.
        -- unfold ret in H. injection H as <- <- <-. exact Hb.
  - unfold ret in H. injection H as <- <- <-. exact Hs.
Qed.

Lemma stage1Attempts_tracked n :
  forall attempt s c s' c',
    searchTracked p s ->
    stage1Attempts rt tn p n attempt s c = Some (s', c') ->
    searchTracked p s'.
Proof.
  induction n as [|n IH]; intros attempt s c s' c' Hs H.
  - cbn in H. unfold ret in H. injection H as <- <-. exact Hs.
  - cbn [stage1Attempts] in H. unfold bind in H.
    destruct (stage1Attempt rt tn p attempt s c) as [[[s1 b] c1]|] eqn:E;
      [|discriminate].
    cbn [fst snd] in H. pose proof (stage1Attempt_tracked _ _ _ _ _ _ Hs E) as H1.
    destruct b.
    + unfold ret in H. injection H as <- <-. exact H1.
    + exact (IH _ _ _ _ _ H1 H).
Qed.

Lemma stage2Body_tracked v c v' b c' :
  stage2Tracked p v ->
  stage2Body rt tn p v c = Some ((v', b), c') ->
  stage2Tracked p v' /\ (minCost v' <= minCost v)%Q.
Proof.
  intros (Hb & Hc & Hle).
  assert (Hsame : stage2Tracked p v /\ (minCost v <= minCost v)%Q)
    by (split; [split; [exact Hb | split; [exact Hc | exact Hle]] | apply Qle_refl]).
  unfold stage2Body. unfold bind at 1.
  destruct (generateNeighbor rt tn p (stage2State v) false c)
    as [[[nb|] c1]|]; [| |discriminate].
  - unfold bind at 1.
    destruct (calculateCost p nb 0) as [k|]; cbn [lift]; [|discriminate].
    unfold ret at 1.
    destruct (Qlt_bool 0 k).
    + unfold ret. intro H. injection H as <- <- <-. exact Hsame.
    + unfold bind at 1.
      destruct (calculateCost p nb 1) as [full|] eqn:Ef; cbn [lift];
        [|discriminate].
      unfold ret at 1. unfold bind at 1.
      assert (Hbetter : Qlt_bool full (minCost v) = true ->
                stage2Tracked p (mkStage2 nb full full nb
                                   (temperature v * coolingRate tn)) /\
                (full <= minCost v)%Q).
      { intro Elt. apply Qlt_bool_iff in Elt.
        split; [split; [exact Ef | split; [exact Ef | apply Qle_refl]]
               | apply Qlt_le_weak; exact Elt]. }
      assert (Hother : Qlt_bool full (minCost v) = false ->
                stage2Tracked p (mkStage2 nb full (minCost v) (bestState v)
                                   (temperature v * coolingRate tn)) /\
                (minCost v <= minCost v)%Q).
      { intro Elt. apply Qlt_bool_false_iff in Elt.
        split; [split; [exact Hb | split; [exact Ef | exact Elt]]
               | apply Qle_refl]. }
      assert (Hkept : stage2Tracked p
                        (mkStage2 (stage2State v) (currentFullCost v) (minCost v)
                           (bestState v) (temperature v * coolingRate tn)) /\
                      (minCost v <= minCost v)%Q)
        by (split; [split; [exact Hb | split; [exact Hc | exact Hle]]
                   | apply Qle_refl]).
      destruct (Qlt_bool (full - currentFullCost v) 0).
      * unfold ret at 1.
        destruct (Qlt_bool full (minCost v)) eqn:Elt; unfold ret; intro H;
          injection H as <- <- <-;
          [exact (Hbetter eq_refl) | exact (Hother eq_refl)].
      * unfold bind at 1. unfold random at 1. unfold ret at 1.
        destruct (Qlt_bool (Math_random rt c1) _).
        -- destruct (Qlt_bool full (minCost v)) eqn:Elt; unfold ret; intro H;
             injection H as <- <- <-;
             [exact (Hbetter eq_refl) | exact (Hother eq_refl)].
        -- unfold ret. intro H. injection H as <- <- <-. exact Hkept.
  - unfold ret. intro H. injection H as <- <- <-. exact Hsame.
Qed.

Lemma stage2_loop_tracked n v c v' c' :
  stage2Tracked p v ->
  forLoop n (stage2Body rt tn p) v c = Some (v', c') ->
  stage2Tracked p v' /\ (minCost v' <= minCost v)%Q.
Proof.
  intros Hv H.
  refine (forLoop_invariant
            (fun s => stage2Tracked p s /\ (minCost s <= minCost v)%Q)
            (stage2Body rt tn p) _ n v c v' c' _ H).
  - intros s k s' b k' [Hs Hle] Hbody.
    destruct (stage2Body_tracked _ _ _ _ _ Hs Hbody) as [H1 H2].
    split; [exact H1 | eapply Qle_trans; eassumption].
  - split; [exact Hv | apply Qle_refl].
Qed.
End Tracking.

Lemma zeroCost_withoutViolations p st : zeroCost p st -> withoutViolations p st.
Proof.
  intros (k & Hk & Hz). exists k. split; [exact Hk|].
  apply Qlt_bool_false_iff. apply Qeq_bool_iff in Hz. rewrite Hz. apply Qle_refl.
Qed.

(** What [verifySolution] answers for a state without violations. *)
Lemma verifySolution_withoutViolations p st r :
  withoutViolations p st ->
  verifySolution p st = Some r ->
  r = mkResult (Some st) true "Solution found." [] [].
Proof.
  intros (k & Hk & Hpos) H.
  destruct (calculateCost_0_not_positive _ _ _ Hk Hpos) as [Hl Hp].
  unfold verifySolution in H.
  destruct (collectViolatedPositions p st) as [vp|] eqn:Ep; [|discriminate].
  destruct (collectViolatedLinks p st (desiredLinks p)) as [vl|] eqn:El;
    [|discriminate].
  destruct (forallb _ (optimizationPairs p)); [|discriminate].
  injection H as <-.
  pose proof (collect_links_count _ _ _ _ El) as Hl'.
  pose proof (collect_positions_count _ _ _ Ep) as Hp'.
  rewrite Hl in Hl'. rewrite Hp in Hp'.
  injection Hl' as Hl'. injection Hp' as Hp'.
  symmetry in Hl', Hp'. apply len_zero_iff in Hl', Hp'. subst vl vp.
  reflexivity.
Qed.

(** [verifySolution] always shows the state it was given. *)
Lemma verifySolution_solution p st r :
  verifySolution p st = Some r -> solution r = Some st.
Proof.
  unfold verifySolution.
  destruct (collectViolatedPositions p st) as [vp|]; [|discriminate].
  destruct (collectViolatedLinks p st (desiredLinks p)) as [vl|]; [|discriminate].
  destruct (forallb _ (optimizationPairs p)); [|discriminate].
  intro H. injection H as <-. reflexivity.
Qed.

Section Reports.
Variable rt : Runtime.
Variable tn : Tunables.
Variable p : Problem.

Lemma stage2Body_keeps_clean v c v' b c' :
  stage2Clean p v ->
  stage2Body rt tn p v c = Some ((v', b), c') ->
  stage2Clean p v'.
Proof.
  intros [Hcur Hbest] H. apply stage2Body_cases in H.
  destruct (generateNeighbor rt tn p (stage2State v) false c)
    as [[[nb|] c1]|]; [| |contradiction].
  - destruct (calculateCost p nb 0) as [k|] eqn:Ek; [|contradiction].
    destruct (Qlt_bool 0 k) eqn:Epos.
    + destruct H as (-> & _). split; assumption.
    + assert (Hnb : withoutViolations p nb) by (exists k; split; assumption).
      destruct H as (_ & [[E1 E2]|[E1 [E2|E2]]]); unfold stage2Clean;
        rewrite E1, E2; split; assumption.
  - destruct H as (-> & _). split; assumption.
Qed.

(** Every branch of [finalize] shows the state it was given. *)
Lemma finalize_solution best c r c' :
  finalize p best c = Some (r, c') -> solution r = Some best.
Proof.
  unfold finalize. unfold bind at 1.
  destruct (verifySolution p best) as [fr|] eqn:Ev; cbn [lift]; [|discriminate].
  pose proof (verifySolution_solution _ _ _ Ev) as Hs.
  unfold ret at 1. unfold bind at 1.
  destruct (calculateCost p best 0) as [k|]; cbn [lift]; [|discriminate].
  unfold ret at 1.
  destruct (Qlt_bool 0 k); [|destruct (success fr)]; unfold ret; intro H;
    injection H as <- _; exact Hs.
Qed.

(** From a state without violations, [finalize] can only report success. *)
Lemma finalize_withoutViolations best c r c' :
  withoutViolations p best ->
  finalize p best c = Some (r, c') ->
  r = mkResult (Some best) true "Solution found and optimized." [] [].
Proof.
  intros Hclean. pose proof Hclean as (k & Hk & Hpos).
  unfold finalize. unfold bind at 1.
  destruct (verifySolution p best) as [fr|] eqn:Ev; cbn [lift]; [|discriminate].
  rewrite (verifySolution_withoutViolations _ _ _ Hclean Ev).
  unfold ret at 1. unfold bind at 1. rewrite Hk. cbn [lift]. unfold ret at 1.
  rewrite Hpos. cbn [success solution violatedLinks violatedPositions].
  unfold ret.
  intro H. injection H as <- _. reflexivity.
Qed.

(** Stage 2 as a whole: the state it finalizes, with the invariants of
    its loop. *)
Lemma stage2_finalizes feasible c r c' :
  stage2 rt tn p feasible c = Some (r, c') ->
  exists v c1 full,
    finalize p (bestState v) c1 = Some (r, c') /\
    calculateCost p feasible 1 = Some full /\
    stage2Tracked p v /\ (minCost v <= full)%Q /\
    (withoutViolations p feasible -> stage2Clean p v).
Proof.
  unfold stage2. unfold bind at 1.
  destruct (calculateCost p feasible 1) as [full|] eqn:Ef; cbn [lift];
    [|discriminate].
  unfold ret at 1. unfold bind at 1.
  destruct (forLoop _ (stage2Body rt tn p) _ c) as [[v c1]|] eqn:E;
    [|discriminate].
  intro H. exists v, c1, full. split; [exact H|]. split; [reflexivity|].
  assert (H0 : stage2Tracked p
                 (mkStage2 feasible full full feasible (initialTemperature tn)))
    by (split; [exact Ef | split; [exact Ef | apply Qle_refl]]).
  destruct (stage2_loop_tracked rt tn p _ _ _ _ _ H0 E) as [Ht Hle].
  split; [exact Ht|]. split; [exact Hle|].
  intro Hclean.
  refine (forLoop_invariant (stage2Clean p) (stage2Body rt tn p)
            stage2Body_keeps_clean _ _ _ _ _ _ E).
  split; exact Hclean.
Qed.

(** The three ways [solve] ends, by what is reported. *)
Lemma solve_report c r c' :
  solve rt tn p c = Some (r, c') ->
  r = initializationFailed \/
  (exists best shown links positions,
      r = mkResult (Some best) false
            (stage1FailureMessage (showNumber shown)) links positions /\
      calculateCost p best 0 = Some shown) \/
  (exists best,
      r = mkResult (Some best) true "Solution found and optimized." [] [] /\
      withoutViolations p best).
Proof.
  intro H. unfold solve in H. unfold bind at 1 in H.
  destruct (initializeState rt p c) as [[[st|] c0]|]; [| |discriminate].
  - unfold bind at 1 in H.
    destruct (calculateCost p st 0) as [m|] eqn:Em; cbn [lift] in H;
      [|discriminate].
    unfold ret at 1 in H. unfold bind at 1 in H.
    destruct (stage1Attempts rt tn p _ 1 _ c0) as [[s c1]|] eqn:E1; [|discriminate].
    pose proof (stage1Attempts_feasible rt tn p _ _ (mkSearch st st m None) _ _ _
                  (feasibleIsZero_None p) E1) as Hf.
    assert (Hs0 : searchTracked p (mkSearch st st m None)) by exact Em.
    pose proof (stage1Attempts_tracked rt tn p _ _ _ _ _ _ Hs0 E1) as Hs.
    destruct (searchFeasible s) as [feasible|].
    + right. right.
      specialize (Hf feasible eq_refl). apply zeroCost_withoutViolations in Hf.
      destruct (stage2_finalizes _ _ _ _ H) as (v & c2 & full & Hfin & _ & _ & _ & Hc).
      exists (bestState v). split; [|exact (proj2 (Hc Hf))].
      exact (finalize_withoutViolations _ _ _ _ (proj2 (Hc Hf)) Hfin).
    + right. left. unfold stage1Failure in H. unfold bind at 1 in H.
      destruct (verifySolution p (searchBest s)) as [vr|] eqn:Ev; cbn [lift] in H;
        [|discriminate].
      unfold ret in H. injection H as <- _.
      exists (searchBest s), (searchMin s), (violatedLinks vr), (violatedPositions vr).
      rewrite (verifySolution_solution _ _ _ Ev). split; [reflexivity | exact Hs].
  - left. unfold ret in H. injection H as <- _. reflexivity.
Qed.

End Reports.

(** X16. [solve] ends in one of three reports: initialization failed; Stage
    1 failed, and then the number in the message is the weight-0 cost of the
    state shown; or success with the message of a found and optimized
    solution, and then the state shown violates no link and no position
    constraint. The branch for an internal error is never taken from
    [solve]. *)
Theorem solve_result_forms rt tn p c r c' :
  solve rt tn p c = Some (r, c') ->
  r = initializationFailed \/
  (exists best shown links positions,
      r = mkResult (Some best) false
            (stage1FailureMessage (showNumber shown)) links positions /\
      calculateCost p best 0 = Some shown) \/
  (exists best,
      r = mkResult (Some best) true "Solution found and optimized." [] [] /\
      countLinkViolations p best (desiredLinks p) = Some 0 /\
      countPosViolations p best = Some 0).
Proof.
  intro H. destruct (solve_report rt tn p c r c' H) as [H1|[H2|(best & Hr & k & Hk & Hpos)]].
  - left. exact H1.
  - right. left. exact H2.
  - right. right. exists best. split; [exact Hr|].
    exact (calculateCost_0_not_positive _ _ _ Hk Hpos).
Qed.

Lemma solve_result_forms_witness :
  solve halfRuntime constructorTunables twoPortals 0%N
  = Some (optimized bothAtCentre, 4530008%N) /\
  (optimized bothAtCentre = initializationFailed \/
   (exists best shown links positions,
       optimized bothAtCentre
       = mkResult (Some best) false
           (stage1FailureMessage (showNumber shown)) links positions /\
       calculateCost twoPortals best 0 = Some shown) \/
   (exists best,
       optimized bothAtCentre
       = mkResult (Some best) true "Solution found and optimized." [] [] /\
       countLinkViolations twoPortals best (desiredLinks twoPortals) = Some 0 /\
       countPosViolations twoPortals best = Some 0)).
Proof.
  split; [exact calm_run|].
  exact (solve_result_forms halfRuntime constructorTunables twoPortals 0%N
           (optimized bothAtCentre) 4530008%N calm_run).
Defined.

(** X17. The state that Stage 2 shows has a full cost (weight 1) that is not
    above that of the feasible state it started from. *)
Theorem stage2_never_worsens_full_cost rt tn p feasible c r c' :
  stage2 rt tn p feasible c = Some (r, c') ->
  exists best costBest costStart,
    solution r = Some best /\
    calculateCost p best 1 = Some costBest /\
    calculateCost p feasible 1 = Some costStart /\
    (costBest <= costStart)%Q.
Proof.
  intro H.
  destruct (stage2_finalizes rt tn p _ _ _ _ H)
    as (v & c1 & full & Hfin & Hfull & (Hb & _ & _) & Hle & _).
  exists (bestState v), (minCost v), full.
  split; [exact (finalize_solution p _ _ _ _ Hfin)|].
  split; [exact Hb|]. split; [exact Hfull | exact Hle].
Qed.

Lemma stage2_never_worsens_full_cost_witness :
  exists best costBest costStart,
    solution (optimized nudged) = Some best /\
    calculateCost edgePortals best 1 = Some costBest /\
    calculateCost edgePortals atEdge 1 = Some costStart /\
    (costBest <= costStart)%Q.
Proof.
  exact (stage2_never_worsens_full_cost nudgeRuntime constructorTunables
           edgePortals atEdge 0%N (optimized nudged) 4529853%N nudge_run).
Defined.

(* ------------------------------------------------------------------ *)
(** ** [solve] returns *)

Lemma twoPortals_runnable : runnable twoPortals.
Proof.
  split; [discriminate|]. split; [repeat constructor; cbn; intuition discriminate|].
  split.
  - intros nm portal H. unfold twoPortals in H. cbn [portals lookup] in H.
    destruct (String.eqb "A" nm); [|destruct (String.eqb "B" nm); [|discriminate]];
      injection H as <-; discriminate.
  - split; repeat constructor; cbn; discriminate.
Qed.

Lemma returns_ret {A} (a : A) (post : A -> Prop) c :
  post a -> returns (ret a) post c.
Proof. intro H. exists a, c. split; [reflexivity | exact H]. Qed.

Lemma returns_bind {A B} (m : M A) (f : A -> M B) (mid : A -> Prop)
    (post : B -> Prop) c :
  returns m mid c ->
  (forall a c', mid a -> returns (f a) post c') ->
  returns (bind m f) post c.
Proof.
  intros (a & c' & E & Ha) H. unfold returns, bind. rewrite E.
  exact (H a c' Ha).
Qed.

Lemma returns_bind_lift {A B} (o : option A) (a : A) (f : A -> M B)
    (post : B -> Prop) c :
  o = Some a -> returns (f a) post c -> returns (bind (lift o) f) post c.
Proof. intros -> H. exact H. Qed.

Lemma returns_forLoop {S} (I : S -> Prop) (body : S -> M (S * bool)) :
  (forall s c, I s -> returns (body s) (fun r => I (fst r)) c) ->
  forall n s c, I s -> returns (forLoop n body s) I c.
Proof.
  intros Hbody n. induction n as [|n IH]; intros s c Hs; cbn [forLoop].
  - apply returns_ret. exact Hs.
  - eapply returns_bind; [exact (Hbody s c Hs)|].
    intros [s1 b] c1 H1. cbn [fst snd] in *.
    destruct b; [apply returns_ret; exact H1 | exact (IH s1 c1 H1)].
Qed.

Lemma returns_random rt (post : Q -> Prop) c :
  (forall r, post r) -> returns (random rt) post c.
Proof. intro H. eexists. eexists. split; [reflexivity | apply H]. Qed.

Section Totality.
Variable rt : Runtime.
Variable tn : Tunables.
Variable p : Problem.
Hypothesis draws : unitDraws rt.
Hypothesis ready : runnable p.

(** A returned neighbour places the portals the input places. *)
Lemma generateNeighbor_keys st isStage1 c st' c' :
  generateNeighbor rt tn p st isStage1 c = Some (Some st', c') ->
  exists nm pos, In nm (portalNames p) /\ st' = assign nm pos st.
Proof.
  intro H. unfold generateNeighbor in H. unfold bind at 1 in H.
  destruct (randomInt rt 0 (len (portalNames p) - 1) c) as [[i c1]|]; [|discriminate].
  unfold bind at 1 in H.
  destruct (_ c1) as [[jump c2]|] eqn:Ejump in H; [|discriminate].
  unfold bind at 1 in H.
  destruct (_ c2) as [[jumped c3]|] eqn:Ejumped in H; [|discriminate].
  assert (Hin : forall nm portal,
             portalOf p (index (portalNames p) i) = Some portal ->
             index (portalNames p) i = Some nm -> In nm (portalNames p)).
  { intros nm portal _ Hi. unfold index in Hi.
    destruct (i <? 0); [discriminate|]. eapply nth_error_In; eassumption. }
  destruct jumped as [s|].
  - unfold ret in H. injection H as <- <-.
    destruct jump; [|unfold ret in Ejumped; discriminate].
    apply (largeJump_result rt draws) in Ejumped.
    destruct Ejumped as (portal' & nm & pos & Hp & Hn & -> & _).
    exists nm, pos. split; [exact (Hin nm portal' Hp Hn) | reflexivity].
  - apply smallMove_result in H.
    destruct H as (portal' & nm & old & pos & Hp & Hn & _ & -> & _).
    exists nm, pos. split; [exact (Hin nm portal' Hp Hn) | reflexivity].
Qed.

Lemma placesAll_wellPosed st : placesAll p st -> wellPosed p st.
Proof.
  intro Hk. destruct ready as (_ & _ & _ & Hlinks & Hgoals).
  assert (Hplaced : forall nm, lookup nm (portals p) <> None -> known p st nm).
  { intros nm H. split; [exact H|]. apply lookup_in_keys. rewrite Hk.
    apply lookup_in_keys. exact H. }
  split; [|split].
  - unfold placedPortals. apply Forall_forall. intros [k v] Hin.
    cbn [fst]. apply lookup_in_keys. fold (portalNames p). rewrite <- Hk.
    unfold keys. apply in_map_iff. exists (k, v). split; [reflexivity | exact Hin].
  - eapply Forall_impl; [|exact Hlinks]. intros l [Hs Hd].
    split; [exact (Hplaced _ Hs) | exact Hd].
  - eapply Forall_impl; [|exact Hgoals]. intros [a b w|a t w]; cbn.
    + intros [Ha Hb]. split; apply Hplaced; assumption.
    + apply Hplaced.
Qed.

Lemma calculateCost_returns st w :
  placesAll p st -> exists k, calculateCost p st w = Some k.
Proof.
  intro H. exact (proj1 (wellPosed_runs p st (placesAll_wellPosed st H)) w).
Qed.

Lemma verifySolution_returns st :
  placesAll p st -> exists r, verifySolution p st = Some r.
Proof.
  intro H. exact (proj2 (wellPosed_runs p st (placesAll_wellPosed st H))).
Qed.

Lemma generateNeighbor_returns st isStage1 c :
  placesAll p st ->
  returns (generateNeighbor rt tn p st isStage1)
          (fun r => forall st', r = Some st' -> placesAll p st') c.
Proof.
  intro Hk. destruct ready as (Hne & _).
  destruct (generateNeighbor_runs rt tn p draws st isStage1 c Hne Hk)
    as (r & c' & E).
  exists r, c'. split; [exact E|]. intros st' ->.
  destruct (generateNeighbor_keys _ _ _ _ _ E) as (nm & pos & Hin & ->).
  unfold placesAll. rewrite keys_assign_in; [exact Hk|]. rewrite Hk. exact Hin.
Qed.

Lemma initializeState_returns c :
  returns (initializeState rt p)
          (fun r => forall st, r = Some st -> placesAll p st) c.
Proof.
  destruct ready as (_ & Hnd & Hinc & _).
  destruct (initializeState_runs rt p draws c Hinc) as (r & c' & E).
  exists r, c'. split; [exact E|]. intros st ->.
  unfold initializeState in E.
  exact (proj2 (initializeFrom_valid rt p _ [] c st c' (Forall_nil _) Hnd E)).
Qed.

Lemma stage1Accept_returns deltaCost temp c :
  returns (stage1Accept rt tn deltaCost temp) (fun _ => True) c.
Proof.
  unfold stage1Accept.
  destruct (Qlt_bool deltaCost 0); [apply returns_ret; exact I|].
  destruct (Qeq_bool deltaCost 0);
    (eapply returns_bind; [apply returns_random with (post := fun _ => True); auto|]);
    intros; apply returns_ret; exact I.
Qed.

Lemma stage1Body_returns v c :
  stage1Places p v ->
  returns (stage1Body rt tn p v) (fun r => stage1Places p (fst r)) c.
Proof.
  intros (Hcur & Hbest & Hfeas). unfold stage1Body.
  eapply returns_bind; [exact (generateNeighbor_returns _ true c Hcur)|].
  intros [nb|] c1 Hnb; [|apply returns_ret; repeat split; assumption].
  specialize (Hnb nb eq_refl).
  destruct (calculateCost_returns nb 0 Hnb) as [k Ek].
  eapply returns_bind_lift; [exact Ek|].
  eapply returns_bind; [apply stage1Accept_returns|].
  intros acceptMove c2 _.
  destruct acceptMove; cbn [andb].
  - destruct (Qlt_bool k (minViolationsFound v));
      cbn [stage1CurrentState stage1CurrentCost stage1Temp minViolationsFound
           bestViolationState feasibleState];
      (destruct (Qeq_bool k 0); apply returns_ret; cbn [fst];
       repeat split; cbn [stage1CurrentState bestViolationState feasibleState];
       try assumption; intros f Hf; try (injection Hf as <-; assumption);
       exact (Hfeas f Hf)).
  - apply returns_ret. cbn [fst]. repeat split; assumption.
Qed.

Lemma stage1Attempt_returns attempt s c :
  searchPlaces p s ->
  returns (stage1Attempt rt tn p attempt s) (fun r => searchPlaces p (fst r)) c.
Proof.
  intros (Hcur & Hbest & Hfeas). unfold stage1Attempt.
  eapply returns_bind with
    (mid := fun started => forall s1, started = Some s1 -> searchPlaces p s1).
  - destruct (1 <? attempt).
    + eapply returns_bind; [apply initializeState_returns|].
      intros [st|] c1 Hst.
      * specialize (Hst st eq_refl).
        destruct (calculateCost_returns st 0 Hst) as [k Ek].
        eapply returns_bind_lift; [exact Ek|]. apply returns_ret.
        intros s1 E. injection E as <-. repeat split; assumption.
      * apply returns_ret. intros s1 E. discriminate.
    + apply returns_ret. intros s1 E. injection E as <-. repeat split; assumption.
  - intros [s1|] c1 Hs1; [|apply returns_ret; repeat split; assumption].
    destruct (Hs1 s1 eq_refl) as (Hcur1 & Hbest1 & Hfeas1).
    destruct (calculateCost_returns (currentState s1) 0 Hcur1) as [cost Ecost].
    eapply returns_bind_lift; [exact Ecost|].
    assert (Hv0 : stage1Places p
              (if Qlt_bool cost (searchMin s1)
               then mkStage1 (currentState s1) cost
                      (initialTemperature tn * stage1TempMultiplier tn) cost
                      (currentState s1) None
               else mkStage1 (currentState s1) cost
                      (initialTemperature tn * stage1TempMultiplier tn)
                      (searchMin s1) (searchBest s1) None)).
    { destruct (Qlt_bool cost (searchMin s1)); repeat split; try assumption;
        intros f Hf; discriminate. }
    destruct (Qeq_bool cost 0).
    + apply returns_ret. cbn [fst]. destruct Hv0 as (_ & Hb0 & _).
      repeat split; try assumption. intros f Hf. injection Hf as <-. exact Hcur1.
    + eapply returns_bind;
        [exact (returns_forLoop (stage1Places p) (stage1Body rt tn p)
                  stage1Body_returns _ _ c1 Hv0)|].
      intros v c2 (Hvc & Hvb & Hvf). unfold feasibleFound.
      destruct (feasibleState v) as [f|] eqn:Ef.
      * apply returns_ret. cbn [fst].
        split; [exact Hcur1 | split; [exact Hvb|]].
        exact Hvf.
      * destruct (attempt <? stage1MaxAttempts tn).
        -- destruct (calculateCost_returns (stage1CurrentState v) 0 Hvc) as [k Ek].
           eapply returns_bind_lift; [exact Ek|].
           destruct (Qlt_bool k (minViolationsFound v)); apply returns_ret;
             cbn [fst]; repeat split; assumption.
        -- apply returns_ret. cbn [fst]. repeat split; assumption.
Qed.

Lemma stage1Attempts_returns n :
  forall attempt s c,
    searchPlaces p s ->
    returns (stage1Attempts rt tn p n attempt s) (searchPlaces p) c.
Proof.
  induction n as [|n IH]; intros attempt s c Hs; cbn [stage1Attempts].
  - apply returns_ret. exact Hs.
  - eapply returns_bind; [exact (stage1Attempt_returns attempt s c Hs)|].
    intros [s1 b] c1 H1. cbn [fst snd] in *.
    destruct b; [apply returns_ret; exact H1 | exact (IH _ s1 c1 H1)].
Qed.

Lemma stage2Body_returns v c :
  stage2Places p v ->
  returns (stage2Body rt tn p v) (fun r => stage2Places p (fst r)) c.
Proof.
  intros (Hcur & Hbest). unfold stage2Body.
  eapply returns_bind; [exact (generateNeighbor_returns _ false c Hcur)|].
  intros [nb|] c1 Hnb; [|apply returns_ret; split; assumption].
  specialize (Hnb nb eq_refl).
  destruct (calculateCost_returns nb 0 Hnb) as [k Ek].
  eapply returns_bind_lift; [exact Ek|].
  destruct (Qlt_bool 0 k); [apply returns_ret; split; assumption|].
  destruct (calculateCost_returns nb 1 Hnb) as [full Efull].
  eapply returns_bind_lift; [exact Efull|].
  eapply returns_bind with (mid := fun _ => True).
  - destruct (Qlt_bool (full - currentFullCost v) 0); [apply returns_ret; exact I|].
    eapply returns_bind; [apply returns_random with (post := fun _ => True); auto|].
    intros; apply returns_ret; exact I.
  - intros acceptMove c2 _. apply returns_ret. cbn [fst].
    destruct acceptMove; [destruct (Qlt_bool full (minCost v))|];
      split; assumption.
Qed.

Lemma finalize_returns best c :
  placesAll p best -> returns (finalize p best) (fun _ => True) c.
Proof.
  intro H. unfold finalize.
  destruct (verifySolution_returns best H) as [fr Efr].
  eapply returns_bind_lift; [exact Efr|].
  destruct (calculateCost_returns best 0 H) as [k Ek].
  eapply returns_bind_lift; [exact Ek|].
  destruct (Qlt_bool 0 k); [|destruct (success fr)]; apply returns_ret; exact I.
Qed.

Lemma solve_returns c : returns (solve rt tn p) (fun _ => True) c.
Proof.
  unfold solve.
  eapply returns_bind; [apply initializeState_returns|].
  intros [st|] c0 Hst; [|apply returns_ret; exact I].
  specialize (Hst st eq_refl).
  destruct (calculateCost_returns st 0 Hst) as [m Em].
  eapply returns_bind_lift; [exact Em|].
  eapply returns_bind.
  - apply stage1Attempts_returns. repeat split; try assumption.
    intros f Hf. discriminate.
  - intros s c1 (_ & Hbest & Hfeas).
    destruct (searchFeasible s) as [feasible|].
    + specialize (Hfeas feasible eq_refl). unfold stage2.
      destruct (calculateCost_returns feasible 1 Hfeas) as [full Efull].
      eapply returns_bind_lift; [exact Efull|].
      eapply returns_bind.
      * apply (returns_forLoop (stage2Places p) (stage2Body rt tn p)
                 stage2Body_returns).
        split; exact Hfeas.
      * intros v c2 (_ & Hb). apply finalize_returns. exact Hb.
    + unfold stage1Failure.
      destruct (verifySolution_returns (searchBest s) Hbest) as [vr Evr].
      eapply returns_bind_lift; [exact Evr|]. apply returns_ret. exact I.
Qed.

End Totality.

(** X18. For draws in [0, 1) and a runnable problem (a portal exists, names
    are distinct, every portal has an inclusive box, links and goals name
    portals of the problem), [solve] returns a result whatever the draws and
    the tunables: no portal, position or box it looks up is [undefined]. *)
Theorem solve_never_throws rt tn p c :
  unitDraws rt -> runnable p -> exists r c', solve rt tn p c = Some (r, c').
Proof.
  intros Hd Hp. destruct (solve_returns rt tn p Hd Hp c) as (r & c' & E & _).
  exists r, c'. exact E.
Qed.

Lemma solve_never_throws_witness :
  exists r c', solve halfRuntime constructorTunables twoPortals 0%N = Some (r, c').
Proof.
  apply (solve_never_throws halfRuntime constructorTunables twoPortals 0%N);
    [exact halfRuntime_unitDraws | exact twoPortals_runnable].
Defined.

(* ------------------------------------------------------------------ *)
(** ** A problem without portals *)

Lemma index_nil {A} i : index (@nil A) i = None.
Proof. unfold index. destruct (i <? 0); [reflexivity|]. destruct (Z.to_nat i); reflexivity. Qed.

Section WithoutPortals.
Variable rt : Runtime.
Variable tn : Tunables.
Variable p : Problem.
Hypothesis none : portals p = [].

(** Adding a move that is not zero to an [undefined] position throws. *)
Lemma smallMove_undefined portal nm st n c :
  isZeroMove (firstMove rt c) = false ->
  smallMove rt portal nm None st (S n) c = None.
Proof.
  intro Hmove. cbn [smallMove].
  unfold bind at 1. rewrite randomInt_runs.
  unfold bind at 1. rewrite randomInt_runs.
  unfold bind at 1. rewrite randomInt_runs.
  unfold firstMove in Hmove. cbv zeta in Hmove. rewrite Hmove. reflexivity.
Qed.

(** With no portal to choose, the chosen name, its portal object and its
    position are [undefined]. *)
Lemma generateNeighbor_without_portals st c :
  isZeroMove (firstMove rt (N.succ c)) = false ->
  generateNeighbor rt tn p st false c = None.
Proof.
  intro Hmove. unfold generateNeighbor, portalNames. rewrite none.
  unfold bind at 1. rewrite randomInt_runs. cbn [keys map]. rewrite index_nil.
  cbn [portalOf posOf]. unfold bind at 1. unfold ret at 1.
  unfold bind at 1. unfold ret at 1.
  exact (smallMove_undefined None None st 49 (N.succ c) Hmove).
Qed.

Lemma initializeState_without_portals c :
  initializeState rt p c = Some (Some [], c).
Proof. unfold initializeState, portalNames. rewrite none. reflexivity. Qed.

(** The empty state costs nothing at weight 0, unless a link makes the
    cost throw. *)
Lemma calculateCost_without_portals m :
  calculateCost p [] 0 = Some m -> Qeq_bool m 0 = true.
Proof.
  rewrite calculateCost_0_counts.
  destruct (desiredLinks p) as [|l rest]; cbn [countLinkViolations countPosViolations].
  - intro H. injection H as <-. reflexivity.
  - unfold checkActualLink. rewrite none. cbn [lookup]. discriminate.
Qed.

(** X19. On a problem without portals [solve] throws as soon as Stage 2
    draws a move that is not zero: initialization returns the empty state,
    Stage 1 takes it as feasible at once, and the first neighbour generation
    of Stage 2 adds the move to the position of an [undefined] portal. *)
Theorem solve_throws_without_portals c :
  0 < stage1MaxAttempts tn -> 0 < stage2Iterations tn ->
  isZeroMove (firstMove rt (N.succ c)) = false ->
  solve rt tn p c = None.
Proof.
  intros Hattempts Hiterations Hmove. unfold solve. unfold bind at 1.
  rewrite initializeState_without_portals. unfold bind at 1.
  destruct (calculateCost p [] 0) as [m|] eqn:Em; cbn [lift]; [|reflexivity].
  pose proof (calculateCost_without_portals m Em) as Hzero.
  unfold ret at 1. unfold bind at 1.
  destruct (Z.to_nat (stage1MaxAttempts tn)) as [|n] eqn:En; [lia|].
  cbn [stage1Attempts]. unfold bind at 1.
  unfold stage1Attempt. change (1 <? 1) with false. cbv iota.
  unfold bind at 1. unfold ret at 1. cbn [currentState].
  unfold bind at 1. rewrite Em. cbn [lift]. unfold ret at 1.
  rewrite Hzero. unfold ret at 1. cbn [fst snd]. unfold ret at 1.
  cbn [searchFeasible]. unfold stage2. unfold bind at 1.
  destruct (calculateCost p [] 1) as [full|]; cbn [lift]; [|reflexivity].
  unfold ret at 1. unfold bind at 1.
  destruct (Z.to_nat (stage2Iterations tn)) as [|k] eqn:Ek; [lia|].
  cbn [forLoop]. unfold bind at 1. unfold stage2Body. unfold bind at 1.
  cbn [stage2State]. rewrite (generateNeighbor_without_portals [] c Hmove).
  reflexivity.
Qed.

End WithoutPortals.

Lemma solve_throws_without_portals_witness :
  solve zeroRuntime constructorTunables noPortals 0%N = None.
Proof.
  apply (solve_throws_without_portals zeroRuntime constructorTunables noPortals
           eq_refl 0%N); reflexivity.
Defined.

(* ------------------------------------------------------------------ *)
(** ** js/parser.js: the problems it returns *)

Lemma Forall_assign {V} (P : string * V -> Prop) nm (v : V) obj :
  Forall P obj -> P (nm, v) -> Forall P (assign nm v obj).
Proof.
  intros H Hv. induction H as [|[k w] rest Hk Hrest IH]; cbn [assign].
  - constructor; [exact Hv | constructor].
  - destruct (String.eqb_spec k nm) as [->|Hne]; constructor; assumption.
Qed.

Lemma lookup_Forall {V} (P : string * V -> Prop) nm (v : V) obj :
  Forall P obj -> lookup nm obj = Some v -> P (nm, v).
Proof.
  intros H. induction H as [|[k w] rest Hk Hrest IH]; cbn [lookup]; [discriminate|].
  destruct (String.eqb_spec k nm) as [->|Hne]; [|exact IH].
  intro E. injection E as <-. exact Hk.
Qed.

Module ParsedProblemFacts.
Import Parser ParsedProblems.

Lemma extends_refl pr : extends pr pr.
Proof. intros nm d H. exact H. Qed.

Lemma declared_extends pr pr' nm : extends pr pr' -> declared pr nm -> declared pr' nm.
Proof.
  intros He H. unfold declared in *. destruct (dimOf pr nm) as [d|] eqn:E; [|congruence].
  rewrite (He nm d E). discriminate.
Qed.

Lemma linkWellFormed_extends pr pr' l :
  extends pr pr' -> linkWellFormed pr l -> linkWellFormed pr' l.
Proof.
  intros He (d1 & d2 & H1 & H2 & Hne). exists d1, d2.
  split; [exact (He _ _ H1) | split; [exact (He _ _ H2) | exact Hne]].
Qed.

Lemma constraintWellFormed_extends pr pr' c :
  extends pr pr' -> constraintWellFormed pr c -> constraintWellFormed pr' c.
Proof. intros He [H1 H2]. split; [exact (declared_extends _ _ _ He H1) | exact H2]. Qed.

Lemma goalWellFormed_extends pr pr' g :
  extends pr pr' -> goalWellFormed pr g -> goalWellFormed pr' g.
Proof.
  intros He. destruct g as [a b w|a t w]; cbn.
  - intros (Ha & Hb & Hw). repeat split; try assumption;
      eapply declared_extends; eassumption.
  - intros (Ha & Hw). split; [eapply declared_extends; eassumption | exact Hw].
Qed.

(** A portal object changed in place keeps its dimension when the change
    does. *)
Lemma dimOf_updatePortal pr nm f k :
  (forall e, pdim (f e) = pdim e) ->
  dimOf (updatePortal pr nm f) k = dimOf pr k.
Proof.
  intro Hf. unfold updatePortal, dimOf.
  destruct (lookup nm (portals pr)) as [e|] eqn:E; [|reflexivity].
  cbn [portals setPortals].
  destruct (String.eqb_spec k nm) as [->|Hne].
  - rewrite lookup_assign_same, E. cbn. rewrite Hf. reflexivity.
  - rewrite lookup_assign_other by exact Hne. reflexivity.
Qed.

Lemma updatePortal_entries pr nm f :
  Forall entryWellFormed (portals pr) ->
  (forall e, entryWellFormed (nm, e) -> entryWellFormed (nm, f e)) ->
  Forall entryWellFormed (portals (updatePortal pr nm f)).
Proof.
  intros H Hf. unfold updatePortal.
  destruct (lookup nm (portals pr)) as [e|] eqn:E; [|exact H].
  cbn [portals setPortals]. apply Forall_assign; [exact H|].
  apply Hf. exact (lookup_Forall _ _ _ _ H E).
Qed.

Lemma has_app names nm k :
  has (names ++ [nm]) k = has names k || String.eqb k nm.
Proof.
  unfold has. rewrite existsb_app. cbn [existsb]. rewrite orb_false_r. reflexivity.
Qed.

Lemma vecGt_false a b :
  vecGt a b = false ->
  (vx a <= vx b)%Q /\ (vy a <= vy b)%Q /\ (vz a <= vz b)%Q.
Proof.
  unfold vecGt. intro H. apply orb_false_iff in H. destruct H as [H Hz].
  apply orb_false_iff in H. destruct H as [Hx Hy].
  repeat split; apply Qlt_bool_false_iff; assumption.
Qed.

Section WithBuiltins.
Variable parseFloat : string -> option Q.
Variable Number : string -> option Q.

Lemma weightOf_nonneg w v : weightOf parseFloat w = Some v -> (0 <= v)%Q.
Proof.
  unfold weightOf. destruct w as [s|].
  - destruct (parseFloat s) as [q|]; [|discriminate].
    destruct (Qlt_bool q 0) eqn:E; [discriminate|].
    intro H. injection H as <-. apply Qlt_bool_false_iff. exact E.
  - intro H. injection H as <-. discriminate.
Qed.

Lemma caseEntitySize_consistent parts st st' :
  consistent st -> caseEntitySize parseFloat parts st = inr st' -> consistent st'.
Proof.
  destruct st as [pr names]. intros [Hn (Hsize & Hrest)] H. unfold caseEntitySize in H.
  destruct parts as [|p0 [|a [|b rest]]]; try discriminate.
  destruct (parseFloat a) as [v|]; [|discriminate].
  destruct (Qle_bool v 0) eqn:E; [discriminate|]. injection H as <-.
  split; [exact Hn|]. split; [|exact Hrest]. cbn [fst entitySize setEntitySize].
  apply Qnot_le_lt. intro Hle. apply Qle_bool_iff in Hle. congruence.
Qed.

Lemma casePortal_consistent parts st st' :
  consistent st -> casePortal parts st = inr st' -> consistent st'.
Proof.
  destruct st as [pr names].
  intros [Hn (Hsize & Hentries & Hlinks & Hcons & Hgoals)] H.
  cbn [fst snd] in *. unfold casePortal in H.
  destruct parts as [|p0 [|nm [|d [|f [|x rest]]]]]; try discriminate.
  destruct (has names nm) eqn:Ehas; [discriminate|].
  destruct (dimOfString d) as [d'|]; [|discriminate].
  destruct (faceOfString f) as [f'|]; [|discriminate].
  injection H as <-.
  assert (Hfresh : dimOf pr nm = None).
  { destruct (dimOf pr nm) eqn:E; [|reflexivity].
    assert (Hd : declared pr nm) by (unfold declared; congruence).
    apply Hn in Hd. congruence. }
  set (pr' := setPortals pr
                (assign nm (mkPortalEntry nm d' f' (vec3 0 0 0)%Q [] [] [])
                   (portals pr))).
  assert (Hsame : dimOf pr' nm = Some d').
  { unfold dimOf, pr'. cbn [portals setPortals]. rewrite lookup_assign_same.
    reflexivity. }
  assert (Hother : forall k, k <> nm -> dimOf pr' k = dimOf pr k).
  { intros k Hk. unfold dimOf, pr'. cbn [portals setPortals].
    rewrite lookup_assign_other by exact Hk. reflexivity. }
  assert (Hext : extends pr pr').
  { intros k dk Hk. destruct (String.eqb_spec k nm) as [->|Hne]; [congruence|].
    rewrite (Hother k Hne). exact Hk. }
  split; cbn [fst snd].
  - intro k. rewrite has_app. unfold declared.
    destruct (String.eqb_spec k nm) as [->|Hne].
    + rewrite orb_true_r, Hsame. split; [discriminate | reflexivity].
    + rewrite orb_false_r, (Hother k Hne). apply Hn.
  - split; [exact Hsize|]. split; [|split; [|split]].
    + unfold pr'. cbn [portals setPortals]. apply Forall_assign; [exact Hentries|].
      repeat split; constructor.
    + eapply Forall_impl; [|exact Hlinks]. intro l.
      apply linkWellFormed_extends. exact Hext.
    + eapply Forall_impl; [|exact Hcons]. intro c0.
      apply constraintWellFormed_extends. exact Hext.
    + eapply Forall_impl; [|exact Hgoals]. intro g.
      apply goalWellFormed_extends. exact Hext.
Qed.

(** What the two in-place changes of a portal object have in common. *)
Lemma updatePortal_consistent pr names nm f links cons goals :
  consistent (pr, names) ->
  (forall e, pdim (f e) = pdim e) ->
  (forall e, entryWellFormed (nm, e) -> entryWellFormed (nm, f e)) ->
  Forall (linkWellFormed pr) links ->
  Forall (constraintWellFormed pr) cons ->
  Forall (goalWellFormed pr) goals ->
  consistent
    (updatePortal (mkParsed (entitySize pr) (portals pr) cons links goals) nm f,
     names).
Proof.
  intros [Hn (Hsize & Hentries & _)] Hdim Hentry Hlinks Hcons Hgoals.
  cbn [fst snd] in *.
  set (pr0 := mkParsed (entitySize pr) (portals pr) cons links goals).
  assert (Hd : forall k, dimOf (updatePortal pr0 nm f) k = dimOf pr k).
  { intro k. rewrite (dimOf_updatePortal pr0 nm f k Hdim). reflexivity. }
  assert (Hext : extends pr (updatePortal pr0 nm f)).
  { intros k d Hk. rewrite Hd. exact Hk. }
  assert (Hfields : entitySize (updatePortal pr0 nm f) = entitySize pr /\
                    desiredLinks (updatePortal pr0 nm f) = links /\
                    positionConstraints (updatePortal pr0 nm f) = cons /\
                    optimizationPairs (updatePortal pr0 nm f) = goals).
  { unfold updatePortal. destruct (lookup nm (portals pr0)); repeat split. }
  destruct Hfields as (E1 & E2 & E3 & E4).
  split; cbn [fst snd].
  - intro k. unfold declared. rewrite Hd. apply Hn.
  - unfold wellFormed. rewrite E1, E2, E3, E4.
    split; [exact Hsize|]. split; [|split; [|split]].
    + apply updatePortal_entries; [exact Hentries | exact Hentry].
    + eapply Forall_impl; [|exact Hlinks]. intro l.
      apply linkWellFormed_extends. exact Hext.
    + eapply Forall_impl; [|exact Hcons]. intro c0.
      apply constraintWellFormed_extends. exact Hext.
    + eapply Forall_impl; [|exact Hgoals]. intro g.
      apply goalWellFormed_extends. exact Hext.
Qed.

Lemma casePos_consistent parts st st' :
  consistent st -> casePos Number parts st = inr st' -> consistent st'.
Proof.
  destruct st as [pr names]. intros Hst H. pose proof Hst as [Hn Hwf].
  destruct Hwf as (Hsize & Hentries & Hlinks & Hcons & Hgoals).
  cbn [fst snd] in *. unfold casePos in H.
  destruct parts as [|p0 [|nm [|ty [|a [|b [|c [|d [|e [|f [|x rest]]]]]]]]]];
    try discriminate.
  destruct (has names nm) eqn:Ehas; cbn [negb] in H; [|discriminate].
  destruct (typeOfString (toUpperCase ty)) as [ty'|]; [|discriminate].
  destruct (numbers Number [a; b; c; d; e; f])
    as [[|c0 [|c1 [|c2 [|c3 [|c4 [|c5 [|c6 more]]]]]]]|]; try discriminate.
  destruct (vecGt (vec3 c0 c1 c2) (vec3 c3 c4 c5)) eqn:Egt; [discriminate|].
  injection H as <-.
  pose proof (vecGt_false _ _ Egt) as Hord. cbn [vx vy vz] in Hord.
  set (constraint := mkConstraint nm ty' (vec3 c0 c1 c2) (vec3 c3 c4 c5)).
  assert (Hdecl : declared pr nm) by (apply Hn; exact Ehas).
  apply (updatePortal_consistent pr names nm _ (desiredLinks pr)
           (positionConstraints pr ++ [constraint]) (optimizationPairs pr) Hst).
  - intro e0. destruct ty'; reflexivity.
  - intros e0 (Hname & Hinc & Hexc). cbn [fst snd] in *.
    destruct ty'; (split; [exact Hname|]); cbn [cinclusive cexclusive];
      (split; [|try exact Hexc]); try exact Hinc;
      apply Forall_app; (split; [assumption|]);
      constructor; [|constructor | |constructor];
      (split; [reflexivity | split; [reflexivity | exact Hord]]).
  - exact Hlinks.
  - apply Forall_app. split; [exact Hcons|].
    constructor; [|constructor]. split; [exact Hdecl | exact Hord].
  - exact Hgoals.
Qed.

Lemma sameDim_None pr a b :
  declared pr a -> declared pr b -> sameDim pr a b = None ->
  exists d1 d2, dimOf pr a = Some d1 /\ dimOf pr b = Some d2 /\ d1 <> d2.
Proof.
  unfold declared, dimOf, sameDim.
  destruct (lookup a (portals pr)) as [ea|]; cbn; [|congruence].
  destruct (lookup b (portals pr)) as [eb|]; cbn; [|congruence].
  intros _ _ H. exists (pdim ea), (pdim eb).
  split; [reflexivity | split; [reflexivity|]].
  destruct (Dimension_eqb_spec (pdim ea) (pdim eb)); [discriminate | assumption].
Qed.

Lemma caseLink_consistent parts st st' :
  consistent st -> caseLink parts st = inr st' -> consistent st'.
Proof.
  destruct st as [pr names]. intros Hst H. pose proof Hst as [Hn Hwf].
  destruct Hwf as (Hsize & Hentries & Hlinks & Hcons & Hgoals).
  cbn [fst snd] in *. unfold caseLink in H.
  destruct parts as [|p0 [|src [|dst [|x rest]]]]; try discriminate.
  destruct (has names src) eqn:Esrc; cbn [negb] in H; [|discriminate].
  destruct (has names dst) eqn:Edst; cbn [negb] in H; [|discriminate].
  destruct (sameDim pr src dst) as [d|] eqn:Esame; [discriminate|].
  injection H as <-.
  apply (updatePortal_consistent pr names src _ (desiredLinks pr ++ [mkLink src dst])
           (positionConstraints pr) (optimizationPairs pr) Hst).
  - reflexivity.
  - intros e0 H0. exact H0.
  - apply Forall_app. split; [exact Hlinks|]. constructor; [|constructor].
    apply sameDim_None; [apply Hn; exact Esrc | apply Hn; exact Edst | exact Esame].
  - exact Hcons.
  - exact Hgoals.
Qed.

Lemma pushPair_consistent pr names g :
  consistent (pr, names) -> goalWellFormed pr g ->
  consistent (pushPair pr g, names).
Proof.
  intros [Hn (Hsize & Hentries & Hlinks & Hcons & Hgoals)] Hg.
  split; [exact Hn|]. cbn [fst] in *.
  split; [exact Hsize|]. split; [exact Hentries|]. split; [exact Hlinks|].
  split; [exact Hcons|]. cbn [optimizationPairs pushPair].
  apply Forall_app. split; [exact Hgoals|]. constructor; [exact Hg | constructor].
Qed.

Lemma optimizeWith_consistent a b w st st' :
  consistent st -> optimizeWith parseFloat a b w st = inr st' -> consistent st'.
Proof.
  destruct st as [pr names]. intros Hst H. pose proof Hst as [Hn _].
  cbn [fst snd] in Hn. unfold optimizeWith in H.
  destruct (has names a) eqn:Ea; cbn [negb] in H; [|discriminate].
  destruct (has names b) eqn:Eb; cbn [negb] in H; [|discriminate].
  destruct (weightOf parseFloat w) as [v|] eqn:Ew; [|discriminate].
  injection H as <-. apply pushPair_consistent; [exact Hst|].
  split; [apply Hn; exact Ea | split; [apply Hn; exact Eb|]].
  exact (weightOf_nonneg _ _ Ew).
Qed.

Lemma optimizePosWith_consistent a coords w st st' :
  consistent st ->
  optimizePosWith parseFloat Number a coords w st = inr st' -> consistent st'.
Proof.
  destruct st as [pr names]. intros Hst H. pose proof Hst as [Hn _].
  cbn [fst snd] in Hn. unfold optimizePosWith in H.
  destruct (has names a) eqn:Ea; cbn [negb] in H; [|discriminate].
  destruct (numbers Number coords) as [[|t0 [|t1 [|t2 more]]]|]; try discriminate.
  destruct (weightOf parseFloat w) as [v|] eqn:Ew; [|discriminate].
  injection H as <-. apply pushPair_consistent; [exact Hst|].
  split; [apply Hn; exact Ea | exact (weightOf_nonneg _ _ Ew)].
Qed.

Lemma dispatch_consistent command parts st st' :
  consistent st ->
  dispatch parseFloat Number command parts st = inr st' -> consistent st'.
Proof.
  intros Hst. unfold dispatch.
  destruct (String.eqb command "ENTITY_SIZE"); [apply caseEntitySize_consistent; exact Hst|].
  destruct (String.eqb command "PORTAL"); [apply casePortal_consistent; exact Hst|].
  destruct (String.eqb command "POS"); [apply casePos_consistent; exact Hst|].
  destruct (String.eqb command "LINK"); [apply caseLink_consistent; exact Hst|].
  destruct (String.eqb command "OPTIMIZE").
  { unfold caseOptimize.
    destruct parts as [|p0 [|a [|b [|w [|x rest]]]]]; try discriminate;
      apply optimizeWith_consistent; exact Hst. }
  destruct (String.eqb command "OPTIMIZE_POS"); [|discriminate].
  unfold caseOptimizePos.
  destruct parts as [|p0 [|a [|x [|y [|z [|w [|u rest]]]]]]]; try discriminate;
    apply optimizePosWith_consistent; exact Hst.
Qed.

Lemma parseLines_consistent lines :
  forall i st st',
    consistent st -> parseLines parseFloat Number i lines st = inr st' ->
    consistent st'.
Proof.
  induction lines as [|l rest IH]; intros i st st' Hst H; cbn [parseLines] in H.
  - injection H as <-. exact Hst.
  - destruct (parseLine parseFloat Number i l st) as [e|st1] eqn:E; [discriminate|].
    refine (IH (i + 1) st1 st' _ H). unfold parseLine in E.
    destruct (commandOf l) as [command|]; [|injection E as <-; exact Hst].
    destruct (dispatch parseFloat Number command (splitWhitespace (trim l)) st)
      as [msg|st2] eqn:D; [discriminate|].
    injection E as <-. exact (dispatch_consistent _ _ _ _ Hst D).
Qed.

Lemma validate_None entries :
  validate entries = None -> Forall (fun e => cinclusive (snd e) <> []) entries.
Proof.
  induction entries as [|[nm e] rest IH]; cbn [validate]; [constructor|].
  destruct (cinclusive e) eqn:E; cbn [isEmpty]; [discriminate|].
  intro H. constructor; [cbn [snd]; congruence | exact (IH H)].
Qed.

(** The line loop reports the line it failed on. *)
Lemma parseLines_error lines :
  forall i st n line msg,
    parseLines parseFloat Number i lines st = inl (LineError n line msg) ->
    exists (k : nat) raw,
      n = i + 1 + Z.of_nat k /\ nth_error lines k = Some raw /\
      line = trim raw /\ commandOf raw <> None.
Proof.
  induction lines as [|l rest IH]; intros i st n line msg H; cbn [parseLines] in H;
    [discriminate|].
  destruct (parseLine parseFloat Number i l st) as [e|st1] eqn:E.
  - injection H as ->. unfold parseLine in E.
    destruct (commandOf l) as [command|] eqn:Ec; [|discriminate].
    destruct (dispatch parseFloat Number command (splitWhitespace (trim l)) st);
      [|discriminate].
    injection E as <- <- _. exists 0%nat, l.
    split; [lia | split; [reflexivity | split; [reflexivity | congruence]]].
  - destruct (IH _ _ _ _ _ H) as (k & raw & Hn & Hk & Hl & Hc).
    exists (S k), raw. split; [lia | split; [exact Hk | split; assumption]].
Qed.

(** X20. A problem that [parseProblem] returns is well formed: the entity
    size is positive; every portal object is stored under its name and
    carries its own boxes only, inclusive and exclusive apart, each with its
    corners in order, and at least one inclusive box; every link joins two
    declared portals of different dimensions; every position constraint is
    an ordered box of a declared portal; every goal names declared portals
    and has a weight that is not negative. *)
Theorem parseProblem_result_well_formed inputText problem :
  parseProblem parseFloat Number inputText = inr problem ->
  wellFormed problem /\ boxed problem.
Proof.
  unfold parseProblem.
  destruct (parseLines parseFloat Number 0 (split newline inputText)
              (initialProblem, [])) as [e|[pr names]] eqn:E; [discriminate|].
  destruct (validate (portals pr)) as [msg|] eqn:V; [discriminate|].
  intro H. injection H as <-.
  assert (H0 : consistent (initialProblem, [])).
  { split; cbn [fst snd].
    - intro nm. unfold declared, dimOf. cbn. split; [discriminate | congruence].
    - split; [reflexivity|]. repeat split; constructor. }
  split; [exact (proj2 (parseLines_consistent _ _ _ _ H0 E))|].
  exact (validate_None _ V).
Qed.

(** X21. An error raised while reading the lines carries the 1-based number
    of a line of the text together with that line trimmed, and the line is
    neither blank nor a comment. *)
Theorem parseProblem_line_error_names_the_line inputText n line msg :
  parseProblem parseFloat Number inputText = inl (LineError n line msg) ->
  exists raw,
    index (split newline inputText) (n - 1) = Some raw /\
    line = trim raw /\ commandOf raw <> None.
Proof.
  unfold parseProblem.
  destruct (parseLines parseFloat Number 0 (split newline inputText)
              (initialProblem, [])) as [e|[pr names]] eqn:E.
  - intro H. injection H as ->.
    destruct (parseLines_error _ _ _ _ _ _ E) as (k & raw & Hn & Hk & Hl & Hc).
    exists raw. split; [|split; assumption].
    unfold index. replace (n - 1) with (Z.of_nat k) by lia.
    destruct (Z.ltb_spec (Z.of_nat k) 0); [lia|].
    rewrite Nat2Z.id. exact Hk.
  - destruct (validate (portals pr)); discriminate.
Qed.

End WithBuiltins.

Lemma parseProblem_line_error_names_the_line_witness :
  exists raw,
    index (split newline brokenText) (3 - 1) = Some raw /\
    "link A B"%string = trim raw /\ commandOf raw <> None.
Proof.
  apply (parseProblem_line_error_names_the_line readInteger readInteger brokenText
           3 "link A B" "Unknown destination portal 'B' in LINK").
  vm_compute. reflexivity.
Defined.

Lemma parseProblem_result_well_formed_witness :
  exists problem,
    parseProblem readInteger readInteger sampleText = inr problem /\
    wellFormed problem /\ boxed problem.
Proof.
  eexists. split; [vm_compute; reflexivity|].
  apply (parseProblem_result_well_formed readInteger readInteger sampleText).
  vm_compute. reflexivity.
Defined.

End ParsedProblemFacts.

(* ------------------------------------------------------------------ *)
(** ** js/parser.js: the texts it accepts *)

Module AcceptedTexts.
Import Parser ParsedProblems InputFormat.

Lemma in_snoc {A} (x d : A) l : In x (l ++ [d]) <-> In x l \/ d = x.
Proof. rewrite in_app_iff. cbn [In]. tauto. Qed.

Lemma declaredIn_snoc before d nm dim :
  declaredIn (before ++ [d]) nm dim <->
  declaredIn before nm dim \/ exists f, d = DPortal nm dim f.
Proof.
  unfold declaredIn. split.
  - intros [f H]. apply in_snoc in H.
    destruct H as [H|H]; [left | right]; exists f; exact H.
  - intros [[f H]|[f H]]; exists f; apply in_snoc; [left | right]; exact H.
Qed.

Lemma known_snoc before d nm :
  known (before ++ [d]) nm <->
  known before nm \/ exists dim f, d = DPortal nm dim f.
Proof.
  unfold known. split.
  - intros [dim H]. apply declaredIn_snoc in H.
    destruct H as [H|[f H]]; [left; exists dim; exact H | right; exists dim, f; exact H].
  - intros [[dim H]|(dim & f & H)]; exists dim; apply declaredIn_snoc;
      [left; exact H | right; exists f; exact H].
Qed.

(** The command of a directive line is its first word in upper case. *)
Lemma commandOf_words raw w rest :
  wordsOf raw = w :: rest -> startsWithHash (toUpperCase w) = false ->
  commandOf raw = Some (toUpperCase w).
Proof.
  unfold wordsOf, commandOf. intros Hw Hh.
  destruct (trim raw) as [|c line] eqn:E; [discriminate Hw|].
  cbn [startsWithHash isEmptyString].
  destruct (Ascii.eqb_spec c "#"%char) as [->|Hc].
  - exfalso. unfold splitWhitespace in Hw. cbn [wordsFrom] in Hw.
    destruct (wordsFrom line) as [w0 ws].
    change (isSpace "#") with false in Hw. cbv iota in Hw.
    cbn [isEmptyString] in Hw. injection Hw as <- _.
    cbn in Hh. discriminate.
  - cbn [orb]. rewrite Hw. reflexivity.
Qed.

Lemma commandOf_ignored raw : ignored raw -> commandOf raw = None.
Proof.
  unfold ignored, commandOf. intros [->|[rest ->]]; reflexivity.
Qed.


Lemma map_assign_in {V B} (g : string * V -> B) nm (v e : V) obj :
  lookup nm obj = Some e -> g (nm, v) = g (nm, e) ->
  map g (assign nm v obj) = map g obj.
Proof.
  intros H Hg. induction obj as [|[k w] rest IH]; cbn [lookup] in H; [discriminate|].
  cbn [assign]. destruct (String.eqb_spec k nm) as [->|Hne].
  - injection H as ->. cbn [map]. rewrite Hg. reflexivity.
  - cbn [map]. rewrite (IH H). reflexivity.
Qed.

Lemma map_assign_fresh {V B} (g : string * V -> B) nm (v : V) obj :
  lookup nm obj = None -> map g (assign nm v obj) = map g obj ++ [g (nm, v)].
Proof.
  induction obj as [|[k w] rest IH]; cbn [lookup assign]; [reflexivity|].
  destruct (String.eqb_spec k nm) as [->|Hne]; [discriminate|].
  intro H. cbn [map app]. rewrite (IH H). reflexivity.
Qed.

Lemma Forall_assign_update {V} (P Q : string * V -> Prop) nm (v : V) obj :
  NoDup (keys obj) -> Forall P obj ->
  (forall e, fst e <> nm -> P e -> Q e) -> Q (nm, v) ->
  Forall Q (assign nm v obj).
Proof.
  intros Hnd H HPQ Hv. induction H as [|[k w] rest Hk Hrest IH]; cbn [assign].
  - constructor; [exact Hv | constructor].
  - cbn [keys map fst] in Hnd. inversion Hnd as [|? ? Hnotin Hnd']; subst.
    destruct (String.eqb_spec k nm) as [->|Hne].
    + constructor; [exact Hv|].
      apply Forall_forall. intros e He. apply HPQ.
      * intro Heq. apply Hnotin. rewrite <- Heq. apply in_map. exact He.
      * exact (proj1 (Forall_forall _ _) Hrest e He).
    + constructor; [apply HPQ; [exact Hne | exact Hk] | exact (IH Hnd')].
Qed.

Lemma in_portalsOf ds nm dim face :
  In (nm, dim, face) (portalsOf ds) <-> In (DPortal nm dim face) ds.
Proof.
  unfold portalsOf. rewrite in_flat_map. split.
  - intros (d & Hd & Hin). destruct d; cbn [In] in Hin; try contradiction.
    destruct Hin as [Heq|[]]. injection Heq as -> -> ->. exact Hd.
  - intro H. exists (DPortal nm dim face). split; [exact H | left; reflexivity].
Qed.

Lemma flat_map_snoc {A B} (g : A -> list B) l d :
  flat_map g (l ++ [d]) = flat_map g l ++ g d.
Proof. rewrite flat_map_app. cbn [flat_map]. rewrite app_nil_r. reflexivity. Qed.

(** A step that declares no portal and keeps the portal objects' names,
    dimensions and facings. *)
Lemma tracks_step before d pr names pr' :
  tracks before (pr, names) ->
  (forall k dim face, d <> DPortal k dim face) ->
  (forall k, dimOf pr' k = dimOf pr k) ->
  keys (portals pr') = keys (portals pr) ->
  map portalSummary (portals pr') = map portalSummary (portals pr) ->
  positionConstraints pr' = boxesOf (before ++ [d]) ->
  desiredLinks pr' = linksOf (before ++ [d]) ->
  optimizationPairs pr' = goalsOf (before ++ [d]) ->
  Forall (fun e => (exists lo hi, In (DPos (fst e) INC lo hi) (before ++ [d])) ->
                   cinclusive (snd e) <> [])
         (portals pr') ->
  (forall k lo hi, d = DPos k INC lo hi -> known before k) ->
  tracks (before ++ [d]) (pr', names).
Proof.
  intros (Hn & Hd & Hnd & Hp & Hb & Hl & Hg & Hbox & Hinc) Hno Hdim Hkeys Hsum
         Hb' Hl' Hg' Hbox' Hinc'.
  cbn [fst snd] in *.
  assert (Hknown : forall k, known (before ++ [d]) k <-> known before k).
  { intro k. rewrite known_snoc. split; [|left; assumption].
    intros [H|(dim & f & H)]; [exact H | exfalso; exact (Hno _ _ _ H)]. }
  assert (Hdecl : forall k dim,
             declaredIn (before ++ [d]) k dim <-> declaredIn before k dim).
  { intros k dim. rewrite declaredIn_snoc. split; [|left; assumption].
    intros [H|(f & H)]; [exact H | exfalso; exact (Hno _ _ _ H)]. }
  unfold tracks. cbn [fst snd].
  split; [intro k; rewrite Hknown; apply Hn|].
  split; [intros k dim; rewrite Hdim, Hdecl; apply Hd|].
  split; [rewrite Hkeys; exact Hnd|].
  split.
  { rewrite Hsum, Hp. unfold portalsOf. rewrite flat_map_snoc.
    destruct d; try (rewrite app_nil_r; reflexivity).
    exfalso. exact (Hno _ _ _ eq_refl). }
  split; [exact Hb'|]. split; [exact Hl'|]. split; [exact Hg'|].
  split; [exact Hbox'|].
  intros k lo hi H. apply Hknown. apply in_snoc in H.
  destruct H as [H|H]; [exact (Hinc _ _ _ H) | exact (Hinc' _ _ _ H)].
Qed.

Lemma updatePortal_fields pr nm f :
  entitySize (updatePortal pr nm f) = entitySize pr /\
  positionConstraints (updatePortal pr nm f) = positionConstraints pr /\
  desiredLinks (updatePortal pr nm f) = desiredLinks pr /\
  optimizationPairs (updatePortal pr nm f) = optimizationPairs pr.
Proof. unfold updatePortal. destruct (lookup nm (portals pr)); repeat split. Qed.

Lemma updatePortal_keys pr nm f :
  keys (portals (updatePortal pr nm f)) = keys (portals pr).
Proof.
  unfold updatePortal. destruct (lookup nm (portals pr)) as [e|] eqn:E; [|reflexivity].
  cbn [portals setPortals]. apply keys_assign_in. apply lookup_in_keys. congruence.
Qed.

Lemma updatePortal_summary pr nm f :
  (forall e, pdim (f e) = pdim e /\ pface (f e) = pface e) ->
  map portalSummary (portals (updatePortal pr nm f)) = map portalSummary (portals pr).
Proof.
  intro Hf. unfold updatePortal.
  destruct (lookup nm (portals pr)) as [e|] eqn:E; [|reflexivity].
  cbn [portals setPortals]. apply (map_assign_in portalSummary nm (f e) e _ E).
  unfold portalSummary. cbn [fst snd]. destruct (Hf e) as [-> ->]. reflexivity.
Qed.

Lemma updatePortal_Forall (P Q : string * PortalEntry -> Prop) pr nm f e0 :
  NoDup (keys (portals pr)) -> Forall P (portals pr) ->
  lookup nm (portals pr) = Some e0 ->
  (forall e, fst e <> nm -> P e -> Q e) -> Q (nm, f e0) ->
  Forall Q (portals (updatePortal pr nm f)).
Proof.
  intros Hnd HP E HPQ HQ. unfold updatePortal. rewrite E.
  cbn [portals setPortals].
  exact (Forall_assign_update P Q nm (f e0) _ Hnd HP HPQ HQ).
Qed.

Lemma known_lookup before pr names nm :
  tracks before (pr, names) -> known before nm ->
  has names nm = true /\ exists e, lookup nm (portals pr) = Some e.
Proof.
  intros (Hn & Hd & _) Hk. cbn [fst snd] in *. split; [apply Hn; exact Hk|].
  destruct Hk as [dim Hk]. apply Hd in Hk. unfold dimOf in Hk.
  destruct (lookup nm (portals pr)) as [e|]; [exists e; reflexivity | discriminate].
Qed.


Ltac snoc_lists :=
  unfold boxesOf, linksOf, goalsOf; rewrite flat_map_snoc; cbn [app];
  try rewrite app_nil_r; reflexivity.

Section WithBuiltins.
Variable parseFloat : string -> option Q.
Variable Number : string -> option Q.

Lemma casePortal_accepts w nm dim face before st :
  admissible before (DPortal nm dim face) -> tracks before st ->
  exists st',
    casePortal [w; nm; showDim dim; faceWord face] st = inr st' /\
    tracks (before ++ [DPortal nm dim face]) st'.
Proof.
  destruct st as [pr names]. cbn [admissible]. intros Hfresh Ht.
  destruct Ht as (Hn & Hd & Hnd & Hp & Hb & Hl & Hg & Hbox & Hinc).
  cbn [fst snd] in *.
  assert (Ehas : has names nm = false).
  { destruct (has names nm) eqn:E; [|reflexivity]. exfalso. apply Hfresh, Hn, E. }
  assert (Elook : lookup nm (portals pr) = None).
  { destruct (lookup nm (portals pr)) as [e|] eqn:E; [|reflexivity].
    exfalso. apply Hfresh. exists (pdim e). apply Hd. unfold dimOf. rewrite E.
    reflexivity. }
  unfold casePortal. rewrite Ehas.
  replace (dimOfString (showDim dim)) with (Some dim) by (destruct dim; reflexivity).
  replace (faceOfString (faceWord face)) with (Some face)
    by (destruct face; reflexivity).
  eexists. split; [reflexivity|].
  set (entry := mkPortalEntry nm dim face (vec3 0 0 0)%Q [] [] []).
  unfold tracks. cbn [fst snd portals setPortals positionConstraints desiredLinks
                      optimizationPairs].
  split.
  { intro k. rewrite ParsedProblemFacts.has_app, known_snoc.
    destruct (String.eqb_spec k nm) as [->|Hne].
    - rewrite orb_true_r. split; [|reflexivity].
      intros _. right. exists dim, face. reflexivity.
    - rewrite orb_false_r, Hn. split; [left; assumption|].
      intros [H|(d0 & f0 & H)]; [exact H | injection H; congruence]. }
  split.
  { intros k d0. unfold dimOf. cbn [portals setPortals]. rewrite declaredIn_snoc.
    destruct (String.eqb_spec k nm) as [->|Hne].
    - rewrite lookup_assign_same. cbn [option_map pdim entry]. split.
      + intro H. injection H as <-. right. exists face. reflexivity.
      + intros [H|(f0 & H)].
        * exfalso. apply Hfresh. exists d0. exact H.
        * injection H as -> _. reflexivity.
    - rewrite lookup_assign_other by exact Hne. fold (dimOf pr k). rewrite Hd.
      split; [left; assumption|].
      intros [H|(f0 & H)]; [exact H | injection H; congruence]. }
  assert (Hnotin : ~ In nm (keys (portals pr))).
  { intro H. apply lookup_in_keys in H. congruence. }
  split.
  { rewrite (keys_assign_fresh nm entry (portals pr) Hnotin).
    apply NoDup_app; [exact Hnd | repeat constructor; intros [] |].
    intros a Ha [<-|[]]. exact (Hnotin Ha). }
  split.
  { rewrite (map_assign_fresh portalSummary nm entry (portals pr) Elook), Hp.
    unfold portalsOf. rewrite flat_map_snoc. reflexivity. }
  split; [rewrite Hb; snoc_lists|]. split; [rewrite Hl; snoc_lists|].
  split; [rewrite Hg; snoc_lists|].
  split.
  { refine (Forall_assign_update _ _ nm entry (portals pr) Hnd Hbox _ _).
    - intros e Hne HP (lo & hi & Hin). apply in_snoc in Hin.
      destruct Hin as [Hin|Heq]; [|discriminate]. apply HP. exists lo, hi. exact Hin.
    - intros (lo & hi & Hin). apply in_snoc in Hin. cbn [fst] in Hin.
      destruct Hin as [Hin|Heq]; [|discriminate].
      exfalso. exact (Hfresh (Hinc _ _ _ Hin)). }
  intros k lo hi Hin. apply in_snoc in Hin. destruct Hin as [Hin|Heq]; [|discriminate].
  apply known_snoc. left. exact (Hinc _ _ _ Hin).
Qed.

Lemma casePos_accepts w nm ty type a b c d e f x0 y0 z0 x1 y1 z1 before st :
  toUpperCase ty = typeWord type ->
  Number a = Some x0 -> Number b = Some y0 -> Number c = Some z0 ->
  Number d = Some x1 -> Number e = Some y1 -> Number f = Some z1 ->
  admissible before (DPos nm type (vec3 x0 y0 z0) (vec3 x1 y1 z1)) ->
  tracks before st ->
  exists st',
    casePos Number [w; nm; ty; a; b; c; d; e; f] st = inr st' /\
    tracks (before ++ [DPos nm type (vec3 x0 y0 z0) (vec3 x1 y1 z1)]) st'.
Proof.
  destruct st as [pr names]. intros Hty Ha Hb Hc Hd He Hf (Hk & Hx & Hy & Hz) Ht.
  cbn [vx vy vz] in Hx, Hy, Hz.
  destruct (known_lookup _ _ _ _ Ht Hk) as [Ehas [e0 E0]].
  assert (Egt : vecGt (vec3 x0 y0 z0) (vec3 x1 y1 z1) = false).
  { unfold vecGt. cbn [vx vy vz].
    rewrite (proj2 (Qlt_bool_false_iff x1 x0) Hx), (proj2 (Qlt_bool_false_iff y1 y0) Hy),
      (proj2 (Qlt_bool_false_iff z1 z0) Hz). reflexivity. }
  unfold casePos. cbv zeta. rewrite Ehas. cbn [negb]. rewrite Hty.
  replace (typeOfString (typeWord type)) with (Some type)
    by (destruct type; reflexivity).
  cbn [numbers]. rewrite Ha, Hb, Hc, Hd, He, Hf, Egt.
  eexists. split; [reflexivity|].
  pose proof Ht as (Hn & Hdim & Hnd & Hp & Hbx & Hl & Hg & Hbox & Hinc).
  cbn [fst snd] in *.
  set (constraint := mkConstraint nm type (vec3 x0 y0 z0) (vec3 x1 y1 z1)).
  set (g := fun e1 : PortalEntry => match type with
            | INC => mkPortalEntry (pname e1) (pdim e1) (pface e1) (pos e1)
                       (cinclusive e1 ++ [constraint]) (cexclusive e1) (outgoing e1)
            | EXC => mkPortalEntry (pname e1) (pdim e1) (pface e1) (pos e1)
                       (cinclusive e1) (cexclusive e1 ++ [constraint]) (outgoing e1)
            end).
  assert (Hg1 : forall e1, pdim (g e1) = pdim e1 /\ pface (g e1) = pface e1).
  { intro e1. unfold g. destruct type; split; reflexivity. }
  destruct (updatePortal_fields (pushConstraint pr constraint) nm g)
    as (_ & F2 & F3 & F4).
  apply (tracks_step before _ pr names _ Ht).
  - intros; discriminate.
  - intro k. rewrite ParsedProblemFacts.dimOf_updatePortal by (intro e1; apply Hg1).
    reflexivity.
  - rewrite updatePortal_keys. reflexivity.
  - rewrite (updatePortal_summary _ nm g Hg1). reflexivity.
  - rewrite F2. cbn [positionConstraints pushConstraint]. rewrite Hbx. snoc_lists.
  - rewrite F3. cbn [desiredLinks pushConstraint]. rewrite Hl. snoc_lists.
  - rewrite F4. cbn [optimizationPairs pushConstraint]. rewrite Hg. snoc_lists.
  - refine (updatePortal_Forall _ _ (pushConstraint pr constraint) nm g e0
              Hnd Hbox E0 _ _).
    + intros e1 Hne HP (lo & hi & Hin). apply in_snoc in Hin.
      destruct Hin as [Hin|Heq]; [apply HP; exists lo, hi; exact Hin|].
      injection Heq as Heq _ _ _. congruence.
    + cbn [fst snd]. intros (lo & hi & Hin). unfold g. destruct type; cbn [cinclusive].
      * intro H. apply app_eq_nil in H. destruct H as [_ H]. discriminate.
      * apply in_snoc in Hin. destruct Hin as [Hin|Heq]; [|discriminate].
        apply (lookup_Forall _ nm e0 (portals pr) Hbox E0). exists lo, hi. exact Hin.
  - intros k lo hi Heq. injection Heq as <- _ _ _. exact Hk.
Qed.

Lemma sameDim_differ pr a b d1 d2 :
  dimOf pr a = Some d1 -> dimOf pr b = Some d2 -> d1 <> d2 ->
  sameDim pr a b = None.
Proof.
  unfold dimOf, sameDim.
  destruct (lookup a (portals pr)) as [ea|]; [|discriminate].
  destruct (lookup b (portals pr)) as [eb|]; [|discriminate].
  cbn [option_map]. intros H1 H2 Hne. injection H1 as <-. injection H2 as <-.
  destruct (Dimension_eqb_spec (pdim ea) (pdim eb)); [contradiction | reflexivity].
Qed.

Lemma caseLink_accepts w src dst before st :
  admissible before (DLink src dst) -> tracks before st ->
  exists st',
    caseLink [w; src; dst] st = inr st' /\ tracks (before ++ [DLink src dst]) st'.
Proof.
  destruct st as [pr names]. intros (d1 & d2 & H1 & H2 & Hne) Ht.
  assert (K1 : known before src) by (exists d1; exact H1).
  assert (K2 : known before dst) by (exists d2; exact H2).
  destruct (known_lookup _ _ _ _ Ht K1) as [Esrc [e0 E0]].
  destruct (known_lookup _ _ _ _ Ht K2) as [Edst _].
  pose proof Ht as (Hn & Hdim & Hnd & Hp & Hbx & Hl & Hg & Hbox & Hinc).
  cbn [fst snd] in *.
  unfold caseLink. rewrite Esrc, Edst. cbn [negb].
  rewrite (sameDim_differ pr src dst d1 d2 (proj2 (Hdim _ _) H1) (proj2 (Hdim _ _) H2) Hne).
  eexists. split; [reflexivity|].
  set (g := fun e1 : PortalEntry =>
              mkPortalEntry (pname e1) (pdim e1) (pface e1) (pos e1)
                (cinclusive e1) (cexclusive e1) (outgoing e1 ++ [dst])).
  assert (Hg1 : forall e1, pdim (g e1) = pdim e1 /\ pface (g e1) = pface e1).
  { intro e1. split; reflexivity. }
  destruct (updatePortal_fields (pushLink pr (mkLink src dst)) src g)
    as (_ & F2 & F3 & F4).
  apply (tracks_step before _ pr names _ Ht).
  - intros; discriminate.
  - intro k. rewrite ParsedProblemFacts.dimOf_updatePortal by (intro e1; apply Hg1).
    reflexivity.
  - rewrite updatePortal_keys. reflexivity.
  - rewrite (updatePortal_summary _ src g Hg1). reflexivity.
  - rewrite F2. cbn [positionConstraints pushLink]. rewrite Hbx. snoc_lists.
  - rewrite F3. cbn [desiredLinks pushLink]. rewrite Hl. snoc_lists.
  - rewrite F4. cbn [optimizationPairs pushLink]. rewrite Hg. snoc_lists.
  - refine (updatePortal_Forall _ _ (pushLink pr (mkLink src dst)) src g e0
              Hnd Hbox E0 _ _).
    + intros e1 _ HP (lo & hi & Hin). apply in_snoc in Hin.
      destruct Hin as [Hin|Heq]; [|discriminate]. apply HP. exists lo, hi. exact Hin.
    + cbn [fst snd g cinclusive]. intros (lo & hi & Hin). apply in_snoc in Hin.
      destruct Hin as [Hin|Heq]; [|discriminate].
      apply (lookup_Forall _ src e0 (portals pr) Hbox E0). exists lo, hi. exact Hin.
  - intros; discriminate.
Qed.

(** A goal is pushed and nothing else changes. *)
Lemma pushPair_tracks before d pr names goal :
  tracks before (pr, names) ->
  goalsOf [d] = [goal] ->
  tracks (before ++ [d]) (pushPair pr goal, names).
Proof.
  intros Ht Hgoal.
  pose proof Ht as (Hn & Hdim & Hnd & Hp & Hbx & Hl & Hg & Hbox & Hinc).
  cbn [fst snd] in *.
  assert (Hd : (exists a b w, d = DOptimize a b w) \/ exists a t w, d = DOptimizePos a t w).
  { destruct d; try discriminate; [left | right]; eauto. }
  apply (tracks_step before d pr names _ Ht).
  - intros k dim face ->. discriminate.
  - reflexivity.
  - reflexivity.
  - reflexivity.
  - cbn [positionConstraints pushPair]. rewrite Hbx.
    destruct Hd as [(a & b & w & ->)|(a & t & w & ->)]; snoc_lists.
  - cbn [desiredLinks pushPair]. rewrite Hl.
    destruct Hd as [(a & b & w & ->)|(a & t & w & ->)]; snoc_lists.
  - cbn [optimizationPairs pushPair]. rewrite Hg. unfold goalsOf at 2.
    rewrite flat_map_snoc. unfold goalsOf in Hgoal. cbn [flat_map] in Hgoal.
    rewrite app_nil_r in Hgoal. rewrite Hgoal. reflexivity.
  - cbn [portals pushPair]. eapply Forall_impl; [|exact Hbox].
    intros e1 HP (lo & hi & Hin). apply in_snoc in Hin.
    destruct Hin as [Hin|Heq]; [apply HP; exists lo, hi; exact Hin|].
    destruct Hd as [(a & b & w & ->)|(a & t & w & ->)]; discriminate.
  - intros k lo hi ->. discriminate.
Qed.

Lemma weightOf_accepts wt v :
  parseFloat wt = Some v -> (0 <= v)%Q -> weightOf parseFloat (Some wt) = Some v.
Proof.
  intros H Hv. unfold weightOf. rewrite H.
  rewrite (proj2 (Qlt_bool_false_iff v 0) Hv). reflexivity.
Qed.

Lemma optimizeWith_accepts a b w v before st :
  weightOf parseFloat w = Some v ->
  admissible before (DOptimize a b v) -> tracks before st ->
  exists st',
    optimizeWith parseFloat a b w st = inr st' /\
    tracks (before ++ [DOptimize a b v]) st'.
Proof.
  destruct st as [pr names]. intros Hw (Ka & Kb & Hv) Ht.
  destruct (known_lookup _ _ _ _ Ht Ka) as [Ea _].
  destruct (known_lookup _ _ _ _ Ht Kb) as [Eb _].
  unfold optimizeWith. rewrite Ea, Eb. cbn [negb]. rewrite Hw.
  eexists. split; [reflexivity|]. apply pushPair_tracks; [exact Ht | reflexivity].
Qed.

Lemma optimizePosWith_accepts a coords w tx ty tz more v before st :
  numbers Number coords = Some (tx :: ty :: tz :: more) ->
  weightOf parseFloat w = Some v ->
  admissible before (DOptimizePos a (vec3 tx ty tz) v) -> tracks before st ->
  exists st',
    optimizePosWith parseFloat Number a coords w st = inr st' /\
    tracks (before ++ [DOptimizePos a (vec3 tx ty tz) v]) st'.
Proof.
  destruct st as [pr names]. intros Hc Hw (Ka & Hv) Ht.
  destruct (known_lookup _ _ _ _ Ht Ka) as [Ea _].
  unfold optimizePosWith. rewrite Ea. cbn [negb]. rewrite Hc, Hw.
  eexists. split; [reflexivity|]. apply pushPair_tracks; [exact Ht | reflexivity].
Qed.


Ltac at_command raw Hw Hk :=
  rewrite (commandOf_words raw _ _ Hw) by (rewrite Hk; reflexivity);
  rewrite Hk; change (splitWhitespace (trim raw)) with (wordsOf raw); rewrite Hw.

Ltac accepted L :=
  let st' := fresh "st'" in
  let E := fresh "E" in
  let Ht' := fresh "Ht'" in
  destruct L as (st' & E & Ht'); rewrite E; exists st';
  split; [reflexivity | exact Ht'].

(** A directive line that is admissible is accepted. *)
Lemma parseLine_accepts i raw d before st :
  reads parseFloat Number raw d -> admissible before d -> tracks before st ->
  exists st',
    parseLine parseFloat Number i raw st = inr st' /\ tracks (before ++ [d]) st'.
Proof.
  intros Hr Ha Ht. unfold parseLine.
  destruct Hr as [raw w nm dim face Hw Hk _
                 |raw w nm ty type a b c d e f x0 y0 z0 x1 y1 z1 Hw Hk Hty
                      Na Nb Nc Nd Ne Nf
                 |raw w src dst Hw Hk
                 |raw w a b Hw Hk
                 |raw w a b wt v Hw Hk Hv
                 |raw w a x y z tx ty tz Hw Hk Nx Ny Nz
                 |raw w a x y z wt tx ty tz u v Hw Hk Nx Ny Nz Nw Hv];
    at_command raw Hw Hk.
  - change (dispatch parseFloat Number "PORTAL" [w; nm; showDim dim; faceWord face] st)
      with (casePortal [w; nm; showDim dim; faceWord face] st).
    accepted (casePortal_accepts w nm dim face before st Ha Ht).
  - change (dispatch parseFloat Number "POS" [w; nm; ty; a; b; c; d; e; f] st)
      with (casePos Number [w; nm; ty; a; b; c; d; e; f] st).
    accepted (casePos_accepts w nm ty type a b c d e f x0 y0 z0 x1 y1 z1 before st
                Hty Na Nb Nc Nd Ne Nf Ha Ht).
  - change (dispatch parseFloat Number "LINK" [w; src; dst] st)
      with (caseLink [w; src; dst] st).
    accepted (caseLink_accepts w src dst before st Ha Ht).
  - change (dispatch parseFloat Number "OPTIMIZE" [w; a; b] st)
      with (optimizeWith parseFloat a b None st).
    accepted (optimizeWith_accepts a b None 1 before st eq_refl Ha Ht).
  - change (dispatch parseFloat Number "OPTIMIZE" [w; a; b; wt] st)
      with (optimizeWith parseFloat a b (Some wt) st).
    assert (Hwt : weightOf parseFloat (Some wt) = Some v).
    { apply weightOf_accepts; [exact Hv | apply Ha]. }
    accepted (optimizeWith_accepts a b (Some wt) v before st Hwt Ha Ht).
  - change (dispatch parseFloat Number "OPTIMIZE_POS" [w; a; x; y; z] st)
      with (optimizePosWith parseFloat Number a [x; y; z] None st).
    assert (Hc : numbers Number [x; y; z] = Some [tx; ty; tz]).
    { cbn [numbers]. rewrite Nx, Ny, Nz. reflexivity. }
    accepted (optimizePosWith_accepts a [x; y; z] None tx ty tz [] 1 before st
                Hc eq_refl Ha Ht).
  - change (dispatch parseFloat Number "OPTIMIZE_POS" [w; a; x; y; z; wt] st)
      with (optimizePosWith parseFloat Number a [x; y; z; wt] (Some wt) st).
    assert (Hc : numbers Number [x; y; z; wt] = Some [tx; ty; tz; u]).
    { cbn [numbers]. rewrite Nx, Ny, Nz, Nw. reflexivity. }
    assert (Hwt : weightOf parseFloat (Some wt) = Some v).
    { apply weightOf_accepts; [exact Hv | apply Ha]. }
    accepted (optimizePosWith_accepts a [x; y; z; wt] (Some wt) tx ty tz [u] v
                before st Hc Hwt Ha Ht).
Qed.

(** The loop over the lines accepts a text that reads as a valid sequence
    of directives. *)
Lemma parseLines_accepts lines ds :
  textReads parseFloat Number lines ds ->
  forall before i st,
    validFrom before ds -> tracks before st ->
    exists st',
      parseLines parseFloat Number i lines st = inr st' /\
      tracks (before ++ ds) st'.
Proof.
  induction 1 as [|raw rest ds Hign Hrest IH|raw rest d ds Hr Hrest IH];
    intros before i st Hv Ht.
  - exists st. split; [reflexivity|]. rewrite app_nil_r. exact Ht.
  - cbn [parseLines]. unfold parseLine. rewrite (commandOf_ignored raw Hign).
    exact (IH before (i + 1) st Hv Ht).
  - destruct Hv as [Ha Hv]. cbn [parseLines].
    destruct (parseLine_accepts i raw d before st Hr Ha Ht) as (st1 & E & Ht1).
    rewrite E. destruct (IH (before ++ [d]) (i + 1) st1 Hv Ht1) as (st' & E' & Ht').
    exists st'. split; [exact E'|]. rewrite <- app_assoc in Ht'. exact Ht'.
Qed.

Lemma validate_boxed entries :
  Forall (fun e => cinclusive (snd e) <> []) entries -> validate entries = None.
Proof.
  induction 1 as [|[nm e] rest He Hrest IH]; cbn [validate]; [reflexivity|].
  cbn [snd] in He. destruct (cinclusive e); [congruence|]. cbn [isEmpty]. exact IH.
Qed.

Lemma tracks_initially : tracks [] (initialProblem, []).
Proof.
  unfold tracks, known, declaredIn. cbn [fst snd].
  split; [intro nm; split; [discriminate | intros (d & f & [])]|].
  split; [intros nm d; split; [discriminate | intros (f & [])]|].
  split; [constructor|]. repeat (split; [reflexivity|]).
  split; [constructor|]. intros nm lo hi [].
Qed.

(** With the directive present the check applies: a value that is not
    positive is refused. *)
Lemma caseEntitySize_checks w a v st :
  parseFloat a = Some v -> (v <= 0)%Q ->
  caseEntitySize parseFloat [w; a] st = inl "ENTITY_SIZE must be positive"%string.
Proof.
  intros Ha Hv. destruct st as [pr names]. unfold caseEntitySize. rewrite Ha.
  rewrite (proj2 (Qle_bool_iff v 0) Hv). reflexivity.
Qed.

(** C10. An ASCII text without an [ENTITY_SIZE] directive never fails with
    one of the two [ENTITY_SIZE] errors (bad format, not positive) and, when
    it is parsed, yields a problem whose entity size is the default 1.0.
    And it is parsed when its other directives are valid: if its lines read,
    by the grammar, as a sequence of directives in which each is admissible
    where it stands and every portal has an inclusive box, then it is parsed
    without error, into a problem of entity size 1.0 whose portals are the
    declared ones, with their dimensions and facings, and whose boxes, links
    and goals are those of the text, in its order. *)
Theorem parse_without_entity_size_defaults (inputText : string) :
  asciiText inputText = true ->
  hasDirective "ENTITY_SIZE" inputText = false ->
  match parseProblem parseFloat Number inputText with
  | inr problem => entitySize problem = 1%Q
  | inl (LineError _ _ msg) => entitySizeMessage msg = false
  | inl (ValidationError _) => True
  end /\
  forall ds,
    textReads parseFloat Number (split newline inputText) ds ->
    validDirectives ds ->
    exists problem,
      parseProblem parseFloat Number inputText = inr problem /\
      entitySize problem = 1%Q /\
      (forall nm dim face,
         In (nm, dim, face) (map portalSummary (portals problem)) <->
         In (DPortal nm dim face) ds) /\
      positionConstraints problem = boxesOf ds /\
      desiredLinks problem = linksOf ds /\
      optimizationPairs problem = goalsOf ds.
Proof.
  intros _ Hno.
  pose proof (ParserFacts.no_entity_size_check_without_directive
                parseFloat Number inputText Hno) as Hsize.
  split; [exact Hsize|].
  intros ds Hreads [Hvalid Hboxed].
  destruct (parseLines_accepts _ _ Hreads [] 0 (initialProblem, []) Hvalid
              tracks_initially) as ([pr names] & E & Ht).
  cbn [app] in Ht.
  destruct Ht as (Hn & Hd & Hnd & Hp & Hb & Hl & Hg & Hbox & Hinc).
  cbn [fst snd] in *.
  assert (V : validate (portals pr) = None).
  { apply validate_boxed. apply Forall_forall. intros [k e] Hin. cbn [snd].
    apply (proj1 (Forall_forall _ _) Hbox (k, e) Hin). cbn [fst].
    apply Hboxed.
    assert (Hk : lookup k (portals pr) <> None).
    { apply lookup_in_keys. unfold keys. apply (in_map fst _ _ Hin). }
    destruct (lookup k (portals pr)) as [e'|] eqn:E'; [|congruence].
    exists (pdim e'). apply Hd. unfold dimOf. rewrite E'. reflexivity. }
  unfold parseProblem in *. rewrite E in *. rewrite V in *.
  exists pr. split; [reflexivity|]. split; [exact Hsize|].
  split; [|repeat split; assumption].
  intros nm dim face. rewrite Hp. apply in_portalsOf.
Qed.

End WithBuiltins.

(** [Parser.sampleText] reads as [sampleDirectives], a valid sequence. *)
Lemma sampleText_reads :
  textReads readInteger readInteger (split newline sampleText) sampleDirectives.
Proof.
  let l := eval vm_compute in (split newline sampleText) in
  change (split newline sampleText) with l.
  unfold sampleDirectives.
  apply text_ignored; [right; eexists; vm_compute; reflexivity|].
  apply text_directive;
    [apply reads_portal with (w := "PORTAL"%string);
     [vm_compute; reflexivity | vm_compute; reflexivity | discriminate]|].
  apply text_directive;
    [apply reads_portal with (w := "PORTAL"%string);
     [vm_compute; reflexivity | vm_compute; reflexivity | discriminate]|].
  apply text_ignored; [left; vm_compute; reflexivity|].
  apply text_directive;
    [apply reads_pos with (w := "POS"%string) (ty := "INC"%string)
       (a := "-128"%string) (b := "0"%string) (c := "-128"%string)
       (d := "128"%string) (e := "128"%string) (f := "128"%string);
     vm_compute; reflexivity|].
  apply text_directive;
    [apply reads_pos with (w := "POS"%string) (ty := "inc"%string)
       (a := "-16"%string) (b := "0"%string) (c := "-16"%string)
       (d := "16"%string) (e := "128"%string) (f := "16"%string);
     vm_compute; reflexivity|].
  apply text_directive;
    [apply reads_link with (w := "link"%string); vm_compute; reflexivity|].
  apply text_directive;
    [apply reads_link with (w := "LINK"%string); vm_compute; reflexivity|].
  apply text_directive;
    [apply reads_optimize_weighted with (w := "OPTIMIZE"%string) (wt := "2"%string);
     vm_compute; reflexivity|].
  apply text_directive;
    [apply reads_optimize_pos with (w := "OPTIMIZE_POS"%string)
       (x := "0"%string) (y := "60"%string) (z := "0"%string);
     vm_compute; reflexivity|].
  apply text_end.
Qed.

Ltac find_in := cbn [In]; repeat first [left; reflexivity | right].
Ltac is_known := eexists; eexists; find_in.
Ltac is_unknown :=
  let d := fresh in let f := fresh in let H := fresh in
  intros (d & f & H); cbn [In] in H;
  repeat (destruct H as [H|H]; [discriminate|]); exact H.
Ltac in_order := unfold Qle; cbn; lia.
Lemma sampleDirectives_valid : validDirectives sampleDirectives.
Proof.
  split.
  - unfold sampleDirectives. cbn [validFrom admissible app vx vy vz].
    repeat match goal with
           | |- _ /\ _ => split
           | |- True => exact I
           | |- known _ _ => is_known
           | |- ~ known _ _ => is_unknown
           | |- (_ <= _)%Q => in_order
           | |- exists d1 d2, declaredIn _ _ d1 /\ declaredIn _ _ d2 /\ d1 <> d2 =>
               eexists; eexists;
               split; [eexists; find_in | split; [eexists; find_in | discriminate]]
           end.
  - intros nm (d & f & H). unfold sampleDirectives in *. cbn [In] in H.
    repeat (destruct H as [H|H]; [first [discriminate | injection H as <- _ _]|]);
      try contradiction; eexists; eexists; find_in.
Qed.

Lemma parse_without_entity_size_defaults_witness :
  asciiText sampleText = true /\
  hasDirective "ENTITY_SIZE" sampleText = false /\
  exists problem,
    parseProblem readInteger readInteger sampleText = inr problem /\
    entitySize problem = 1%Q /\
    (forall nm dim face,
       In (nm, dim, face) (map portalSummary (portals problem)) <->
       In (DPortal nm dim face) sampleDirectives) /\
    positionConstraints problem = boxesOf sampleDirectives /\
    desiredLinks problem = linksOf sampleDirectives /\
    optimizationPairs problem = goalsOf sampleDirectives.
Proof.
  assert (H0 : asciiText sampleText = true) by (vm_compute; reflexivity).
  assert (H1 : hasDirective "ENTITY_SIZE" sampleText = false)
    by (vm_compute; reflexivity).
  split; [exact H0|]. split; [exact H1|].
  destruct (parse_without_entity_size_defaults readInteger readInteger sampleText
              H0 H1) as [_ H].
  exact (H sampleDirectives sampleText_reads sampleDirectives_valid).
Defined.

End AcceptedTexts.
